(** * A voxel world model: block store, visibility, streaming, ray casting
      and collision resolution

    Shallow embedding of [main.py], read as the Python 3 program it is
    ([time.process_time], pyglet).  Python numbers are modelled as they are
    at run time: an [int] is an unbounded [Z], a [float] is an IEEE
    binary64 value (Rocq's primitive floats).  Dictionaries are finite
    maps, the deferred-work queue is a list of recorded calls, and a raised
    exception is the [None] of the option monad. *)

From Stdlib Require Import ZArith Lia List Bool.
From Stdlib Require Import PrimFloat FloatOps SpecFloat FloatAxioms.
From stdpp Require Import base option list gmap.

#[local] Open Scope Z_scope.

(** ** Python numbers *)

Module Py.

(** A Python number as the program meets them: [int] or [float]. *)
Inductive num : Type :=
  | Int (z : Z)
  | Float (f : float).

(** [float(z)] for an [int]: the nearest binary64 value (ties to even);
    CPython raises [OverflowError] when the result is not finite. *)
Definition float_of_scaled (z e : Z) : option float :=
  let f := SF2Prim (binary_normalize prec emax z e false) in
  if is_infinity f then None else Some f.

Definition float_of_int (z : Z) : option float := float_of_scaled z 0.

Definition to_float (a : num) : option float :=
  match a with
  | Int z => float_of_int z
  | Float f => Some f
  end.

(** Mixed arithmetic: [int op int] stays an [int]; otherwise both operands
    are converted to [float]. *)
Definition arith (fz : Z -> Z -> Z) (ff : float -> float -> float)
    (a b : num) : option num :=
  match a, b with
  | Int x, Int y => Some (Int (fz x y))
  | _, _ => x ← to_float a; y ← to_float b; Some (Float (ff x y))
  end.

Definition add : num -> num -> option num := arith Z.add PrimFloat.add.
Definition sub : num -> num -> option num := arith Z.sub PrimFloat.sub.
Definition mul : num -> num -> option num := arith Z.mul PrimFloat.mul.

(** [a / 8] under [from __future__ import division]: true division.  For
    an [int] numerator the quotient [z * 2^-3] is rounded once to binary64;
    for a [float] numerator it is the IEEE quotient by [8.0]. *)
Definition div8 (a : num) : option num :=
  match a with
  | Int z => f ← float_of_scaled z (-3); Some (Float f)
  | Float f => Some (Float (f / 8)%float)
  end.

(** The sign-carrying mantissa of a finite binary64 value [m * 2^e]. *)
Definition signed (s : bool) (m : positive) : Z :=
  if s then Z.neg m else Z.pos m.

(** [z < f] for an [int] and a [float], compared exactly as CPython does
    (no conversion of the [int]). *)
Definition int_lt_float (z : Z) (f : float) : bool :=
  match Prim2SF f with
  | S754_nan => false
  | S754_infinity s => negb s
  | S754_zero _ => z <? 0
  | S754_finite s m e =>
      if 0 <=? e then z <? signed s m * 2 ^ e
      else z * 2 ^ (- e) <? signed s m
  end.

Definition float_lt_int (f : float) (z : Z) : bool :=
  match Prim2SF f with
  | S754_nan => false
  | S754_infinity s => s
  | S754_zero _ => 0 <? z
  | S754_finite s m e =>
      if 0 <=? e then signed s m * 2 ^ e <? z
      else signed s m <? z * 2 ^ (- e)
  end.

Definition lt (a b : num) : bool :=
  match a, b with
  | Int x, Int y => x <? y
  | Int x, Float g => int_lt_float x g
  | Float f, Int y => float_lt_int f y
  | Float f, Float g => (f <? g)%float
  end.

(** Rounding the magnitude [m * 2^e] to the nearest integer, a tie going
    to the even neighbour. *)
Definition round_half_even (m : positive) (e : Z) : Z :=
  if 0 <=? e then Z.pos m * 2 ^ e
  else
    let d := 2 ^ (- e) in
    let q := Z.pos m / d in
    let r := Z.pos m mod d in
    match 2 * r ?= d with
    | Lt => q
    | Gt => q + 1
    | Eq => if Z.even q then q else q + 1
    end.

(** Python 3 [round(x)] with one argument: the identity on an [int]; on a
    [float] the nearest integer with ties to even, [ValueError] on a NaN
    and [OverflowError] on an infinity. *)
Definition round (a : num) : option Z :=
  match a with
  | Int z => Some z
  | Float f =>
      match Prim2SF f with
      | S754_nan => None
      | S754_infinity _ => None
      | S754_zero _ => Some 0
      | S754_finite s m e =>
          let r := round_half_even m e in
          Some (if s then - r else r)
      end
  end.

End Py.

(** ** Geometry utilities *)

(** A block address: a tuple of three [int]s. *)
Abbreviation pos := (Z * Z * Z)%type.

(** A continuous position: a tuple of three Python numbers. *)
Abbreviation point := (Py.num * Py.num * Py.num)%type.

Definition point_of (p : pos) : point :=
  let '(x, y, z) := p in (Py.Int x, Py.Int y, Py.Int z).

Definition SECTOR_SIZE : Z := 16.

Definition FACES : list pos :=
  [ (0, 1, 0); (0, -1, 0); (-1, 0, 0); (1, 0, 0); (0, 0, 1); (0, 0, -1) ].

Definition normalize (position : point) : option pos :=
  let '(x, y, z) := position in
  x ← Py.round x; y ← Py.round y; z ← Py.round z;
  Some (x, y, z).

Definition sectorize (position : point) : option pos :=
  '(x, y, z) ← normalize position;
  let '(x, y, z) := (x / SECTOR_SIZE, y / SECTOR_SIZE, z / SECTOR_SIZE) in
  Some (x, 0, z).

Definition offset (p d : pos) : pos :=
  let '(x, y, z) := p in
  let '(dx, dy, dz) := d in
  (x + dx, y + dy, z + dz).

(** ** Materials

    A material is the list of texture coordinates [tex_coords] builds from
    three cells of the 4x4 atlas. *)

Abbreviation texture := (list float).

Definition cell (k : Z) : float :=
  SF2Prim (binary_normalize prec emax k 0 false).

Definition tex_coord (xy : Z * Z) : list float :=
  let '(x, y) := xy in
  let m := (1 / 4)%float in
  let dx := (cell x * m)%float in
  let dy := (cell y * m)%float in
  [ dx; dy; (dx + m)%float; dy; (dx + m)%float; (dy + m)%float; dx;
    (dy + m)%float ].

Definition tex_coords (top bottom side : Z * Z) : texture :=
  let top := tex_coord top in
  let bottom := tex_coord bottom in
  let side := tex_coord side in
  top ++ bottom ++ (side ++ side ++ side ++ side).

Definition GRASS : texture := tex_coords (1, 0) (0, 1) (0, 0).
Definition SAND : texture := tex_coords (1, 1) (1, 1) (1, 1).
Definition BRICK : texture := tex_coords (2, 0) (2, 0) (2, 0).
Definition STONE : texture := tex_coords (2, 1) (2, 1) (2, 1).
Definition WOOD : texture := tex_coords (3, 1) (3, 1) (3, 1).
Definition LEAF : texture := tex_coords (3, 0) (3, 0) (3, 0).
Definition WATER : texture := tex_coords (0, 2) (0, 2) (0, 2).

(** ** The rendering backend

    [batch.add_indexed] belongs to pyglet.  The model only needs to know
    whether the call returns a vertex list or raises (the exception is
    caught and printed by [_show_block]).  A vertex list that was
    created lives in the batch, and is drawn with it, until its
    [delete()] is called. *)

Inductive VertexList : Type :=
  | vertex_list (position : pos) (texture_data : texture).

Definition vertex_position (v : VertexList) : pos :=
  match v with vertex_list position _ => position end.

Definition vertex_texture (v : VertexList) : texture :=
  match v with vertex_list _ texture_data => texture_data end.

Class Backend := { add_indexed : pos -> texture -> bool }.

(** Two vertex lists are told apart by their data. *)
Definition float_eq_dec : EqDecision float :=
  fun x y =>
    match Leibniz.eqb x y as b
      return Leibniz.eqb x y = b -> {x = y} + {x <> y} with
    | true => fun Heq => left (proj1 (FloatAxioms.Leibniz.eqb_spec x y) Heq)
    | false => fun Hne =>
        right (fun Hxy =>
                 eq_ind true (fun b => if b then True else False) I false
                   (eq_trans
                      (eq_sym (proj2 (FloatAxioms.Leibniz.eqb_spec x y) Hxy))
                      Hne))
    end eq_refl.

#[export] Existing Instance float_eq_dec.

Definition VertexList_eq_dec : EqDecision VertexList :=
  fun v w =>
    match v, w with
    | vertex_list p t, vertex_list q u =>
        match decide (p = q), decide (t = u) with
        | left Hp, left Ht =>
            left (f_equal2 vertex_list Hp Ht)
        | right Hp, _ =>
            right (fun Hvw : vertex_list p t = vertex_list q u =>
                     Hp (f_equal vertex_position Hvw))
        | _, right Ht =>
            right (fun Hvw : vertex_list p t = vertex_list q u =>
                     Ht (f_equal vertex_texture Hvw))
        end
    end.

#[export] Existing Instance VertexList_eq_dec.

(** [vertex_list.delete()]: the list leaves the batch.  The handle that
    is deleted is the list created last among those with its data. *)
Fixpoint delete_mesh (v : VertexList) (l : list VertexList)
    : list VertexList :=
  match l with
  | [] => []
  | u :: l' =>
      if bool_decide (u = v) && negb (bool_decide (v ∈ l')) then l'
      else u :: delete_mesh v l'
  end.

(** ** The world model *)

(** An entry of the work queue: the function and its arguments. *)
Inductive call : Type :=
  | call_show_block (position : pos) (texture : texture)
  | call_hide_block (position : pos).

(** The attributes of [Model]; [batch] holds the vertex lists that live
    in [self.batch], in the order they were created. *)
Record Model : Type := mkModel {
  world : gmap pos texture;
  shown : gmap pos texture;
  _shown : gmap pos VertexList;
  sectors : gmap pos (list pos);
  queue : list call;
  batch : list VertexList
}.

Definition empty_model : Model := mkModel ∅ ∅ ∅ ∅ [] [].

Definition set_world (f : gmap pos texture -> gmap pos texture) (M : Model) :=
  mkModel (f (world M)) (shown M) (_shown M) (sectors M) (queue M) (batch M).
Definition set_shown (f : gmap pos texture -> gmap pos texture) (M : Model) :=
  mkModel (world M) (f (shown M)) (_shown M) (sectors M) (queue M) (batch M).
Definition set_rendered (f : gmap pos VertexList -> gmap pos VertexList)
    (M : Model) :=
  mkModel (world M) (shown M) (f (_shown M)) (sectors M) (queue M) (batch M).
Definition set_sectors (f : gmap pos (list pos) -> gmap pos (list pos))
    (M : Model) :=
  mkModel (world M) (shown M) (_shown M) (f (sectors M)) (queue M) (batch M).
Definition set_queue (f : list call -> list call) (M : Model) :=
  mkModel (world M) (shown M) (_shown M) (sectors M) (f (queue M)) (batch M).
Definition set_batch (f : list VertexList -> list VertexList) (M : Model) :=
  mkModel (world M) (shown M) (_shown M) (sectors M) (queue M) (f (batch M)).

(** [for x in l: body], where the body may raise. *)
Fixpoint for_each {A S : Type} (body : A -> S -> option S) (l : list A)
    (s : S) : option S :=
  match l with
  | [] => Some s
  | x :: l' => s' ← body x s; for_each body l' s'
  end.

(** [l.remove(x)]: drops the first occurrence, [ValueError] if there is
    none. *)
Fixpoint list_remove (x : pos) (l : list pos) : option (list pos) :=
  match l with
  | [] => None
  | y :: l' =>
      if decide (y = x) then Some l'
      else l'' ← list_remove x l'; Some (y :: l'')
  end.

(** [sectors.get(sector, [])] *)
Definition bucket (M : Model) (sector : pos) : list pos :=
  default [] (sectors M !! sector).

Section WorldModel.
Context `{Backend}.

Definition exposed (M : Model) (position : pos) : bool :=
  existsb (fun d => bool_decide (world M !! offset position d = None)) FACES.

Definition _enqueue (c : call) (M : Model) : Model :=
  set_queue (fun q => q ++ [c]) M.

Definition _show_block (position : pos) (texture : texture) (M : Model)
    : Model :=
  if add_indexed position texture
  then
    let handle := vertex_list position texture in
    set_rendered <[position := handle]>
      (set_batch (fun b => b ++ [handle]) M)
  else M.

Definition _hide_block (position : pos) (M : Model) : Model :=
  match _shown M !! position with
  | Some handle =>
      set_batch (delete_mesh handle) (set_rendered (delete position) M)
  | None => M
  end.

Definition show_block (position : pos) (immediate : bool) (M : Model)
    : option Model :=
  texture ← world M !! position;
  let M := set_shown <[position := texture]> M in
  Some (if immediate then _show_block position texture M
        else _enqueue (call_show_block position texture) M).

Definition hide_block (position : pos) (immediate : bool) (M : Model)
    : Model :=
  let M := set_shown (delete position) M in
  if immediate then _hide_block position M
  else _enqueue (call_hide_block position) M.

Definition check_neighbor (position : pos) (d : pos) (M : Model)
    : option Model :=
  let key := offset position d in
  match world M !! key with
  | None => Some M
  | Some _ =>
      if exposed M key then
        match shown M !! key with
        | None => show_block key true M
        | Some _ => Some M
        end
      else
        match shown M !! key with
        | Some _ => Some (hide_block key true M)
        | None => Some M
        end
  end.

Definition check_neighbors (position : pos) (M : Model) : option Model :=
  for_each (check_neighbor position) FACES M.

Definition remove_block (position : pos) (immediate : bool) (M : Model)
    : option Model :=
  match world M !! position with
  | None => Some M
  | Some _ =>
      let M := set_world (delete position) M in
      s ← sectorize (point_of position);
      l ← sectors M !! s;
      l ← list_remove position l;
      let M := set_sectors <[s := l]> M in
      if immediate then
        let M :=
          match shown M !! position with
          | Some _ => hide_block position true M
          | None => M
          end in
        check_neighbors position M
      else Some M
  end.

Definition add_block (position : pos) (texture : texture) (immediate : bool)
    (M : Model) : option Model :=
  M ← match world M !! position with
      | Some _ => remove_block position immediate M
      | None => Some M
      end;
  let M := set_world <[position := texture]> M in
  s ← sectorize (point_of position);
  let M := set_sectors <[s := bucket M s ++ [position]]> M in
  if immediate then
    M ← (if exposed M position then show_block position true M else Some M);
    check_neighbors position M
  else Some (_enqueue (call_show_block position texture) M).

Definition show_sector (sector : pos) (M : Model) : option Model :=
  for_each
    (fun position M =>
       if bool_decide (shown M !! position = None) && exposed M position
       then show_block position false M
       else Some M)
    (bucket M sector) M.

Definition hide_sector (sector : pos) (M : Model) : option Model :=
  for_each
    (fun position M =>
       match shown M !! position with
       | Some _ => Some (hide_block position false M)
       | None => Some M
       end)
    (bucket M sector) M.

End WorldModel.

(** ** Streaming scheduler *)

(** The body of the innermost loop of [change_sectors].  [if before:]
    tests a tuple or [None]; a tuple of three is always true. *)
Definition sector_step (pad : Z) (before after : option pos) (dx dy dz : Z)
    (sets : gset pos * gset pos) : gset pos * gset pos :=
  let '(before_set, after_set) := sets in
  if dx ^ 2 + dy ^ 2 + dz ^ 2 >? (pad + 1) ^ 2
  then (before_set, after_set)
  else
    let before_set :=
      match before with
      | Some s => before_set ∪ {[ offset s (dx, dy, dz) ]}
      | None => before_set
      end in
    let after_set :=
      match after with
      | Some s => after_set ∪ {[ offset s (dx, dy, dz) ]}
      | None => after_set
      end in
    (before_set, after_set).

(** The three nested [for] loops of [change_sectors], over the ranges
    [xs], [ys] and [zs]. *)
Definition sector_loops (pad : Z) (xs ys zs : list Z)
    (before after : option pos) : gset pos * gset pos :=
  fold_left (fun sets dx =>
    fold_left (fun sets dy =>
      fold_left (fun sets dz => sector_step pad before after dx dy dz sets)
        zs sets)
      ys sets)
    xs (∅, ∅).

(** The two sets [change_sectors] builds, and from them the sectors to
    show and the sectors to hide. *)
Definition sector_sets (before after : option pos) : gset pos * gset pos :=
  let pad := 4 in
  sector_loops pad (seqZ (- pad) (pad + 1 - - pad)) [0]
               (seqZ (- pad) (pad + 1 - - pad)) before after.

Definition sectors_to_show (before after : option pos) : gset pos :=
  let '(before_set, after_set) := sector_sets before after in
  after_set ∖ before_set.

Definition sectors_to_hide (before after : option pos) : gset pos :=
  let '(before_set, after_set) := sector_sets before after in
  before_set ∖ after_set.

Section Scheduler.
Context `{Backend}.

(** The order in which Python walks a [set] is left to the interpreter;
    [elements] fixes one enumeration without repetition. *)
Definition change_sectors (before after : option pos) (M : Model)
    : option Model :=
  let show := sectors_to_show before after in
  let hide := sectors_to_hide before after in
  M ← for_each show_sector (elements show) M;
  for_each hide_sector (elements hide) M.

Definition run_call (c : call) (M : Model) : Model :=
  match c with
  | call_show_block position texture => _show_block position texture M
  | call_hide_block position => _hide_block position M
  end.

(** [popleft] raises [IndexError] on an empty deque. *)
Definition _dequeue (M : Model) : option Model :=
  match queue M with
  | [] => None
  | c :: q => Some (run_call c (set_queue (fun _ => q) M))
  end.

(** [process_queue]: the clock is outside the model; [ticks] counts how
    many times the budget test succeeds before it first fails. *)
Fixpoint process_queue (ticks : nat) (M : Model) : option Model :=
  match ticks with
  | O => Some M
  | S ticks' =>
      match queue M with
      | [] => Some M
      | _ :: _ => M' ← _dequeue M; process_queue ticks' M'
      end
  end.

(** [process_entire_queue]: a queued call never touches the queue, so the
    loop runs once per entry present at the start. *)
Fixpoint drain (pending : nat) (M : Model) : option Model :=
  match pending with
  | O => Some M
  | S pending' =>
      match queue M with
      | [] => Some M
      | _ :: _ => M' ← _dequeue M; drain pending' M'
      end
  end.

Definition process_entire_queue (M : Model) : option Model :=
  drain (length (queue M)) M.

End Scheduler.

(** ** Ray caster *)

Definition advance (x dx : Py.num) : option Py.num :=
  q ← Py.div8 dx; Py.add x q.

Fixpoint hit_test_loop (w : gmap pos texture) (steps : nat)
    (position vector : point) (previous : option pos)
    : option (option pos * option pos) :=
  match steps with
  | O => Some (None, None)
  | S steps' =>
      key ← normalize position;
      if bool_decide (Some key ≠ previous) &&
         bool_decide (is_Some (w !! key))
      then Some (Some key, previous)
      else
        let '(x, y, z) := position in
        let '(dx, dy, dz) := vector in
        x ← advance x dx; y ← advance y dy; z ← advance z dz;
        hit_test_loop w steps' (x, y, z) vector (Some key)
  end.

Definition hit_test (M : Model) (position vector : point)
    (max_distance : Z) : option (option pos * option pos) :=
  let m := 8 in
  hit_test_loop (world M) (Z.to_nat (max_distance * m)) position vector None.

(** ** Collision resolver *)

Record contacts : Type := mkContacts {
  top : bool;
  bottom : bool;
  right : bool;
  left : bool
}.

Record Window : Type := mkWindow {
  model : Model;
  collision_types : contacts;
  dy : Py.num
}.

Definition get3 {A : Type} (t : A * A * A) (i : nat) : A :=
  let '(a, b, c) := t in
  match i with
  | O => a
  | S O => b
  | _ => c
  end.

Definition set3 {A : Type} (t : A * A * A) (i : nat) (v : A) : A * A * A :=
  let '(a, b, c) := t in
  match i with
  | O => (v, b, c)
  | S O => (a, v, c)
  | _ => (a, b, v)
  end.

Definition pad : Py.num := Py.Float 0.25.

(** The body executed on the first occupied cell of the column. *)
Definition push_back (face : pos) (i : nat) (d : Py.num)
    (st : point * Window) : option (point * Window) :=
  let '(p, W) := st in
  e ← Py.sub d pad;
  e ← Py.mul e (Py.Int (get3 face i));
  v ← Py.sub (get3 p i) e;
  let p := set3 p i v in
  let W :=
    if decide (face = (0, -1, 0)) then
      let c := collision_types W in
      mkWindow (model W) (mkContacts true (bottom c) (right c) (left c))
               (Py.Int 0)
    else W in
  let W :=
    if decide (face = (0, 1, 0)) then
      let c := collision_types W in
      mkWindow (model W) (mkContacts (top c) true (right c) (left c))
               (Py.Int 0)
    else W in
  Some (p, W).

(** [for dy in xrange(height)]: [continue] on a free cell, [break] after
    the first occupied one. *)
Fixpoint collide_column (np face : pos) (i : nat) (d : Py.num)
    (dys : list Z) (st : point * Window) : option (point * Window) :=
  match dys with
  | [] => Some st
  | dy :: dys' =>
      let op := np in
      let op := set3 op 1 (get3 op 1 - dy) in
      let op := set3 op i (get3 op i + get3 face i) in
      match world (model (snd st)) !! op with
      | None => collide_column np face i d dys' st
      | Some _ => push_back face i d st
      end
  end.

Definition collide_axis (np : pos) (height : Z) (face : pos) (i : nat)
    (st : point * Window) : option (point * Window) :=
  if decide (get3 face i = 0) then Some st
  else
    e ← Py.sub (get3 (fst st) i) (Py.Int (get3 np i));
    d ← Py.mul e (Py.Int (get3 face i));
    if Py.lt d pad then Some st
    else collide_column np face i d (seqZ 0 height) st.

Definition collide (position : point) (height : Z) (W : Window)
    : option (point * Window) :=
  let p := position in
  np ← normalize position;
  let W := mkWindow (model W) (mkContacts false false false false) (dy W) in
  for_each
    (fun face st => for_each (collide_axis np height face) [0; 1; 2]%nat st)
    FACES (p, W).

(** ** Operations of the world model and the states they reach *)

Inductive op : Type :=
  | op_add_block (position : pos) (texture : texture) (immediate : bool)
  | op_remove_block (position : pos) (immediate : bool)
  | op_show_block (position : pos) (immediate : bool)
  | op_hide_block (position : pos) (immediate : bool)
  | op_show_sector (sector : pos)
  | op_hide_sector (sector : pos)
  | op_change_sectors (before after : option pos)
  | op_process_queue (ticks : nat)
  | op_process_entire_queue.

Section Operations.
Context `{Backend}.

Definition run_op (o : op) (M : Model) : option Model :=
  match o with
  | op_add_block position texture immediate =>
      add_block position texture immediate M
  | op_remove_block position immediate => remove_block position immediate M
  | op_show_block position immediate => show_block position immediate M
  | op_hide_block position immediate => Some (hide_block position immediate M)
  | op_show_sector sector => show_sector sector M
  | op_hide_sector sector => hide_sector sector M
  | op_change_sectors before after => change_sectors before after M
  | op_process_queue ticks => process_queue ticks M
  | op_process_entire_queue => process_entire_queue M
  end.

Definition run_ops (os : list op) (M : Model) : option Model :=
  for_each run_op os M.

(** The states of a session: the model starts empty ([Model.__init__]
    before [_initialize]) and changes only through its operations. *)
Inductive reachable : Model -> Prop :=
  | reachable_empty : reachable empty_model
  | reachable_step o M M' :
      reachable M -> run_op o M = Some M' -> reachable M'.

End Operations.

(** The backend of the scenarios: every vertex list is created. *)
#[export] Instance accepting_backend : Backend :=
  {| add_indexed _ _ := true |}.

(** ** Invariants *)

(** ShownSet is a subset of the domain of World. *)
Definition shown_in_world (M : Model) : Prop :=
  forall p, is_Some (shown M !! p) -> is_Some (world M !! p).

Definition sector_of (p : pos) : pos :=
  let '(x, y, z) := p in (x / SECTOR_SIZE, 0, z / SECTOR_SIZE).

Definition occurrences (p : pos) (l : list pos) : nat :=
  length (filter (fun q => q = p) l).

(** The sector index is in step with World: a position occurs in the
    bucket of its sector once when it holds a block, and not at all
    otherwise. *)
Definition index_sync (M : Model) : Prop :=
  forall p,
    occurrences p (bucket M (sector_of p)) =
    match world M !! p with Some _ => 1%nat | None => 0%nat end.

(** The faces adjacent to [p]. *)
Definition neighbour (p k : pos) : Prop :=
  exists d, d ∈ FACES /\ k = offset p d.


(** ** Auxiliary definitions used in the statements *)

Section Auxiliary.
Context `{Backend}.

(** What ShownSet holds for an occupied neighbour once [check_neighbor]
    has looked at it. *)
Definition visible_after (M : Model) (k : pos) : option texture :=
  if exposed M k then
    match shown M !! k with
    | Some t => Some t
    | None => world M !! k
    end
  else None.

(** The state [remove_block] hands to [check_neighbors] (immediate mode),
    or returns (deferred mode). *)
Definition unlinked (p : pos) (immediate : bool) (l : list pos) (M : Model)
    : Model :=
  let M := set_world (delete p) M in
  let M := set_sectors <[sector_of p := l]> M in
  if immediate then
    match shown M !! p with
    | Some _ => hide_block p true M
    | None => M
    end
  else M.

(** What [add_block] does once the position is free. *)
Definition placed (p : pos) (t : texture) (M : Model) : Model :=
  let M := set_world <[p := t]> M in
  set_sectors <[sector_of p := bucket M (sector_of p) ++ [p]]> M.

Definition place (p : pos) (t : texture) (immediate : bool) (M : Model)
    : option Model :=
  let M := placed p t M in
  if immediate then
    M ← (if exposed M p then show_block p true M else Some M);
    check_neighbors p M
  else Some (_enqueue (call_show_block p t) M).

End Auxiliary.

(** The even one of [k] and [k + 1]: the integer nearest to [k + 1/2]
    that is even. *)
Definition nearest_even (k : Z) : Z := if Z.even k then k else k + 1.

(** The binary64 value [f] is exactly [k + 1/2]: it is finite, written
    [m * 2^e] with [e < 0], and [m * 2^(e+1)] is the odd integer
    [2 * k + 1]. *)
Definition half_integer (f : float) (k : Z) : Prop :=
  exists s m e,
    Prim2SF f = S754_finite s m e /\ e < 0 /\
    Py.signed s m = (2 * k + 1) * 2 ^ (- e - 1).

(** The positions [hit_test] samples: the origin, then one more
    [vector / 8] at each step, each normalized. *)
Definition advance3 (position vector : point) : option point :=
  let '(x, y, z) := position in
  let '(dx, dy, dz) := vector in
  x ← advance x dx; y ← advance y dy; z ← advance z dz; Some (x, y, z).

Fixpoint sampled_keys (position vector : point) (steps : nat)
    : option (list pos) :=
  match steps with
  | O => Some []
  | S steps' =>
      key ← normalize position;
      position' ← advance3 position vector;
      keys ← sampled_keys position' vector steps';
      Some (key :: keys)
  end.

(** The sample before the [i]-th one, for a march that starts with a
    given [previous]. *)
Definition previous_from (previous : option pos) (keys : list pos)
    (i : nat) : option pos :=
  match i with
  | O => previous
  | S j => keys !! j
  end.

(** A sample that makes the march return: a block, different from the
    previous sample's. *)
Definition hits_from (w : gmap pos texture) (previous : option pos)
    (keys : list pos) (i : nat) : Prop :=
  exists key, keys !! i = Some key /\ is_Some (w !! key) /\
    Some key ≠ previous_from previous keys i.

(** [hit_test] starts with no previous sample. *)
Definition previous_key : list pos -> nat -> option pos :=
  previous_from None.

Definition hits (w : gmap pos texture) : list pos -> nat -> Prop :=
  hits_from w None.

(** The disk of sectors around a centre: offsets of at most [pad = 4] on
    the two horizontal axes, none on the vertical one, within the squared
    distance [(pad + 1)^2]; no centre, no disk. *)
Definition in_disk (centre : option pos) (s : pos) : Prop :=
  match centre with
  | None => False
  | Some c =>
      exists dx dz, - 4 <= dx <= 4 /\ - 4 <= dz <= 4 /\
        dx ^ 2 + dz ^ 2 <= (4 + 1) ^ 2 /\ s = offset c (dx, 0, dz)
  end.

(** The one operation that takes a position out of World and leaves it in
    ShownSet: a deferred removal of a shown position. *)
Definition deferred_remove_of_shown (o : op) (M : Model) : Prop :=
  match o with
  | op_remove_block p false => is_Some (shown M !! p)
  | _ => False
  end.

(** What one round of the innermost loop contributes around [centre]. *)
Definition within (centre : option pos) (dx dy dz : Z) (s : pos) : Prop :=
  dx ^ 2 + dy ^ 2 + dz ^ 2 <= (4 + 1) ^ 2 /\
  exists c, centre = Some c /\ s = offset c (dx, dy, dz).

(** ** Scenario states *)

Definition origin : pos := (0, 0, 0).
Definition above : pos := (0, 1, 0).

(** One block placed by the player, and the state this leaves. *)
Definition one_stone : option Model :=
  run_ops [op_add_block origin STONE true] empty_model.

Definition stone_model : Model :=
  mkModel {[ origin := STONE ]} {[ origin := STONE ]}
          {[ origin := vertex_list origin STONE ]}
          {[ (0, 0, 0) := [origin] ]} [] [vertex_list origin STONE].

(** A shown block whose mesh removal is still queued. *)
Definition hide_pending : option Model :=
  run_ops [op_add_block origin STONE true; op_hide_sector (0, 0, 0)]
          empty_model.

(** A block that was shown and then removed in deferred mode. *)
Definition removed_deferred : option Model :=
  run_ops [op_add_block origin STONE true; op_remove_block origin false]
          empty_model.

(** A block at the origin enclosed on every side but the top. *)
Definition enclosed : option Model :=
  run_ops [ op_add_block origin STONE true;
            op_add_block (0, -1, 0) STONE true;
            op_add_block (-1, 0, 0) STONE true;
            op_add_block (1, 0, 0) STONE true;
            op_add_block (0, 0, 1) STONE true;
            op_add_block (0, 0, -1) STONE true ] empty_model.

Definition hidden_model : Model :=
  mkModel {[ origin := STONE ]} ∅
          {[ origin := vertex_list origin STONE ]}
          {[ (0, 0, 0) := [origin] ]} [call_hide_block origin]
          [vertex_list origin STONE].

Definition enclosed_model : Model :=
  let blocks : gmap pos texture :=
    list_to_map
      [ (origin, STONE); ((0, -1, 0), STONE); ((-1, 0, 0), STONE);
        ((1, 0, 0), STONE); ((0, 0, 1), STONE); ((0, 0, -1), STONE) ] in
  mkModel blocks blocks
          (list_to_map
             [ (origin, vertex_list origin STONE);
               ((0, -1, 0), vertex_list (0, -1, 0) STONE);
               ((-1, 0, 0), vertex_list (-1, 0, 0) STONE);
               ((1, 0, 0), vertex_list (1, 0, 0) STONE);
               ((0, 0, 1), vertex_list (0, 0, 1) STONE);
               ((0, 0, -1), vertex_list (0, 0, -1) STONE) ])
          (list_to_map
             [ ((0, 0, 0), [origin; (0, -1, 0); (1, 0, 0); (0, 0, 1)]);
               ((-1, 0, 0), [(-1, 0, 0)]);
               ((0, 0, -1), [(0, 0, -1)]) ])
          []
          [ vertex_list origin STONE; vertex_list (0, -1, 0) STONE;
            vertex_list (-1, 0, 0) STONE; vertex_list (1, 0, 0) STONE;
            vertex_list (0, 0, 1) STONE; vertex_list (0, 0, -1) STONE ].

(** The ray of the ray-cast scenario. *)
Definition ray_origin : point := (Py.Int 0, Py.Int 0, Py.Int 5).
Definition ray_direction : point := (Py.Int 0, Py.Int 0, Py.Int (-1)).

(** The move of the collision scenario, and a falling player. *)
Definition desired : point := (Py.Int 0, Py.Float 0.5, Py.Int 0).
Definition falling : Window :=
  mkWindow stone_model (mkContacts false false false false) (Py.Float (-1)).

(** Start-up as the game runs it, for one block: the generator queues
    its upload, the queue is drained, the first sector is shown and the
    queue drained again. *)
Definition streamed : option Model :=
  run_ops [ op_add_block origin STONE false;
            op_process_entire_queue;
            op_change_sectors None (Some (0, 0, 0));
            op_process_entire_queue ] empty_model.

Definition streamed_model : Model :=
  mkModel {[ origin := STONE ]} {[ origin := STONE ]}
          {[ origin := vertex_list origin STONE ]}
          {[ (0, 0, 0) := [origin] ]} []
          [vertex_list origin STONE; vertex_list origin STONE].

(** The collision scenario one block up: the only block is at (0,1,0). *)
Definition raised : Window :=
  mkWindow (set_world (fun _ => {[ above := STONE ]}) empty_model)
           (mkContacts false false false false) (Py.Float (-1)).

(** The enclosed block with its top covered as well: it is out of
    ShownSet and its vertex list has been deleted. *)
Definition buried_model : Model :=
  let blocks : gmap pos texture :=
    list_to_map
      [ (origin, STONE); ((0, -1, 0), STONE); ((-1, 0, 0), STONE);
        ((1, 0, 0), STONE); ((0, 0, 1), STONE); ((0, 0, -1), STONE);
        (above, STONE) ] in
  mkModel blocks (delete origin blocks)
          (list_to_map
             [ ((0, -1, 0), vertex_list (0, -1, 0) STONE);
               ((-1, 0, 0), vertex_list (-1, 0, 0) STONE);
               ((1, 0, 0), vertex_list (1, 0, 0) STONE);
               ((0, 0, 1), vertex_list (0, 0, 1) STONE);
               ((0, 0, -1), vertex_list (0, 0, -1) STONE);
               (above, vertex_list above STONE) ])
          (list_to_map
             [ ((0, 0, 0),
                [origin; (0, -1, 0); (1, 0, 0); (0, 0, 1); above]);
               ((-1, 0, 0), [(-1, 0, 0)]);
               ((0, 0, -1), [(0, 0, -1)]) ])
          []
          [ vertex_list (0, -1, 0) STONE; vertex_list (-1, 0, 0) STONE;
            vertex_list (1, 0, 0) STONE; vertex_list (0, 0, 1) STONE;
            vertex_list (0, 0, -1) STONE; vertex_list above STONE ].

(** ** Further invariants of the world model *)

(** The sector index holds exactly the positions of World, each in the
    bucket of its own sector. *)
Definition index_exact (M : Model) : Prop :=
  forall s p,
    p ∈ bucket M s <-> is_Some (world M !! p) /\ sector_of p = s.

(** ShownSet is the set of exposed blocks. *)
Definition shown_exact (M : Model) : Prop :=
  forall p,
    is_Some (shown M !! p) <->
    is_Some (world M !! p) /\ exposed M p = true.

(** Every mesh belongs to a position of ShownSet. *)
Definition rendered_in_shown (M : Model) : Prop :=
  forall p, is_Some (_shown M !! p) -> is_Some (shown M !! p).

(** Every bucket holds positions of its own sector only. *)
Definition buckets_own (M : Model) : Prop :=
  forall s p, p ∈ bucket M s -> sector_of p = s.

Section QueueEffects.
Context `{Backend}.

(** What a run of queued calls does to the rendered map. *)
Definition apply_call (r : gmap pos VertexList) (c : call)
    : gmap pos VertexList :=
  match c with
  | call_show_block p t =>
      if add_indexed p t then <[p := vertex_list p t]> r else r
  | call_hide_block p => delete p r
  end.

Definition apply_calls (cs : list call) (r : gmap pos VertexList)
    : gmap pos VertexList :=
  fold_left apply_call cs r.

End QueueEffects.

Section SectorBodies.
Context `{Backend}.



End SectorBodies.

(** What [collide] may have done to the window it started from: the
    model and the two horizontal flags are as at the start of the scan,
    and the vertical velocity is 0 once a vertical contact is recorded,
    untouched before. *)
Definition vertical_only (W0 W : Window) : Prop :=
  model W = model W0 /\
  right (collision_types W) = false /\
  left (collision_types W) = false /\
  if top (collision_types W) || bottom (collision_types W)
  then dy W = Py.Int 0 else dy W = dy W0.

(** ** The batch *)

(** The vertex lists of the batch that stand at [p].  RenderedSet, the
    positions the backend holds a live mesh for, contains [p] when this
    list is not empty. *)
Definition meshes_at (p : pos) (M : Model) : list VertexList :=
  filter (fun v => vertex_position v = p) (batch M).

(** No vertex list has lost its handle: at every position the batch
    holds the list [_shown] refers to, once, and no other. *)
Definition batch_exact (M : Model) : Prop :=
  forall p, meshes_at p M = option_list (_shown M !! p).

(** ShownSet is inside World, every handle belongs to a position of
    ShownSet, and the batch holds the handles only. *)
Definition settled (M : Model) : Prop :=
  shown_in_world M /\ rendered_in_shown M /\ batch_exact M.

(** The edits made at once: add, remove and hide in immediate mode. *)
Definition immediate_edit (o : op) : Prop :=
  match o with
  | op_add_block _ _ immediate => immediate = true
  | op_remove_block _ immediate => immediate = true
  | op_hide_block _ immediate => immediate = true
  | _ => False
  end.

Section QueueRuns.
Context `{Backend}.

(** Queued calls run one after the other. *)
Definition run_calls (cs : list call) (M : Model) : Model :=
  fold_left (fun N c => run_call c N) cs M.

End QueueRuns.

(** ** World generation

    [NoiseGen] is not part of this file and [random] is the interpreter's.
    Modelled from the spec: the terrain generator is a pure function from
    a column to an integer height.  [height x z] stands for the entry
    [heightMap[z + x * n]], that is [int(gen.getHeight(x, z) / 6)] (the
    index is distinct for distinct columns of the loop); [draw k a b]
    stands for the result of the [k]-th call of [random.randrange], made
    with the bounds [a] and [b].  The state threaded through the loops is
    the model and the number of draws made so far. *)

(** [xrange(start, stop, -1)] *)
Definition range_down (start stop : Z) : list Z :=
  reverse (seqZ (stop + 1) (start - stop)).

Section Initialize.
Context `{Backend}.
Variable height : Z -> Z -> Z.
Variable draw : nat -> Z -> Z -> Z.

Definition add_deferred (position : pos) (texture : texture)
    (st : Model * nat) : option (Model * nat) :=
  M ← add_block position texture false st.1; Some (M, st.2).

Definition randrange (a b : Z) (st : Model * nat) : Z * (Model * nat) :=
  (draw st.2 a b, (st.1, S st.2)).

(** The trunk and the leaf cluster of a tree on the column [(x, z)]. *)
Definition plant_tree (x z h : Z) (st : Model * nat)
    : option (Model * nat) :=
  let '(treeHeight, st) := randrange 3 5 st in
  st ← for_each (fun y => add_deferred (x, y, z) WOOD)
                (seqZ (h + 1) (h + treeHeight - (h + 1))) st;
  let leafh := h + treeHeight in
  for_each (fun lz =>
    for_each (fun lx =>
      for_each (fun ly => add_deferred (lx, leafh + ly, lz) LEAF)
               (seqZ 0 2))
      (seqZ (x - 1) (x + 2 - (x - 1))))
    (seqZ (z - 1) (z + 2 - (z - 1))) st.

(** The body of the generation loop for the column [(x, z)]. *)
Definition generate_column (x z : Z) (st : Model * nat)
    : option (Model * nat) :=
  let h := height x z in
  if h <? 4 then
    st ← add_deferred (x, h, z) SAND st;
    for_each (fun y => add_deferred (x, y, z) WATER) (seqZ h (4 - h)) st
  else
    st ← (if h <? 6 then add_deferred (x, h, z) SAND st else Some st);
    st ← add_deferred (x, h, z) GRASS st;
    st ← for_each (fun y => add_deferred (x, y, z) STONE)
                  (range_down (h - 1) 0) st;
    if 6 <? h then
      let '(r, st) := randrange 0 1000 st in
      if 990 <? r then plant_tree x z h st else Some st
    else Some st.

Definition _initialize (st : Model * nat) : option (Model * nat) :=
  let n := 160 in
  let s := 1 in
  for_each (fun x => for_each (fun z => generate_column x z) (seqZ 0 n))
           (seqZ 0 n) st.

End Initialize.

(** No block of SAND. *)
Definition no_sand (M : Model) : Prop :=
  forall p, world M !! p ≠ Some SAND.

(** After the start-up drain with a backend that creates every mesh: the
    queue stands for one mesh per block of World, built from the block's
    material. *)
Definition queue_renders_world `{Backend} (M : Model) : Prop :=
  forall k,
    apply_calls (queue M) (_shown M) !! k = vertex_list k <$> world M !! k.

(** ** Input handlers

    The constants of [pyglet.window.key] and [pyglet.window.mouse] the
    handlers compare against. *)

Module key.
Definition MOD_CTRL : Z := 2.
Definition SPACE : Z := 32.
Definition _0 : Z := 48.
Definition _1 : Z := 49.
Definition _2 : Z := 50.
Definition _3 : Z := 51.
Definition _4 : Z := 52.
Definition _5 : Z := 53.
Definition _6 : Z := 54.
Definition _7 : Z := 55.
Definition _8 : Z := 56.
Definition _9 : Z := 57.
Definition A : Z := 97.
Definition C : Z := 99.
Definition D : Z := 100.
Definition R : Z := 114.
Definition S : Z := 115.
Definition W : Z := 119.
Definition TAB : Z := 65289.
Definition ESCAPE : Z := 65307.
Definition LSHIFT : Z := 65505.
End key.

Module mouse.
Definition LEFT : Z := 1.
Definition MIDDLE : Z := 2.
Definition RIGHT : Z := 4.
End mouse.

(** The handlers of the window, and the attributes they read and write
    next to the model. *)
Module Input.

Definition SPRINT_SPEED : Z := 7.

(** [SPRINT_SPEED / 2] under true division. *)
Definition SPRINT_FOV : Py.num := Py.Float 3.5.

Record Controls : Type := mkControls {
  exclusive : bool;
  flying : bool;
  jumping : bool;
  crouch : bool;
  sprinting : bool;
  fov_offset : Py.num;
  strafe : Z * Z;
  position : point;
  rotation : Py.num * Py.num;
  block : texture
}.

Definition set_exclusive (v : bool) (c : Controls) : Controls :=
  mkControls v (flying c) (jumping c) (crouch c) (sprinting c)
             (fov_offset c) (strafe c) (position c) (rotation c) (block c).

Definition set_flying (v : bool) (c : Controls) : Controls :=
  mkControls (exclusive c) v (jumping c) (crouch c) (sprinting c)
             (fov_offset c) (strafe c) (position c) (rotation c) (block c).

Definition set_jumping (v : bool) (c : Controls) : Controls :=
  mkControls (exclusive c) (flying c) v (crouch c) (sprinting c)
             (fov_offset c) (strafe c) (position c) (rotation c) (block c).

Definition set_crouch (v : bool) (c : Controls) : Controls :=
  mkControls (exclusive c) (flying c) (jumping c) v (sprinting c)
             (fov_offset c) (strafe c) (position c) (rotation c) (block c).

Definition set_sprinting (v : bool) (c : Controls) : Controls :=
  mkControls (exclusive c) (flying c) (jumping c) (crouch c) v
             (fov_offset c) (strafe c) (position c) (rotation c) (block c).

Definition set_fov_offset (v : Py.num) (c : Controls) : Controls :=
  mkControls (exclusive c) (flying c) (jumping c) (crouch c) (sprinting c)
             v (strafe c) (position c) (rotation c) (block c).

Definition set_strafe (v : Z * Z) (c : Controls) : Controls :=
  mkControls (exclusive c) (flying c) (jumping c) (crouch c) (sprinting c)
             (fov_offset c) v (position c) (rotation c) (block c).

Definition set_rotation (v : Py.num * Py.num) (c : Controls) : Controls :=
  mkControls (exclusive c) (flying c) (jumping c) (crouch c) (sprinting c)
             (fov_offset c) (strafe c) (position c) v (block c).

Definition set_block (v : texture) (c : Controls) : Controls :=
  mkControls (exclusive c) (flying c) (jumping c) (crouch c) (sprinting c)
             (fov_offset c) (strafe c) (position c) (rotation c) v.

Definition inventory : list texture := [BRICK; GRASS; SAND; WOOD; LEAF].

Definition num_keys : list Z :=
  [ key._1; key._2; key._3; key._4; key._5; key._6; key._7; key._8;
    key._9; key._0 ].

(** [a == b] on two materials: lists of the same length whose floats are
    equal pairwise (the float comparison; a NaN is in none of the
    materials of the program). *)
Definition texture_eq (a b : texture) : bool :=
  (length a =? length b)%nat &&
  forallb (fun xy => (xy.1 =? xy.2)%float) (combine a b).

(** [min(a, b)] and [max(a, b)] of two numbers: the first argument is
    kept unless the second is strictly smaller (greater). *)
Definition py_min (a b : Py.num) : Py.num := if Py.lt b a then b else a.
Definition py_max (a b : Py.num) : Py.num := if Py.lt a b then b else a.

Section Handlers.
Context `{Backend}.

(** [get_sight_vector] is made of [math.cos], [math.sin] and
    [math.radians], which belong to the C library: the handler is
    modelled for whatever vector it returns for the rotation. *)
Variable get_sight_vector : Py.num * Py.num -> point.

Definition on_mouse_press (button modifiers : Z) (c : Controls)
    (M : Model) : option (Controls * Model) :=
  if exclusive c then
    let vector := get_sight_vector (rotation c) in
    '(hit, previous) ← hit_test M (position c) vector 8;
    if (button =? mouse.RIGHT) ||
       ((button =? mouse.LEFT) &&
        negb (Z.land modifiers key.MOD_CTRL =? 0))
    then
      match previous with
      | Some previous =>
          M ← add_block previous (block c) true M; Some (c, M)
      | None => Some (c, M)
      end
    else
      match button =? mouse.LEFT, hit with
      | true, Some hit =>
          texture ← world M !! hit;
          if negb (texture_eq texture STONE)
          then M ← remove_block hit true M; Some (c, M)
          else Some (c, M)
      | _, _ => Some (c, M)
      end
  else Some (set_exclusive true c, M).

End Handlers.

Definition on_mouse_motion (dx dy : Py.num) (c : Controls)
    : option Controls :=
  if exclusive c then
    let m := Py.Float 0x1.3333333333333p-3 in
    let '(xrot, yrot) := rotation c in
    ax ← Py.mul dx m;
    xrot ← Py.add xrot ax;
    ay ← Py.mul dy m;
    yrot ← Py.add yrot ay;
    let yrot := py_max (Py.Int (-90)) (py_min (Py.Int 90) yrot) in
    Some (set_rotation (xrot, yrot) c)
  else Some c.

Definition on_key_press (symbol modifiers : Z) (c : Controls)
    : option Controls :=
  if symbol =? key.W then
    Some (set_strafe ((strafe c).1 - 1, (strafe c).2) c)
  else if symbol =? key.S then
    Some (set_strafe ((strafe c).1 + 1, (strafe c).2) c)
  else if symbol =? key.A then
    Some (set_strafe ((strafe c).1, (strafe c).2 - 1) c)
  else if symbol =? key.D then
    Some (set_strafe ((strafe c).1, (strafe c).2 + 1) c)
  else if symbol =? key.C then
    f ← Py.sub (fov_offset c) (Py.Float 60); Some (set_fov_offset f c)
  else if symbol =? key.SPACE then
    Some (set_jumping true c)
  else if symbol =? key.ESCAPE then
    Some (set_exclusive false c)
  else if symbol =? key.LSHIFT then
    let c := set_crouch true c in
    if sprinting c then
      f ← Py.sub (fov_offset c) SPRINT_FOV;
      Some (set_sprinting false (set_fov_offset f c))
    else Some c
  else if symbol =? key.R then
    if negb (crouch c) then
      c ← (if negb (sprinting c)
           then f ← Py.add (fov_offset c) SPRINT_FOV;
                Some (set_fov_offset f c)
           else Some c);
      Some (set_sprinting true c)
    else Some c
  else if symbol =? key.TAB then
    Some (set_flying (negb (flying c)) c)
  else if bool_decide (symbol ∈ num_keys) then
    first ← num_keys !! 0%nat;
    let index := (symbol - first) `mod` Z.of_nat (length inventory) in
    b ← inventory !! Z.to_nat index;
    Some (set_block b c)
  else Some c.

Definition on_key_release (symbol modifiers : Z) (c : Controls)
    : option Controls :=
  if symbol =? key.W then
    Some (set_strafe ((strafe c).1 + 1, (strafe c).2) c)
  else if symbol =? key.S then
    Some (set_strafe ((strafe c).1 - 1, (strafe c).2) c)
  else if symbol =? key.A then
    Some (set_strafe ((strafe c).1, (strafe c).2 + 1) c)
  else if symbol =? key.D then
    Some (set_strafe ((strafe c).1, (strafe c).2 - 1) c)
  else if symbol =? key.SPACE then
    Some (set_jumping false c)
  else if symbol =? key.LSHIFT then
    Some (set_crouch false c)
  else if symbol =? key.C then
    f ← Py.add (fov_offset c) (Py.Float 60); Some (set_fov_offset f c)
  else Some c.

(** The pitch is a number between [lo] and [hi]. *)
Definition between (lo hi : Z) (a : Py.num) : Prop :=
  Py.lt a (Py.Int lo) = false /\ Py.lt (Py.Int hi) a = false /\
  a <> Py.Float nan.

(** Crouching and sprinting exclude each other, and the block in hand is
    one of the inventory. *)
Definition steady (c : Controls) : Prop :=
  crouch c && sprinting c = false /\ block c ∈ inventory.

Definition movement_keys : list Z := [key.W; key.S; key.A; key.D].

(** What a press of a movement key adds to [strafe] (its release takes
    it away again), and the sum over a run of keys. *)
Definition strafe_step (symbol : Z) : Z * Z :=
  if symbol =? key.W then (-1, 0)
  else if symbol =? key.S then (1, 0)
  else if symbol =? key.A then (0, -1)
  else if symbol =? key.D then (0, 1)
  else (0, 0).

Definition strafe_total (symbols : list Z) : Z * Z :=
  foldr (fun symbol t => ((strafe_step symbol).1 + t.1,
                          (strafe_step symbol).2 + t.2))
        (0, 0) symbols.

(** Key events in a row. *)
Definition press_all (symbols : list Z) (c : Controls) : option Controls :=
  for_each (fun symbol => on_key_press symbol 0) symbols c.

Definition release_all (symbols : list Z) (c : Controls)
    : option Controls :=
  for_each (fun symbol => on_key_release symbol 0) symbols c.

(** A player in front of the stone of [stone_model], looking at it. *)
Definition player : Controls :=
  mkControls true false false false false (Py.Int 0) (0, 0) ray_origin
             (Py.Int 0, Py.Int 0) BRICK.

End Input.
(** * Properties *)

(** ** Basic facts *)

Lemma sectorize_point_of (p : pos) :
  sectorize (point_of p) = Some (sector_of p).
Proof. destruct p as [[x y] z]. reflexivity. Qed.

Lemma for_each_inv {A S : Type} (P : S -> Prop) (body : A -> S -> option S)
    (l : list A) :
  (forall x s s', x ∈ l -> P s -> body x s = Some s' -> P s') ->
  forall s s', P s -> for_each body l s = Some s' -> P s'.
Proof.
  induction l as [|x l IH]; intros Hstep s s' Hs Hrun; simpl in Hrun.
  - by simplify_eq.
  - destruct (body x s) as [s1|] eqn:Hb; simpl in Hrun; [|done].
    eapply IH; [| |exact Hrun].
    + intros y t t' Hy. apply Hstep. by right.
    + eapply Hstep; [by left|exact Hs|exact Hb].
Qed.

Lemma offset_face_ne (p d : pos) : d ∈ FACES -> offset p d ≠ p.
Proof.
  destruct p as [[x y] z]. unfold FACES. rewrite !elem_of_cons, elem_of_nil.
  intros Hd Heq. destruct d as [[dx dy] dz]. simpl in Heq.
  intuition (simplify_eq; lia).
Qed.

Lemma neighbour_ne (p k : pos) : neighbour p k -> k ≠ p.
Proof. intros (d & Hd & ->). by apply offset_face_ne. Qed.

(** The faces come in opposite pairs, so adjacency is symmetric. *)
Lemma neighbour_sym (p k : pos) : neighbour p k -> neighbour k p.
Proof.
  intros (d & Hd & ->). destruct p as [[x y] z].
  destruct d as [[dx dy] dz].
  exists (- dx, - dy, - dz). split.
  - unfold FACES in *. rewrite !elem_of_cons, elem_of_nil in Hd.
    intuition (simplify_eq; simpl; set_solver).
  - simpl. f_equal; [f_equal|]; lia.
Qed.

Section Facts.
Context `{Backend}.

Lemma exposed_true (M : Model) (p : pos) :
  exposed M p = true <-> exists d, d ∈ FACES /\ world M !! offset p d = None.
Proof.
  unfold exposed. rewrite existsb_exists. split.
  - intros (d & Hd & Hw). exists d. split; [by apply list_elem_of_In|].
    by apply bool_decide_eq_true in Hw.
  - intros (d & Hd & Hw). exists d. split; [by apply list_elem_of_In|].
    by apply bool_decide_eq_true.
Qed.

Lemma exposed_world (M M' : Model) (p : pos) :
  world M' = world M -> exposed M' p = exposed M p.
Proof. intros Hw. unfold exposed. by rewrite Hw. Qed.

End Facts.

(** ** Showing, hiding and the one-hop visibility update *)

Section Visibility.
Context `{Backend}.

Lemma show_block_Some (p : pos) (immediate : bool) (M M' : Model) :
  show_block p immediate M = Some M' ->
  exists t, world M !! p = Some t /\
    world M' = world M /\ sectors M' = sectors M /\
    shown M' = <[p := t]> (shown M) /\
    (forall k, k ≠ p -> _shown M' !! k = _shown M !! k) /\
    (immediate = true -> queue M' = queue M) /\
    (immediate = false -> _shown M' = _shown M).
Proof.
  unfold show_block. destruct (world M !! p) as [t|] eqn:Hw; simpl; [|done].
  intros [= <-]. exists t.
  destruct immediate; unfold _show_block, _enqueue;
    [destruct (add_indexed p t)|]; simpl;
    repeat split; try done; intros k Hk; by rewrite ?lookup_insert_ne.
Qed.

Lemma show_block_present (p : pos) (immediate : bool) (M : Model) :
  is_Some (world M !! p) -> is_Some (show_block p immediate M).
Proof. intros [t Ht]. unfold show_block. rewrite Ht. simpl. eauto. Qed.

Lemma _hide_block_fields (p : pos) (M : Model) :
  world (_hide_block p M) = world M /\
  shown (_hide_block p M) = shown M /\
  sectors (_hide_block p M) = sectors M /\
  queue (_hide_block p M) = queue M /\
  _shown (_hide_block p M) = delete p (_shown M).
Proof.
  unfold _hide_block. destruct (_shown M !! p) eqn:Hp; simpl;
    repeat split; try done.
  symmetry. by apply delete_id.
Qed.

Lemma hide_block_fields (p : pos) (immediate : bool) (M : Model) :
  world (hide_block p immediate M) = world M /\
  sectors (hide_block p immediate M) = sectors M /\
  shown (hide_block p immediate M) = delete p (shown M) /\
  (forall k, k ≠ p ->
     _shown (hide_block p immediate M) !! k = _shown M !! k) /\
  (immediate = true ->
     queue (hide_block p immediate M) = queue M /\
     _shown (hide_block p immediate M) = delete p (_shown M)) /\
  (immediate = false -> _shown (hide_block p immediate M) = _shown M).
Proof.
  unfold hide_block, _enqueue. destruct immediate.
  - destruct (_hide_block_fields p (set_shown (delete p) M))
      as (-> & -> & -> & -> & ->). simpl.
    repeat split; try done. intros k Hk. by rewrite lookup_delete_ne.
  - simpl. repeat split; done.
Qed.

Lemma check_neighbor_spec (p d : pos) (M : Model) :
  exists M', check_neighbor p d M = Some M' /\
    world M' = world M /\ sectors M' = sectors M /\ queue M' = queue M /\
    (forall k, shown M' !! k =
       if decide (k = offset p d /\ is_Some (world M !! k))
       then visible_after M k else shown M !! k) /\
    (forall k, k ≠ offset p d -> _shown M' !! k = _shown M !! k).
Proof.
  unfold check_neighbor. set (key := offset p d).
  destruct (world M !! key) as [t|] eqn:Hw.
  - destruct (exposed M key) eqn:He.
    + destruct (shown M !! key) as [t'|] eqn:Hs.
      * exists M. repeat split; try done. intros k.
        case_decide as Hk; [|done]. destruct Hk as [-> _].
        unfold visible_after. by rewrite He, Hs.
      * destruct (show_block key true M) as [M'|] eqn:Hshow.
        2:{ destruct (show_block_present key true M) as [? ?]; [eauto|].
            congruence. }
        exists M'. apply show_block_Some in Hshow
          as (t2 & Ht2 & Hw' & Hsec & Hsh & Hr & Hq & _).
        repeat split; try done; [by apply Hq|]. intros k. rewrite Hsh.
        case_decide as Hk.
        -- destruct Hk as [-> _]. rewrite lookup_insert_eq.
           unfold visible_after. rewrite He, Hs. done.
        -- rewrite lookup_insert_ne; [done|]. intros <-. apply Hk. eauto.
    + destruct (shown M !! key) as [t'|] eqn:Hs.
      * exists (hide_block key true M).
        destruct (hide_block_fields key true M)
          as (Hw' & Hsec & Hsh & Hr & Hq & _).
        destruct Hq as [Hq _]; [done|].
        repeat split; try done. intros k. rewrite Hsh. case_decide as Hk.
        -- destruct Hk as [-> _]. rewrite lookup_delete_eq.
           unfold visible_after. by rewrite He.
        -- rewrite lookup_delete_ne; [done|]. intros <-. apply Hk. eauto.
      * exists M. repeat split; try done. intros k.
        case_decide as Hk; [|done]. destruct Hk as [-> _].
        unfold visible_after. by rewrite He.
  - exists M. repeat split; try done. intros k.
    case_decide as Hk; [|done]. destruct Hk as [-> [? ?]]. congruence.
Qed.

Lemma visible_after_eq (M M' : Model) (k : pos) :
  world M' = world M -> shown M' !! k = shown M !! k ->
  visible_after M' k = visible_after M k.
Proof.
  intros Hw Hs. unfold visible_after.
  by rewrite (exposed_world M M' k Hw), Hs, Hw.
Qed.

Lemma visible_after_idem (M M' : Model) (k : pos) :
  world M' = world M -> is_Some (world M !! k) ->
  shown M' !! k = visible_after M k ->
  visible_after M' k = visible_after M k.
Proof.
  intros Hw [t Ht] Hs. unfold visible_after in *.
  rewrite (exposed_world M M' k Hw), Hs, Hw.
  destruct (exposed M k); [|done].
  destruct (shown M !! k); [done|]. by rewrite Ht.
Qed.

(** The update over any list of faces; [check_neighbors] is the instance
    at [FACES]. *)
Lemma check_faces_spec (p : pos) (l : list pos) (M : Model) :
  exists M', for_each (check_neighbor p) l M = Some M' /\
    world M' = world M /\ sectors M' = sectors M /\ queue M' = queue M /\
    (forall k, shown M' !! k =
       if decide (k ∈ (offset p <$> l) /\ is_Some (world M !! k))
       then visible_after M k else shown M !! k) /\
    (forall k, k ∉ (offset p <$> l) -> _shown M' !! k = _shown M !! k).
Proof.
  revert M. induction l as [|d l IH]; intros M; simpl.
  - exists M. repeat split; done.
  - destruct (check_neighbor_spec p d M)
      as (M1 & -> & Hw1 & Hsec1 & Hq1 & Hs1 & Hr1). simpl.
    destruct (IH M1) as (M' & -> & Hw & Hsec & Hq & Hs & Hr).
    exists M'. repeat split; try congruence.
    + intros k. rewrite Hs, Hw1. specialize (Hs1 k). revert Hs1.
      destruct (decide (k = offset p d /\ is_Some (world M !! k)))
        as [Hd|Hd]; intros Hs1;
      destruct (decide (k ∈ offset p <$> l /\ is_Some (world M !! k)))
        as [[Hin Hk]|Hn].
      * rewrite decide_True by (split; [by right|done]).
        by apply visible_after_idem.
      * destruct Hd as [Hd Hk].
        by rewrite decide_True by (split; [rewrite Hd; by left|done]).
      * rewrite decide_True by (split; [by right|done]).
        by apply visible_after_eq.
      * rewrite decide_False; [done|]. intros [Hin Hk].
        apply elem_of_cons in Hin as [Hin|Hin]; [by apply Hd|by apply Hn].
    + intros k Hk. apply not_elem_of_cons in Hk as [Hk1 Hk2].
      rewrite Hr by done. by apply Hr1.
Qed.

Lemma neighbour_faces (p k : pos) : k ∈ (offset p <$> FACES) <-> neighbour p k.
Proof.
  rewrite list_elem_of_fmap. unfold neighbour. split.
  - intros (d & -> & Hd). eauto.
  - intros (d & Hd & ->). eauto.
Qed.

Lemma check_neighbors_spec (p : pos) (M : Model) :
  exists M', check_neighbors p M = Some M' /\
    world M' = world M /\ sectors M' = sectors M /\ queue M' = queue M /\
    (forall k, neighbour p k -> is_Some (world M !! k) ->
       shown M' !! k = visible_after M k) /\
    (forall k, ~ (neighbour p k /\ is_Some (world M !! k)) ->
       shown M' !! k = shown M !! k) /\
    (forall k, ~ neighbour p k -> _shown M' !! k = _shown M !! k).
Proof.
  destruct (check_faces_spec p FACES M)
    as (M' & Hrun & Hw & Hsec & Hq & Hs & Hr).
  exists M'. repeat split; try done.
  - intros k Hn Hk. rewrite Hs.
    by rewrite decide_True by (split; [by apply neighbour_faces|done]).
  - intros k Hn. rewrite Hs. rewrite decide_False; [done|].
    intros [Hin Hk]. apply Hn. split; [by apply neighbour_faces|done].
  - intros k Hn. apply Hr. by rewrite neighbour_faces.
Qed.

End Visibility.

(** ** Buckets of the sector index *)

Lemma occurrences_cons (p q : pos) (l : list pos) :
  occurrences p (q :: l) =
  ((if decide (q = p) then 1 else 0) + occurrences p l)%nat.
Proof.
  unfold occurrences. rewrite filter_cons. by case_decide.
Qed.

Lemma occurrences_app (p : pos) (l1 l2 : list pos) :
  occurrences p (l1 ++ l2) = (occurrences p l1 + occurrences p l2)%nat.
Proof. unfold occurrences. by rewrite filter_app, length_app. Qed.

Lemma occurrences_zero (p : pos) (l : list pos) :
  occurrences p l = 0%nat <-> p ∉ l.
Proof.
  induction l as [|q l IH].
  { split; [intros _; apply not_elem_of_nil|done]. }
  rewrite occurrences_cons, not_elem_of_cons. case_decide; split.
  - lia.
  - intros [? _]. congruence.
  - intros ?. split; [congruence|]. apply IH. lia.
  - intros [_ ?]. simpl. by apply IH.
Qed.

Lemma list_remove_occurrences (p : pos) (l l' : list pos) :
  list_remove p l = Some l' ->
  occurrences p l = S (occurrences p l') /\
  forall q, q ≠ p -> occurrences q l' = occurrences q l.
Proof.
  revert l'. induction l as [|y l IH]; intros l'; simpl; [done|].
  case_decide as Hy.
  - intros [= <-]. subst y. split.
    + rewrite occurrences_cons. by rewrite decide_True.
    + intros q Hq. rewrite occurrences_cons. by rewrite decide_False.
  - destruct (list_remove p l) as [l''|]; simpl; [|done].
    intros [= <-]. destruct (IH l'' eq_refl) as [IH1 IH2]. split.
    + rewrite !occurrences_cons, IH1. rewrite !decide_False by done. lia.
    + intros q Hq. rewrite !occurrences_cons. by rewrite IH2.
Qed.

Lemma list_remove_present (p : pos) (l : list pos) :
  (0 < occurrences p l)%nat -> is_Some (list_remove p l).
Proof.
  induction l as [|y l IH]; simpl.
  - unfold occurrences. simpl. lia.
  - rewrite occurrences_cons. case_decide; [eauto|]. simpl. intros Hp.
    destruct IH as [l' ->]; [lia|]. simpl. eauto.
Qed.

Lemma list_remove_appended (p : pos) (l : list pos) :
  p ∉ l -> list_remove p (l ++ [p]) = Some l.
Proof.
  induction l as [|y l IH]; simpl; intros Hp.
  - by rewrite decide_True.
  - apply not_elem_of_cons in Hp as [Hy Hp].
    rewrite decide_False by done. by rewrite IH.
Qed.

(** ** Removing and adding a block *)

#[global] Arguments check_neighbors : simpl never.
#[global] Arguments show_block : simpl never.
#[global] Arguments hide_block : simpl never.
#[global] Arguments exposed : simpl never.

Section Blocks.
Context `{Backend}.

Lemma remove_block_absent (p : pos) (immediate : bool) (M : Model) :
  world M !! p = None -> remove_block p immediate M = Some M.
Proof. intros Hp. unfold remove_block. by rewrite Hp. Qed.

#[local] Arguments unlinked : simpl never.

Lemma remove_block_present (p : pos) (immediate : bool) (M : Model) :
  is_Some (world M !! p) ->
  remove_block p immediate M =
    l ← sectors M !! sector_of p;
    l ← list_remove p l;
    if immediate then check_neighbors p (unlinked p true l M)
    else Some (unlinked p false l M).
Proof.
  intros [t Hp]. unfold remove_block. rewrite Hp, sectorize_point_of. simpl.
  destruct (sectors M !! sector_of p) as [l|]; simpl; [|done].
  destruct (list_remove p l) as [l'|]; simpl; [|done].
  by destruct immediate.
Qed.

Lemma unlinked_fields (p : pos) (immediate : bool) (l : list pos)
    (M : Model) :
  world (unlinked p immediate l M) = delete p (world M) /\
  sectors (unlinked p immediate l M) = <[sector_of p := l]> (sectors M) /\
  queue (unlinked p immediate l M) = queue M /\
  shown (unlinked p immediate l M) =
    (if immediate then delete p (shown M) else shown M) /\
  (forall k, k ≠ p -> _shown (unlinked p immediate l M) !! k = _shown M !! k) /\
  _shown (unlinked p immediate l M) !! p =
    (if immediate then
       match shown M !! p with Some _ => None | None => _shown M !! p end
     else _shown M !! p).
Proof.
  unfold unlinked. destruct immediate; simpl; [|done].
  destruct (shown M !! p) as [t|] eqn:Hs.
  - destruct (hide_block_fields p true
                (set_sectors <[sector_of p := l]>
                   (set_world (delete p) M)))
      as (Hw & Hsec & Hsh & Hr & Hq & _).
    destruct (Hq eq_refl) as [Hq' Hr'].
    rewrite Hw, Hsec, Hsh, Hq', Hr'. simpl. repeat split; try done.
    + intros k Hk. by rewrite lookup_delete_ne.
    + by rewrite lookup_delete_eq.
  - simpl. repeat split; try done. by rewrite delete_id.
Qed.

(** Under a sector index in step with World, removal never raises. *)
Lemma remove_block_total (p : pos) (immediate : bool) (M : Model) :
  index_sync M -> is_Some (remove_block p immediate M).
Proof.
  intros Hsync. destruct (world M !! p) as [t|] eqn:Hp.
  2:{ rewrite remove_block_absent by done. eauto. }
  rewrite remove_block_present by eauto.
  specialize (Hsync p). rewrite Hp in Hsync. unfold bucket in Hsync.
  destruct (sectors M !! sector_of p) as [l|]; simpl in *.
  2:{ unfold occurrences in Hsync. simpl in Hsync. lia. }
  destruct (list_remove_present p l) as [l' ->]; [lia|]. simpl.
  destruct immediate; [|eauto].
  destruct (check_neighbors_spec p (unlinked p true l' M)) as (M' & -> & _).
  eauto.
Qed.

Lemma remove_block_world (p : pos) (immediate : bool) (M M' : Model) :
  remove_block p immediate M = Some M' ->
  world M' = delete p (world M) /\ queue M' = queue M.
Proof.
  destruct (world M !! p) as [t|] eqn:Hp.
  2:{ rewrite remove_block_absent by done. intros [= <-].
      by rewrite delete_id. }
  rewrite remove_block_present by eauto.
  destruct (sectors M !! sector_of p) as [l|]; simpl; [|done].
  destruct (list_remove p l) as [l'|]; simpl; [|done].
  destruct (unlinked_fields p immediate l' M) as (Hw & _ & Hq & _).
  destruct immediate.
  - destruct (check_neighbors_spec p (unlinked p true l' M))
      as (M2 & -> & Hw2 & _ & Hq2 & _).
    intros [= <-]. split; congruence.
  - intros [= <-]. done.
Qed.

#[local] Arguments placed : simpl never.

Lemma add_block_unfold (p : pos) (t : texture) (immediate : bool)
    (M : Model) :
  add_block p t immediate M =
    M0 ← remove_block p immediate M; place p t immediate M0.
Proof.
  unfold add_block, place, placed.
  destruct (world M !! p) eqn:Hp.
  - destruct (remove_block p immediate M); simpl; [|done].
    by rewrite sectorize_point_of.
  - rewrite remove_block_absent by done. simpl.
    by rewrite sectorize_point_of.
Qed.

Lemma place_total (p : pos) (t : texture) (immediate : bool) (M : Model) :
  is_Some (place p t immediate M).
Proof.
  unfold place. destruct immediate; [|eauto].
  destruct (exposed (placed p t M) p).
  - destruct (show_block_present p true (placed p t M)) as [M1 ->].
    { unfold placed. simpl. rewrite lookup_insert_eq. eauto. }
    simpl. destruct (check_neighbors_spec p M1) as (M2 & -> & _). eauto.
  - simpl. destruct (check_neighbors_spec p (placed p t M))
      as (M2 & -> & _). eauto.
Qed.

Lemma place_world (p : pos) (t : texture) (immediate : bool) (M M' : Model) :
  place p t immediate M = Some M' ->
  world M' = <[p := t]> (world M) /\
  sectors M' = <[sector_of p := bucket M (sector_of p) ++ [p]]> (sectors M).
Proof.
  unfold place. destruct immediate.
  - destruct (exposed (placed p t M) p).
    + destruct (show_block p true (placed p t M)) as [M1|] eqn:Hs;
        simpl; [|done].
      apply show_block_Some in Hs as (t' & _ & Hw & Hsec & _).
      destruct (check_neighbors_spec p M1) as (M2 & -> & Hw2 & Hsec2 & _).
      intros [= <-]. rewrite Hw2, Hw, Hsec2, Hsec. done.
    + simpl. destruct (check_neighbors_spec p (placed p t M))
        as (M2 & -> & Hw2 & Hsec2 & _).
      intros [= <-]. rewrite Hw2, Hsec2. done.
  - intros [= <-]. done.
Qed.

End Blocks.

(** ** Operations that leave the block store alone *)

Section Invariants.
Context `{Backend}.

#[local] Arguments unlinked : simpl never.
#[local] Arguments placed : simpl never.

Lemma show_sector_store (s : pos) (M M' : Model) :
  show_sector s M = Some M' ->
  world M' = world M /\ sectors M' = sectors M.
Proof.
  unfold show_sector.
  apply (for_each_inv
           (fun N => world N = world M /\ sectors N = sectors M)); [|done].
  intros p N N' _ [Hw Hs] Hstep.
  destruct (bool_decide (shown N !! p = None) && exposed N p).
  - apply show_block_Some in Hstep as (t & _ & Hw' & Hs' & _).
    split; congruence.
  - by simplify_eq.
Qed.

Lemma hide_sector_store (s : pos) (M M' : Model) :
  hide_sector s M = Some M' ->
  world M' = world M /\ sectors M' = sectors M.
Proof.
  unfold hide_sector.
  apply (for_each_inv
           (fun N => world N = world M /\ sectors N = sectors M)); [|done].
  intros p N N' _ [Hw Hs] Hstep.
  destruct (shown N !! p); simplify_eq; [|done].
  destruct (hide_block_fields p false N) as (Hw' & Hs' & _).
  split; congruence.
Qed.

Lemma change_sectors_store (before after : option pos) (M M' : Model) :
  change_sectors before after M = Some M' ->
  world M' = world M /\ sectors M' = sectors M.
Proof.
  unfold change_sectors.
  generalize (elements (sectors_to_show before after))
             (elements (sectors_to_hide before after)).
  intros ls lh.
  destruct (for_each show_sector ls M) as [M1|] eqn:H1; simpl; [|done].
  intros H2.
  assert (world M1 = world M /\ sectors M1 = sectors M) as [Hw1 Hs1].
  { revert H1. apply (for_each_inv
      (fun N => world N = world M /\ sectors N = sectors M)); [|done].
    intros s N N' _ [Hw Hs] Hstep. apply show_sector_store in Hstep as [? ?].
    split; congruence. }
  revert H2. apply (for_each_inv
    (fun N => world N = world M /\ sectors N = sectors M)); [|done].
  intros s N N' _ [Hw Hs] Hstep. apply hide_sector_store in Hstep as [? ?].
  split; congruence.
Qed.

Lemma run_call_fields (c : call) (M : Model) :
  world (run_call c M) = world M /\ sectors (run_call c M) = sectors M /\
  shown (run_call c M) = shown M /\ queue (run_call c M) = queue M.
Proof.
  destruct c as [p t|p]; simpl.
  - unfold _show_block. by destruct (add_indexed p t).
  - by destruct (_hide_block_fields p M) as (-> & -> & -> & -> & _).
Qed.

Lemma _dequeue_fields (M M' : Model) :
  _dequeue M = Some M' ->
  world M' = world M /\ sectors M' = sectors M /\ shown M' = shown M /\
  exists c, queue M = c :: queue M'.
Proof.
  unfold _dequeue. destruct (queue M) as [|c q] eqn:Hq; [done|].
  intros [= <-].
  destruct (run_call_fields c (set_queue (fun _ => q) M))
    as (-> & -> & -> & ->). simpl. eauto.
Qed.

Lemma process_queue_fields (ticks : nat) (M M' : Model) :
  process_queue ticks M = Some M' ->
  world M' = world M /\ sectors M' = sectors M /\ shown M' = shown M.
Proof.
  revert M. induction ticks as [|n IH]; intros M; simpl.
  - by intros [= <-].
  - destruct (queue M) eqn:Hq; [by intros [= <-]|].
    destruct (_dequeue M) as [M1|] eqn:Hd; simpl; [|done].
    intros Hrun. apply IH in Hrun as (-> & -> & ->).
    apply _dequeue_fields in Hd as (-> & -> & -> & _). done.
Qed.

Lemma drain_fields (n : nat) (M M' : Model) :
  drain n M = Some M' ->
  world M' = world M /\ sectors M' = sectors M /\ shown M' = shown M.
Proof.
  revert M. induction n as [|n IH]; intros M; simpl.
  - by intros [= <-].
  - destruct (queue M) eqn:Hq; [by intros [= <-]|].
    destruct (_dequeue M) as [M1|] eqn:Hd; simpl; [|done].
    intros Hrun. apply IH in Hrun as (-> & -> & ->).
    apply _dequeue_fields in Hd as (-> & -> & -> & _). done.
Qed.

(** Draining runs every entry: the loop of [process_entire_queue] ends
    with an empty queue and raises nothing. *)
Lemma drain_empties (n : nat) (M : Model) :
  (length (queue M) <= n)%nat ->
  exists M', drain n M = Some M' /\ queue M' = [].
Proof.
  revert M. induction n as [|n IH]; intros M Hn; simpl.
  - exists M. split; [done|]. destruct (queue M); [done|simpl in Hn; lia].
  - destruct (queue M) as [|c q] eqn:Hq; [by eauto|].
    unfold _dequeue. rewrite Hq. simpl. apply IH.
    destruct (run_call_fields c (set_queue (fun _ => q) M))
      as (_ & _ & _ & ->). simpl. simpl in Hn. lia.
Qed.

Lemma process_entire_queue_empties (M : Model) :
  exists M', process_entire_queue M = Some M' /\ queue M' = [].
Proof. by apply drain_empties. Qed.

(** ** The sector index stays in step with World *)

Lemma index_sync_store (M M' : Model) :
  world M' = world M -> sectors M' = sectors M ->
  index_sync M -> index_sync M'.
Proof.
  intros Hw Hs Hsync p. unfold bucket. rewrite Hw, Hs. apply Hsync.
Qed.

Lemma remove_block_sectors (p : pos) (immediate : bool) (M M' : Model) :
  is_Some (world M !! p) -> remove_block p immediate M = Some M' ->
  exists l l', sectors M !! sector_of p = Some l /\
    list_remove p l = Some l' /\
    sectors M' = <[sector_of p := l']> (sectors M).
Proof.
  intros Hp. rewrite remove_block_present by done.
  destruct (sectors M !! sector_of p) as [l|]; simpl; [|done].
  destruct (list_remove p l) as [l'|] eqn:Hl; simpl; [|done].
  destruct (unlinked_fields p immediate l' M) as (_ & Hsec & _).
  intros Hrun. exists l, l'. repeat split; try done.
  destruct immediate.
  - destruct (check_neighbors_spec p (unlinked p true l' M))
      as (M2 & Hc & _ & Hsec2 & _).
    rewrite Hc in Hrun. simplify_eq. congruence.
  - by simplify_eq.
Qed.

Lemma index_sync_remove (p : pos) (immediate : bool) (M M' : Model) :
  index_sync M -> remove_block p immediate M = Some M' -> index_sync M'.
Proof.
  intros Hsync Hrun. destruct (world M !! p) as [t|] eqn:Hp.
  2:{ rewrite remove_block_absent in Hrun by done. by simplify_eq. }
  destruct (remove_block_sectors p immediate M M') as (l & l' & Hl & Hr & Hs);
    [eauto|done|].
  apply remove_block_world in Hrun as [Hw _].
  apply list_remove_occurrences in Hr as [Hocc Hother].
  intros q. specialize (Hsync q). unfold bucket in *. rewrite Hw, Hs.
  destruct (decide (sector_of p = sector_of q)) as [Heq|Hne].
  - rewrite Heq, lookup_insert_eq. simpl. rewrite <- Heq, Hl in Hsync.
    simpl in Hsync. destruct (decide (q = p)) as [->|Hq].
    + rewrite lookup_delete_eq. rewrite Hp in Hsync. lia.
    + rewrite lookup_delete_ne by done. by rewrite Hother.
  - rewrite lookup_insert_ne by done.
    rewrite lookup_delete_ne by (intros ->; done). done.
Qed.

Lemma index_sync_place (p : pos) (t : texture) (immediate : bool)
    (M M' : Model) :
  index_sync M -> world M !! p = None ->
  place p t immediate M = Some M' -> index_sync M'.
Proof.
  intros Hsync Hp Hrun. apply place_world in Hrun as [Hw Hs].
  intros q. specialize (Hsync q). unfold bucket in *. rewrite Hw, Hs.
  destruct (decide (sector_of p = sector_of q)) as [Heq|Hne].
  - rewrite Heq, lookup_insert_eq. simpl. rewrite occurrences_app, Hsync.
    rewrite occurrences_cons. destruct (decide (q = p)) as [->|Hq].
    + rewrite lookup_insert_eq, Hp. by rewrite decide_True.
    + rewrite lookup_insert_ne by done.
      rewrite decide_False by done. unfold occurrences. simpl. lia.
  - rewrite lookup_insert_ne by done.
    rewrite lookup_insert_ne by (intros ->; done). done.
Qed.

Lemma index_sync_add (p : pos) (t : texture) (immediate : bool)
    (M M' : Model) :
  index_sync M -> add_block p t immediate M = Some M' -> index_sync M'.
Proof.
  intros Hsync. rewrite add_block_unfold.
  destruct (remove_block p immediate M) as [M0|] eqn:Hr; simpl; [|done].
  intros Hplace. eapply index_sync_place; [|
    |exact Hplace].
  - eapply index_sync_remove; eauto.
  - apply remove_block_world in Hr as [-> _]. apply lookup_delete_eq.
Qed.

Lemma index_sync_empty : index_sync empty_model.
Proof. intros p. unfold bucket. simpl. by rewrite !lookup_empty. Qed.

Lemma index_sync_step (o : op) (M M' : Model) :
  index_sync M -> run_op o M = Some M' -> index_sync M'.
Proof.
  intros Hsync. destruct o; simpl; intros Hrun.
  - eapply index_sync_add; eauto.
  - eapply index_sync_remove; eauto.
  - apply show_block_Some in Hrun as (t & _ & Hw & Hs & _).
    by apply (index_sync_store M).
  - simplify_eq. destruct (hide_block_fields position immediate M)
      as (Hw & Hs & _). by apply (index_sync_store M).
  - apply show_sector_store in Hrun as [? ?]. by apply (index_sync_store M).
  - apply hide_sector_store in Hrun as [? ?]. by apply (index_sync_store M).
  - apply change_sectors_store in Hrun as [? ?].
    by apply (index_sync_store M).
  - apply process_queue_fields in Hrun as (? & ? & _).
    by apply (index_sync_store M).
  - apply drain_fields in Hrun as (? & ? & _). by apply (index_sync_store M).
Qed.

Lemma reachable_index_sync (M : Model) : reachable M -> index_sync M.
Proof.
  induction 1 as [|o M M' _ IH Hrun]; [apply index_sync_empty|].
  eapply index_sync_step; eauto.
Qed.

End Invariants.

(** ** ShownSet stays inside World *)

Section ShownInWorld.
Context `{Backend}.

#[local] Arguments unlinked : simpl never.
#[local] Arguments placed : simpl never.

Lemma show_block_shown_in_world (p : pos) (immediate : bool) (M M' : Model) :
  shown_in_world M -> show_block p immediate M = Some M' ->
  shown_in_world M'.
Proof.
  intros Hinv Hrun. apply show_block_Some in Hrun
    as (t & Ht & Hw & _ & Hs & _).
  intros k. rewrite Hs, Hw. destruct (decide (k = p)) as [->|Hk].
  - rewrite Ht. eauto.
  - rewrite lookup_insert_ne by done. apply Hinv.
Qed.

Lemma hide_block_shown_in_world (p : pos) (immediate : bool) (M : Model) :
  shown_in_world M -> shown_in_world (hide_block p immediate M).
Proof.
  intros Hinv k. destruct (hide_block_fields p immediate M)
    as (-> & _ & -> & _).
  destruct (decide (k = p)) as [->|Hk].
  - rewrite lookup_delete_eq. by intros [? ?].
  - rewrite lookup_delete_ne by done. apply Hinv.
Qed.

Lemma check_neighbors_shown_in_world (p : pos) (M M' : Model) :
  shown_in_world M -> check_neighbors p M = Some M' -> shown_in_world M'.
Proof.
  intros Hinv Hrun.
  destruct (check_neighbors_spec p M)
    as (M2 & Hc & Hw & _ & _ & Hn & Ho & _).
  rewrite Hc in Hrun. simplify_eq. intros k. rewrite Hw.
  destruct (world M !! k) as [t|] eqn:Hk; [eauto|].
  rewrite Ho; [rewrite <- Hk; apply Hinv|].
  intros [_ [? ?]]. congruence.
Qed.

Lemma remove_block_shown_in_world (p : pos) (M M' : Model) :
  shown_in_world M -> remove_block p true M = Some M' -> shown_in_world M'.
Proof.
  intros Hinv. destruct (world M !! p) as [t|] eqn:Hp.
  2:{ rewrite remove_block_absent by done. by intros [= <-]. }
  rewrite remove_block_present by eauto.
  destruct (sectors M !! sector_of p) as [l|]; simpl; [|done].
  destruct (list_remove p l) as [l'|]; simpl; [|done].
  apply check_neighbors_shown_in_world.
  destruct (unlinked_fields p true l' M) as (Hw & _ & _ & Hs & _).
  intros k. rewrite Hw, Hs. destruct (decide (k = p)) as [->|Hk].
  - rewrite lookup_delete_eq. by intros [? ?].
  - rewrite !lookup_delete_ne by done. apply Hinv.
Qed.

(** A deferred removal leaves ShownSet as it was. *)
Lemma remove_block_deferred_shown (p : pos) (M M' : Model) :
  remove_block p false M = Some M' -> shown M' = shown M.
Proof.
  destruct (world M !! p) as [t|] eqn:Hp.
  2:{ rewrite remove_block_absent by done. by intros [= <-]. }
  rewrite remove_block_present by eauto.
  destruct (sectors M !! sector_of p) as [l|]; simpl; [|done].
  destruct (list_remove p l) as [l'|]; simpl; [|done].
  intros [= <-]. by destruct (unlinked_fields p false l' M) as (_ & _ & _ & ? & _).
Qed.

Lemma place_shown_in_world (p : pos) (t : texture) (immediate : bool)
    (M M' : Model) :
  (forall k, k ≠ p -> is_Some (shown M !! k) -> is_Some (world M !! k)) ->
  place p t immediate M = Some M' -> shown_in_world M'.
Proof.
  intros Hinv.
  assert (shown_in_world (placed p t M)) as Hplaced.
  { intros k. unfold placed. simpl. destruct (decide (k = p)) as [->|Hk].
    - rewrite lookup_insert_eq. eauto.
    - rewrite lookup_insert_ne by done. by apply Hinv. }
  unfold place. destruct immediate.
  - destruct (exposed (placed p t M) p).
    + destruct (show_block p true (placed p t M)) as [M1|] eqn:Hs;
        simpl; [|done].
      apply check_neighbors_shown_in_world.
      by eapply show_block_shown_in_world.
    + simpl. by apply check_neighbors_shown_in_world.
  - by intros [= <-].
Qed.

Lemma add_block_shown_in_world (p : pos) (t : texture) (immediate : bool)
    (M M' : Model) :
  shown_in_world M -> add_block p t immediate M = Some M' ->
  shown_in_world M'.
Proof.
  intros Hinv. rewrite add_block_unfold.
  destruct (remove_block p immediate M) as [M0|] eqn:Hr; simpl; [|done].
  apply place_shown_in_world. intros k Hk. destruct immediate.
  - by apply (remove_block_shown_in_world p M M0).
  - rewrite (remove_block_deferred_shown p M M0) by done.
    apply remove_block_world in Hr as [-> _].
    rewrite lookup_delete_ne by done. apply Hinv.
Qed.

Lemma show_sector_shown_in_world (s : pos) (M M' : Model) :
  shown_in_world M -> show_sector s M = Some M' -> shown_in_world M'.
Proof.
  unfold show_sector. apply for_each_inv. intros p N N' _ HN.
  destruct (bool_decide (shown N !! p = None) && exposed N p).
  - by apply show_block_shown_in_world.
  - by intros [= <-].
Qed.

Lemma hide_sector_shown_in_world (s : pos) (M M' : Model) :
  shown_in_world M -> hide_sector s M = Some M' -> shown_in_world M'.
Proof.
  unfold hide_sector. apply for_each_inv. intros p N N' _ HN.
  destruct (shown N !! p); intros [= <-]; [|done].
  by apply hide_block_shown_in_world.
Qed.

Lemma change_sectors_shown_in_world (before after : option pos)
    (M M' : Model) :
  shown_in_world M -> change_sectors before after M = Some M' ->
  shown_in_world M'.
Proof.
  intros Hinv. unfold change_sectors.
  generalize (elements (sectors_to_show before after))
             (elements (sectors_to_hide before after)).
  intros ls lh.
  destruct (for_each show_sector ls M) as [M1|] eqn:H1; simpl; [|done].
  apply for_each_inv.
  - intros s N N' _. apply hide_sector_shown_in_world.
  - revert H1. apply for_each_inv; [|done].
    intros s N N' _. apply show_sector_shown_in_world.
Qed.

Lemma shown_in_world_same (M M' : Model) :
  world M' = world M -> shown M' = shown M ->
  shown_in_world M -> shown_in_world M'.
Proof. intros Hw Hs Hinv k. rewrite Hw, Hs. apply Hinv. Qed.

End ShownInWorld.

(** * The batch *)

Lemma elem_of_delete_mesh (v u : VertexList) (l : list VertexList) :
  u ∈ delete_mesh v l -> u ∈ l.
Proof.
  induction l as [|w l IH]; cbn [delete_mesh app]; [done|].
  destruct (bool_decide (w = v) && negb (bool_decide (v ∈ l))).
  - intros Hu. by right.
  - rewrite !elem_of_cons. intros [->|Hu]; [by left|right; by apply IH].
Qed.

Lemma delete_mesh_absent (v : VertexList) (l : list VertexList) :
  v ∉ l -> delete_mesh v l = l.
Proof.
  induction l as [|w l IH]; cbn [delete_mesh app]; [done|].
  rewrite not_elem_of_cons. intros [Hne Hv].
  rewrite bool_decide_eq_false_2 by done. simpl. by rewrite IH.
Qed.

Lemma delete_mesh_snoc (v : VertexList) (l : list VertexList) :
  delete_mesh v (l ++ [v]) = l.
Proof.
  induction l as [|w l IH]; cbn [delete_mesh app].
  - rewrite bool_decide_eq_true_2 by done.
    rewrite bool_decide_eq_false_2 by apply not_elem_of_nil. done.
  - rewrite (bool_decide_eq_true_2 (v ∈ l ++ [v]))
      by (apply elem_of_app; right; by left).
    rewrite andb_false_r. by rewrite IH.
Qed.

Lemma delete_mesh_filter_out (P : VertexList -> Prop)
    `{!forall x, Decision (P x)} (v : VertexList) (l : list VertexList) :
  ~ P v -> filter P (delete_mesh v l) = filter P l.
Proof.
  intros Hv. induction l as [|w l IH]; cbn [delete_mesh app]; [done|].
  destruct (bool_decide (w = v) && negb (bool_decide (v ∈ l))) eqn:Hc.
  - apply andb_true_iff in Hc as [->%bool_decide_eq_true _].
    by rewrite filter_cons_False.
  - rewrite !filter_cons. by rewrite IH.
Qed.

Lemma delete_mesh_filter_in (P : VertexList -> Prop)
    `{!forall x, Decision (P x)} (v : VertexList) (l : list VertexList) :
  P v -> v ∈ l ->
  S (length (filter P (delete_mesh v l))) = length (filter P l).
Proof.
  intros Hv. induction l as [|w l IH]; cbn [delete_mesh app].
  - by intros ?%elem_of_nil.
  - intros Hin.
    destruct (bool_decide (w = v) && negb (bool_decide (v ∈ l))) eqn:Hc.
    + apply andb_true_iff in Hc as [->%bool_decide_eq_true _].
      by rewrite filter_cons_True.
    + assert (v ∈ l) as Hl.
      { apply elem_of_cons in Hin as [->|Hl]; [|done].
        rewrite bool_decide_eq_true_2 in Hc by done. simpl in Hc.
        by apply negb_false_iff, bool_decide_eq_true in Hc. }
      rewrite !filter_cons. specialize (IH Hl).
      destruct (decide (P w)); simpl; by rewrite <- IH.
Qed.

Lemma delete_mesh_filter_single (P : VertexList -> Prop)
    `{!forall x, Decision (P x)} (v : VertexList) (l : list VertexList) :
  filter P l = [v] -> filter P (delete_mesh v l) = [].
Proof.
  intros Hl.
  assert (v ∈ filter P l) as [Hv Hin]%list_elem_of_filter
    by (rewrite Hl; by left).
  pose proof (delete_mesh_filter_in P v l Hv Hin) as Hlen.
  rewrite Hl in Hlen. simpl in Hlen.
  apply nil_length_inv. lia.
Qed.

Lemma delete_mesh_filter_nil (P : VertexList -> Prop)
    `{!forall x, Decision (P x)} (v : VertexList) (l : list VertexList) :
  filter P l = [] -> filter P (delete_mesh v l) = [].
Proof.
  intros Hl. destruct (filter P (delete_mesh v l)) as [|u k] eqn:Hk; [done|].
  assert (u ∈ filter P (delete_mesh v l)) as [Hu Hin]%list_elem_of_filter
    by (rewrite Hk; by left).
  apply elem_of_delete_mesh in Hin.
  assert (u ∈ filter P l) as Hf by (by apply list_elem_of_filter).
  rewrite Hl in Hf. by apply elem_of_nil in Hf.
Qed.

Section BatchFacts.
Context `{Backend}.

Lemma meshes_at_show (p k : pos) (t : texture) (M : Model) :
  meshes_at k (_show_block p t M) =
    if add_indexed p t
    then meshes_at k M ++ (if decide (p = k) then [vertex_list p t] else [])
    else meshes_at k M.
Proof.
  unfold _show_block, meshes_at. destruct (add_indexed p t); [|done].
  simpl. rewrite filter_app, filter_cons, filter_nil. simpl.
  by destruct (decide (p = k)).
Qed.

Lemma meshes_at_hide_nil (p k : pos) (M : Model) :
  meshes_at k M = [] -> meshes_at k (_hide_block p M) = [].
Proof.
  unfold _hide_block, meshes_at. destruct (_shown M !! p) as [v|]; [|done].
  simpl. apply delete_mesh_filter_nil.
Qed.

Lemma meshes_at_hide_single (p : pos) (M : Model) :
  meshes_at p M = option_list (_shown M !! p) ->
  meshes_at p (_hide_block p M) = [].
Proof.
  unfold _hide_block, meshes_at. destruct (_shown M !! p) as [v|]; [|done].
  simpl. apply delete_mesh_filter_single.
Qed.

Lemma meshes_at_hide_other (p k : pos) (M : Model) :
  (forall v, _shown M !! p = Some v -> vertex_position v ≠ k) ->
  meshes_at k (_hide_block p M) = meshes_at k M.
Proof.
  unfold _hide_block, meshes_at. destruct (_shown M !! p) as [v|]; [|done].
  intros Hv. simpl. apply delete_mesh_filter_out. by apply Hv.
Qed.

(** [check_neighbors p] creates no vertex list at [p] itself. *)
Lemma check_neighbors_no_mesh (p : pos) (M M' : Model) :
  check_neighbors p M = Some M' ->
  meshes_at p M = [] -> meshes_at p M' = [].
Proof.
  unfold check_neighbors. intros Hrun Hp. revert Hp Hrun.
  apply (for_each_inv (fun N => meshes_at p N = [])).
  intros d N N' Hd HN. unfold check_neighbor.
  pose proof (offset_face_ne p d Hd) as Hne.
  destruct (world N !! offset p d) as [t|] eqn:Hw; [|by intros [= <-]].
  destruct (exposed N (offset p d)).
  - destruct (shown N !! offset p d); [by intros [= <-]|].
    unfold show_block. rewrite Hw. simpl. intros [= <-].
    rewrite meshes_at_show. destruct (add_indexed _ _); [|done].
    rewrite decide_False by done. by rewrite app_nil_r.
  - destruct (shown N !! offset p d); [|by intros [= <-]].
    intros [= <-]. unfold hide_block. by apply meshes_at_hide_nil.
Qed.

End BatchFacts.

(** * The claims about the block store and the visibility engine *)

#[global] Arguments unlinked : simpl never.
#[global] Arguments placed : simpl never.

Lemma run_ops_reachable `{Backend} (os : list op) (M M' : Model) :
  reachable M -> run_ops os M = Some M' -> reachable M'.
Proof.
  unfold run_ops. apply (for_each_inv reachable).
  intros o N N' _ HN Hrun. by eapply reachable_step.
Qed.

Lemma scenario_index_sync `{Backend} (os : list op) (M : Model) :
  run_ops os empty_model = Some M -> index_sync M.
Proof.
  intros Hrun. apply reachable_index_sync.
  eapply run_ops_reachable; [apply reachable_empty|exact Hrun].
Qed.

Lemma shown_in_world_check (M : Model) :
  bool_decide (dom (shown M) ⊆ dom (world M)) = true -> shown_in_world M.
Proof.
  intros Hsub%bool_decide_eq_true k Hk.
  apply elem_of_dom. apply Hsub. by apply elem_of_dom.
Qed.

Lemma one_stone_eq : one_stone = Some stone_model.
Proof. vm_compute. reflexivity. Qed.

Lemma stone_model_sync : index_sync stone_model.
Proof.
  apply (scenario_index_sync [op_add_block origin STONE true]).
  exact one_stone_eq.
Qed.

(** C9.  Removing a position twice in a row is the same as removing it
    once: whatever the modes of the two calls, the second call finds the
    position gone from World and returns the state it was given, with
    World, SectorIndex, ShownSet, the rendered meshes and the work queue
    untouched, and it raises nothing. *)
Theorem remove_block_twice `{Backend} (p : pos) (immediate immediate' : bool)
    (M M1 : Model) :
  remove_block p immediate M = Some M1 ->
  world M1 !! p = None /\ remove_block p immediate' M1 = Some M1.
Proof.
  intros Hrun. apply remove_block_world in Hrun as [Hw _].
  assert (world M1 !! p = None) as Hp by (rewrite Hw; apply lookup_delete_eq).
  split; [done|]. by apply remove_block_absent.
Qed.

Lemma remove_block_twice_witness :
  exists M1,
    remove_block origin true stone_model = Some M1 /\
    world M1 !! origin = None /\
    remove_block origin true M1 = Some M1.
Proof.
  eexists. split; [vm_compute; reflexivity|].
  apply (remove_block_twice origin true true stone_model).
  vm_compute. reflexivity.
Defined.

(** C8.  After [add_block p m] (in either mode, in a state whose sector
    index is in step with World) World maps [p] to [m] and the bucket of
    [sectorize p] holds [p] exactly once; this includes a [p] that was
    occupied, whose block is removed first.  The call raises nothing and
    the index stays in step. *)
Theorem add_block_once `{Backend} (p : pos) (m : texture) (immediate : bool)
    (M : Model) :
  index_sync M ->
  exists M',
    add_block p m immediate M = Some M' /\
    world M' !! p = Some m /\
    (forall s, sectorize (point_of p) = Some s ->
       occurrences p (bucket M' s) = 1%nat) /\
    index_sync M'.
Proof.
  intros Hsync.
  destruct (remove_block_total p immediate M Hsync) as [M0 Hr].
  destruct (place_total p m immediate M0) as [M' Hplace].
  assert (add_block p m immediate M = Some M') as Hadd.
  { rewrite add_block_unfold, Hr. exact Hplace. }
  assert (index_sync M') as Hsync' by (by eapply index_sync_add).
  exists M'. split; [done|].
  apply place_world in Hplace as [Hw _].
  assert (world M' !! p = Some m) as Hp
    by (rewrite Hw; apply lookup_insert_eq).
  repeat split; try done.
  intros s. rewrite sectorize_point_of. intros [= <-].
  specialize (Hsync' p). by rewrite Hp in Hsync'.
Qed.

Lemma add_block_once_witness :
  is_Some (world stone_model !! origin) /\
  exists M',
    add_block origin BRICK true stone_model = Some M' /\
    world M' !! origin = Some BRICK /\
    (forall s, sectorize (point_of origin) = Some s ->
       occurrences origin (bucket M' s) = 1%nat) /\
    index_sync M'.
Proof.
  split; [vm_compute; eauto|].
  apply (add_block_once origin BRICK true stone_model).
  apply stone_model_sync.
Defined.

(** C4 as stated fails.  A block that was shown and whose sector was then
    hidden has left ShownSet, but its mesh removal is still in the work
    queue; removing the block at that moment finds nothing to hide, and
    the handle stays in [_shown] and the vertex list in the batch.  A
    deferred removal does not touch ShownSet at all.  And after start-up
    (the upload queued by the generator, then the one queued when the
    first sector is shown) the batch holds two vertex lists for the
    block and [_shown] a handle for the second only: removing the block,
    which is in ShownSet, deletes that one and leaves the first in the
    batch. *)
Lemma remove_block_leaves_mesh :
  (exists M M',
     hide_pending = Some M /\ is_Some (world M !! origin) /\
     remove_block origin true M = Some M' /\
     world M' !! origin = None /\
     _shown M' !! origin = Some (vertex_list origin STONE) /\
     meshes_at origin M' = [vertex_list origin STONE]) /\
  (exists M',
     remove_block origin false stone_model = Some M' /\
     world M' !! origin = None /\
     shown M' !! origin = Some STONE) /\
  (exists M M',
     streamed = Some M /\ is_Some (shown M !! origin) /\
     remove_block origin true M = Some M' /\
     world M' !! origin = None /\
     shown M' !! origin = None /\
     _shown M' !! origin = None /\
     meshes_at origin M' = [vertex_list origin STONE]).
Proof.
  split; [|split].
  - eexists _, _. split; [vm_compute; reflexivity|].
    split; [vm_compute; eauto|].
    split; [vm_compute; reflexivity|].
    repeat split; vm_compute; reflexivity.
  - eexists. split; [vm_compute; reflexivity|].
    split; vm_compute; reflexivity.
  - eexists _, _. split; [vm_compute; reflexivity|].
    split; [vm_compute; eauto|].
    split; [vm_compute; reflexivity|].
    repeat split; vm_compute; reflexivity.
Qed.

Lemma unlinked_no_mesh `{Backend} (p : pos) (l : list pos) (M : Model) :
  meshes_at p M = option_list (_shown M !! p) ->
  (is_Some (_shown M !! p) -> is_Some (shown M !! p)) ->
  meshes_at p (unlinked p true l M) = [].
Proof.
  intros Hexact Hmesh. unfold unlinked. cbv zeta. simpl.
  destruct (shown M !! p) as [t|] eqn:Hshown.
  - unfold hide_block. by apply meshes_at_hide_single.
  - destruct (_shown M !! p) as [v|] eqn:Hv; [|done].
    destruct Hmesh as [? ?]; [eauto|done].
Qed.

(** C4, amended.  For a position [p] present in World, in a state whose
    sector index is in step with World, [remove_block p] (either mode)
    raises nothing and leaves [p] absent from World and from the bucket of
    [sectorize p].  After an immediate removal [p] is absent from ShownSet
    too; and it is absent from RenderedSet, the batch holding no vertex
    list at [p] and [_shown] no handle for it, when before the call the
    batch held no vertex list at [p] but the one [_shown] refers to (if
    any), and [p] was in ShownSet or had no handle. *)
Theorem remove_block_clears `{Backend} (p : pos) (immediate : bool)
    (M : Model) :
  index_sync M ->
  is_Some (world M !! p) ->
  exists M',
    remove_block p immediate M = Some M' /\
    world M' !! p = None /\
    (forall s, sectorize (point_of p) = Some s -> p ∉ bucket M' s) /\
    (immediate = true ->
     shown M' !! p = None /\
     (meshes_at p M = option_list (_shown M !! p) ->
      (is_Some (_shown M !! p) -> is_Some (shown M !! p)) ->
      _shown M' !! p = None /\ meshes_at p M' = [])).
Proof.
  intros Hsync Hp.
  destruct (remove_block_total p immediate M Hsync) as [M' Hrun].
  exists M'. split; [done|].
  assert (index_sync M') as Hsync' by (by eapply index_sync_remove).
  destruct (remove_block_world p immediate M M' Hrun) as [Hw _].
  assert (world M' !! p = None) as Hp'
    by (rewrite Hw; apply lookup_delete_eq).
  split; [done|]. split.
  { intros s. rewrite sectorize_point_of. intros [= <-].
    apply occurrences_zero. specialize (Hsync' p). by rewrite Hp' in Hsync'. }
  intros ->.
  rewrite remove_block_present in Hrun by done.
  destruct (sectors M !! sector_of p) as [l|]; simpl in Hrun; [|done].
  destruct (list_remove p l) as [l'|]; simpl in Hrun; [|done].
  destruct (unlinked_fields p true l' M) as (_ & _ & _ & Hs & _ & Hr).
  destruct (check_neighbors_spec p (unlinked p true l' M))
    as (M2 & Hc & _ & _ & _ & _ & Hs2 & Hr2).
  rewrite Hc in Hrun. simplify_eq.
  assert (~ neighbour p p) as Hself by (intros Hn; by apply neighbour_ne in Hn).
  split.
  - rewrite Hs2 by (intros [? _]; done). rewrite Hs. apply lookup_delete_eq.
  - intros Hexact Hmesh. split.
    + rewrite Hr2 by done. rewrite Hr.
      destruct (shown M !! p) as [t|] eqn:Hshown; [done|].
      destruct (_shown M !! p) as [v|] eqn:Hv; [|done].
      destruct Hmesh as [? ?]; [eauto|done].
    + eapply check_neighbors_no_mesh; [exact Hc|].
      by apply unlinked_no_mesh.
Qed.

Lemma remove_block_clears_witness :
  index_sync stone_model /\
  is_Some (world stone_model !! origin) /\
  exists M',
    remove_block origin true stone_model = Some M' /\
    world M' !! origin = None /\
    shown M' !! origin = None /\
    _shown M' !! origin = None /\ meshes_at origin M' = [].
Proof.
  assert (is_Some (world stone_model !! origin)) as Hp
    by (vm_compute; eauto).
  split; [apply stone_model_sync|]. split; [exact Hp|].
  destruct (remove_block_clears origin true stone_model stone_model_sync Hp)
    as (M' & Hrun & Hw & _ & Himm).
  destruct (Himm eq_refl) as [Hs Hr].
  destruct Hr as [Hr Hm]; [reflexivity|vm_compute; eauto|].
  exists M'. repeat split; done.
Defined.

(** C2 as stated fails: a deferred [remove_block] deletes the position
    from World and from the sector index and does nothing else, so a block
    that was shown stays in ShownSet. *)
Lemma deferred_remove_keeps_shown :
  exists M,
    removed_deferred = Some M /\
    shown M !! origin = Some STONE /\ world M !! origin = None.
Proof.
  eexists. split; [vm_compute; reflexivity|].
  split; vm_compute; reflexivity.
Qed.

(** C2, amended.  Every operation of the world model other than a deferred
    removal of a position that is in ShownSet keeps ShownSet inside the
    domain of World: adding (either mode), immediate removal, deferred
    removal of a position that is not shown, showing, hiding, showing or
    hiding a sector, changing sectors, and both ways of draining the
    queue. *)
Theorem shown_in_world_step `{Backend} (o : op) (M M' : Model) :
  shown_in_world M ->
  ~ deferred_remove_of_shown o M ->
  run_op o M = Some M' ->
  shown_in_world M'.
Proof.
  intros Hinv Hop. destruct o; simpl; intros Hrun.
  - by eapply add_block_shown_in_world.
  - destruct immediate; [by eapply remove_block_shown_in_world|].
    simpl in Hop. intros k.
    rewrite (remove_block_deferred_shown position M M') by done.
    apply remove_block_world in Hrun as [-> _].
    destruct (decide (k = position)) as [->|Hk]; [done|].
    rewrite lookup_delete_ne by done. apply Hinv.
  - by eapply show_block_shown_in_world.
  - simplify_eq. by apply hide_block_shown_in_world.
  - by eapply show_sector_shown_in_world.
  - by eapply hide_sector_shown_in_world.
  - by eapply change_sectors_shown_in_world.
  - apply process_queue_fields in Hrun as (? & _ & ?).
    by apply (shown_in_world_same M).
  - apply drain_fields in Hrun as (? & _ & ?).
    by apply (shown_in_world_same M).
Qed.

Lemma shown_in_world_step_witness :
  shown_in_world stone_model /\
  exists M',
    run_op (op_add_block origin BRICK false) stone_model = Some M' /\
    shown M' !! origin = Some STONE /\
    shown_in_world M'.
Proof.
  assert (shown_in_world stone_model) as Hinv
    by (apply shown_in_world_check; vm_compute; reflexivity).
  split; [exact Hinv|].
  eexists. split; [vm_compute; reflexivity|].
  split; [vm_compute; reflexivity|].
  apply (shown_in_world_step (op_add_block origin BRICK false) stone_model).
  - exact Hinv.
  - simpl. tauto.
  - vm_compute. reflexivity.
Defined.

(** ** Placing next to shown blocks *)

Section Placement.
Context `{Backend}.

(** An immediate placement on a free position, up to the visibility
    update of the neighbours. *)
Lemma place_immediate (p : pos) (m : texture) (M : Model) :
  exists Ma M',
    place p m true M = Some M' /\ check_neighbors p Ma = Some M' /\
    world Ma = <[p := m]> (world M) /\
    sectors Ma = <[sector_of p := bucket M (sector_of p) ++ [p]]> (sectors M) /\
    forall k, k ≠ p -> shown Ma !! k = shown M !! k.
Proof.
  unfold place. destruct (exposed (placed p m M) p).
  - destruct (show_block_present p true (placed p m M)) as [Ma Hshow].
    { unfold placed. simpl. rewrite lookup_insert_eq. eauto. }
    rewrite Hshow. simpl.
    destruct (check_neighbors_spec p Ma) as (M' & Hc & _).
    exists Ma, M'. apply show_block_Some in Hshow
      as (t & _ & Hw & Hsec & Hs & _).
    repeat split; try done.
    intros k Hk. rewrite Hs. by rewrite lookup_insert_ne.
  - simpl. destruct (check_neighbors_spec p (placed p m M))
      as (M' & Hc & _).
    exists (placed p m M), M'. done.
Qed.

Lemma add_block_free (p : pos) (m : texture) (immediate : bool) (M : Model) :
  world M !! p = None -> add_block p m immediate M = place p m immediate M.
Proof.
  intros Hp. rewrite add_block_unfold. by rewrite remove_block_absent.
Qed.

(** A free position makes each of its occupied neighbours exposed. *)
Lemma exposed_next_to_free (p k : pos) (M : Model) :
  neighbour p k -> world M !! p = None -> exposed M k = true.
Proof.
  intros Hn Hp. apply exposed_true.
  destruct (neighbour_sym p k Hn) as (d & Hd & Heq).
  exists d. split; [done|]. by rewrite <- Heq.
Qed.

Lemma add_then_remove_lookup (p : pos) (m : texture) (M : Model) :
  index_sync M ->
  world M !! p = None ->
  shown M !! p = None ->
  (forall k, neighbour p k -> is_Some (world M !! k) ->
     is_Some (shown M !! k)) ->
  exists M1 M2,
    add_block p m true M = Some M1 /\
    remove_block p true M1 = Some M2 /\
    world M2 = world M /\
    (forall s, bucket M2 s = bucket M s) /\
    forall k, shown M2 !! k = shown M !! k \/
      (neighbour p k /\ is_Some (shown M !! k) /\ is_Some (world M !! k) /\
       shown M2 !! k = world M !! k).
Proof.
  intros Hsync Hp Hsp Hnb.
  destruct (place_immediate p m M) as (Ma & M1 & Hplace & Hc & Hwa & Hsa & Hka).
  exists M1. rewrite add_block_free by done.
  destruct (check_neighbors_spec p Ma)
    as (M1' & Hc' & Hw1 & Hsec1 & _ & Hn1 & Ho1 & _).
  rewrite Hc in Hc'. simplify_eq.
  assert (world M1' !! p = Some m) as Hp1
    by (rewrite Hw1, Hwa; apply lookup_insert_eq).
  assert (p ∉ bucket M (sector_of p)) as Hfresh.
  { apply occurrences_zero. specialize (Hsync p). by rewrite Hp in Hsync. }
  rewrite (remove_block_present p true M1') by eauto.
  rewrite Hsec1, Hsa, lookup_insert_eq. simpl.
  rewrite list_remove_appended by done. simpl.
  set (l := bucket M (sector_of p)) in *.
  destruct (unlinked_fields p true l M1') as (Hwc & Hsc & _ & Hshc & _).
  destruct (check_neighbors_spec p (unlinked p true l M1'))
    as (M2 & Hc2 & Hw2 & Hsec2 & _ & Hn2 & Ho2 & _).
  exists M2. split; [done|]. split; [done|].
  assert (world M2 = world M) as HwM.
  { rewrite Hw2, Hwc, Hw1, Hwa. by apply delete_insert_id. }
  split; [done|]. split.
  { intros s. unfold bucket. rewrite Hsec2, Hsc, Hsec1, Hsa.
    rewrite insert_insert_eq. destruct (decide (sector_of p = s)) as [<-|Hs].
    - by rewrite lookup_insert_eq.
    - by rewrite lookup_insert_ne. }
  intros k.
  assert (world (unlinked p true l M1') = world M) as Hwc'
    by (rewrite <- HwM; congruence).
  destruct (decide (k = p)) as [->|Hkp].
  { left. rewrite Ho2 by (intros [Hn _]; by apply neighbour_ne in Hn).
    rewrite Hshc, lookup_delete_eq. done. }
  assert (shown (unlinked p true l M1') !! k = shown M1' !! k) as Hck
    by (rewrite Hshc; by apply lookup_delete_ne).
  assert (world Ma !! k = world M !! k) as Hka'
    by (rewrite Hwa; by apply lookup_insert_ne).
  destruct (world M !! k) as [t|] eqn:Hk.
  2:{ left. rewrite Ho2 by (rewrite Hwc', Hk; intros [_ [? ?]]; done).
      rewrite Hck. rewrite Ho1 by (rewrite Hka'; intros [_ [? ?]]; done).
      by apply Hka. }
  destruct (decide (k ∈ offset p <$> FACES)) as [Hin|Hout].
  2:{ left. rewrite neighbour_faces in Hout.
      rewrite Ho2 by (intros [? _]; done). rewrite Hck.
      rewrite Ho1 by (intros [? _]; done). by apply Hka. }
  apply neighbour_faces in Hin.
  destruct (Hnb k Hin) as [t' Ht']; [eauto|].
  assert (shown M2 !! k = if exposed Ma k then Some t' else Some t) as ->.
  { rewrite Hn2 by (rewrite ?Hwc', ?Hk; eauto). unfold visible_after.
    rewrite (exposed_world M _ k Hwc'), (exposed_next_to_free p k M) by done.
    rewrite Hck, Hwc', Hk.
    rewrite Hn1 by (rewrite ?Hka'; eauto). unfold visible_after.
    rewrite (Hka k Hkp), Ht'. by destruct (exposed Ma k). }
  destruct (exposed Ma k); [by left|]. right. eauto.
Qed.

End Placement.

(** C3 as stated fails, in three ways.  Adding onto an occupied position
    removes the block that was there, and the removal that follows leaves
    the position empty.  Next to a block that is in World but not in
    ShownSet (here its sector was hidden), adding and removing a
    neighbour puts that block into ShownSet.  And a free position that a
    deferred removal left in ShownSet is out of it after the round
    trip. *)
Lemma add_then_remove_differs :
  one_stone = Some stone_model /\
  (exists M1 M2,
     add_block origin BRICK true stone_model = Some M1 /\
     remove_block origin true M1 = Some M2 /\
     world stone_model !! origin = Some STONE /\
     world M2 !! origin = None) /\
  hide_pending = Some hidden_model /\
  (exists M1 M2,
     add_block above BRICK true hidden_model = Some M1 /\
     remove_block above true M1 = Some M2 /\
     shown hidden_model !! origin = None /\
     shown M2 !! origin = Some STONE) /\
  (exists M M1 M2,
     removed_deferred = Some M /\
     add_block origin BRICK true M = Some M1 /\
     remove_block origin true M1 = Some M2 /\
     world M !! origin = None /\
     shown M !! origin = Some STONE /\
     shown M2 !! origin = None).
Proof.
  split; [vm_compute; reflexivity|]. split.
  { eexists _, _. split; [vm_compute; reflexivity|].
    split; [vm_compute; reflexivity|]. split; vm_compute; reflexivity. }
  split; [vm_compute; reflexivity|]. split.
  { eexists _, _. split; [vm_compute; reflexivity|].
    split; [vm_compute; reflexivity|]. split; vm_compute; reflexivity. }
  eexists _, _, _. split; [vm_compute; reflexivity|].
  split; [vm_compute; reflexivity|]. split; [vm_compute; reflexivity|].
  split; [vm_compute; reflexivity|]. split; vm_compute; reflexivity.
Qed.

(** C3, amended.  Let [p] be a free position that is not in ShownSet, in
    a state whose sector index is in step with World, and let every
    neighbour of [p] that holds a block be in ShownSet.  Then an immediate
    [add_block p m] followed by an immediate [remove_block p] raises
    nothing and leaves World unchanged, every bucket of the sector index
    with the same content (a bucket that did not exist now exists and is
    empty), and the same positions in ShownSet; where the shown neighbours
    carry their World material, ShownSet is the same map. *)
Theorem add_then_remove `{Backend} (p : pos) (m : texture) (M : Model) :
  index_sync M ->
  world M !! p = None ->
  shown M !! p = None ->
  (forall k, neighbour p k -> is_Some (world M !! k) ->
     is_Some (shown M !! k)) ->
  exists M1 M2,
    add_block p m true M = Some M1 /\
    remove_block p true M1 = Some M2 /\
    world M2 = world M /\
    (forall s, bucket M2 s = bucket M s) /\
    dom (shown M2) = dom (shown M) /\
    ((forall k t, neighbour p k -> shown M !! k = Some t ->
        world M !! k = Some t) ->
     shown M2 = shown M).
Proof.
  intros Hsync Hp Hsp Hnb.
  destruct (add_then_remove_lookup p m M Hsync Hp Hsp Hnb)
    as (M1 & M2 & Hadd & Hrem & Hw & Hb & Hs).
  exists M1, M2. repeat split; try done.
  - apply set_eq. intros k. rewrite !elem_of_dom.
    destruct (Hs k) as [->|(_ & Hshown & Hworld & ->)]; [done|]. tauto.
  - intros Hmat. apply map_eq. intros k.
    destruct (Hs k) as [->|(Hn & [t Ht] & _ & ->)]; [done|].
    rewrite Ht. by apply Hmat.
Qed.

Lemma add_then_remove_witness :
  world stone_model !! above = None /\
  shown stone_model !! above = None /\
  exists M1 M2,
    add_block above BRICK true stone_model = Some M1 /\
    remove_block above true M1 = Some M2 /\
    world M2 = world stone_model /\
    (forall s, bucket M2 s = bucket stone_model s) /\
    dom (shown M2) = dom (shown stone_model) /\
    ((forall k t, neighbour above k -> shown stone_model !! k = Some t ->
        world stone_model !! k = Some t) ->
     shown M2 = shown stone_model).
Proof.
  split; [vm_compute; reflexivity|]. split; [vm_compute; reflexivity|].
  apply (add_then_remove above BRICK stone_model).
  - apply stone_model_sync.
  - vm_compute. reflexivity.
  - vm_compute. reflexivity.
  - intros k _ Hk. exact Hk.
Defined.

Lemma faces_axis_aligned (d : pos) :
  d ∈ FACES <->
  let '(dx, dy, dz) := d in Z.abs dx + Z.abs dy + Z.abs dz = 1.
Proof.
  destruct d as [[dx dy] dz]. unfold FACES.
  rewrite !elem_of_cons, elem_of_nil. split.
  - intuition (simplify_eq; reflexivity).
  - intros Habs.
    assert (dx = 0 /\ dy = 0 /\ (dz = 1 \/ dz = -1) \/
            dx = 0 /\ (dy = 1 \/ dy = -1) /\ dz = 0 \/
            (dx = 1 \/ dx = -1) /\ dy = 0 /\ dz = 0) as Hcases by lia.
    destruct Hcases as [(-> & -> & [-> | ->])|[(-> & [-> | ->] & ->)|
                        ([-> | ->] & -> & ->)]]; tauto.
Qed.

(** C7.  [FACES] lists the six unit steps along the axes, without
    repetition.  [exposed p] is true exactly when one of the six
    neighbours of [p] is absent from World.  And an immediate [add_block]
    on the free position [p], next to a shown block [q] whose every other
    neighbour is occupied, raises nothing and takes [q] out of
    ShownSet. *)
Theorem exposed_iff_free_neighbour `{Backend} :
  (forall d : pos, d ∈ FACES <->
     let '(dx, dy, dz) := d in Z.abs dx + Z.abs dy + Z.abs dz = 1) /\
  NoDup FACES /\ length FACES = 6%nat /\
  (forall (M : Model) (p : pos),
     exposed M p = true <->
     exists d, d ∈ FACES /\ world M !! offset p d = None) /\
  (forall (M : Model) (p q : pos) (m : texture),
     neighbour p q ->
     is_Some (world M !! q) ->
     is_Some (shown M !! q) ->
     exposed M q = true ->
     (forall d, d ∈ FACES -> world M !! offset q d = None ->
        offset q d = p) ->
     exists M',
       add_block p m true M = Some M' /\
       exposed M' q = false /\ shown M' !! q = None).
Proof.
  split; [exact faces_axis_aligned|].
  split; [compute_done|].
  split; [reflexivity|]. split; [exact exposed_true|].
  intros M p q m Hn Hq Hsq Hexp Honly.
  assert (world M !! p = None) as Hp.
  { apply exposed_true in Hexp as (d & Hd & Hfree).
    by rewrite <- (Honly d Hd Hfree). }
  rewrite add_block_free by done.
  destruct (place_immediate p m M) as (Ma & M' & -> & Hc & Hwa & _ & Hka).
  exists M'. split; [done|].
  destruct (check_neighbors_spec p Ma)
    as (M2 & Hc' & Hw & _ & _ & Hn1 & _).
  rewrite Hc in Hc'. simplify_eq.
  assert (q ≠ p) as Hqp by (by apply neighbour_ne).
  assert (exposed Ma q = false) as Hhidden.
  { destruct (exposed Ma q) eqn:He; [|done].
    apply exposed_true in He as (d & Hd & Hfree). rewrite Hwa in Hfree.
    destruct (decide (offset q d = p)) as [Heq|Hne].
    - by rewrite Heq, lookup_insert_eq in Hfree.
    - rewrite lookup_insert_ne in Hfree by done.
      by specialize (Honly d Hd Hfree). }
  split; [by rewrite (exposed_world Ma M2 q Hw)|].
  rewrite Hn1; [|done|].
  - unfold visible_after. by rewrite Hhidden.
  - rewrite Hwa. by rewrite lookup_insert_ne.
Qed.

Lemma exposed_iff_free_neighbour_witness :
  enclosed = Some enclosed_model /\
  exists M',
    add_block above BRICK true enclosed_model = Some M' /\
    exposed M' origin = false /\ shown M' !! origin = None.
Proof.
  split; [vm_compute; reflexivity|].
  apply (proj2 (proj2 (proj2 (proj2 exposed_iff_free_neighbour)))
           enclosed_model above origin BRICK).
  - exists (0, -1, 0). split; [set_solver|reflexivity].
  - vm_compute. eauto.
  - vm_compute. eauto.
  - vm_compute. reflexivity.
  - intros d Hd. unfold FACES in Hd.
    rewrite !elem_of_cons, elem_of_nil in Hd.
    destruct Hd as [->|[->|[->|[->|[->|[->|[]]]]]]];
      vm_compute; congruence.
Defined.

(** * The claims about streaming, ray casting and collisions *)

(** ** The sector disks *)

(** A loop that only ever adds to one side of its accumulator collects
    what each round contributes. *)
Lemma fold_left_collect {X Acc : Type} (f : Acc -> X -> Acc)
    (side : Acc -> gset pos) (R : X -> pos -> Prop) :
  (forall a x s, s ∈ side (f a x) <-> s ∈ side a \/ R x s) ->
  forall l a s,
    s ∈ side (fold_left f l a) <-> s ∈ side a \/ exists x, x ∈ l /\ R x s.
Proof.
  intros Hstep l. induction l as [|x l IH]; intros a s; simpl.
  - split; [by left|]. intros [?|(x & Hx & _)]; [done|].
    by apply elem_of_nil in Hx.
  - rewrite IH, Hstep. split.
    + intros [[?|?]|(y & Hy & ?)]; [by left|right..].
      * exists x. split; [by left|done].
      * exists y. split; [by right|done].
    + intros [?|(y & Hy & HR)]; [by left; left|].
      apply elem_of_cons in Hy as [->|Hy]; [by left; right|].
      right. eauto.
Qed.

Lemma sector_step_spec (before after : option pos) (dx dy dz : Z)
    (sets : gset pos * gset pos) (t : pos) :
  (t ∈ (sector_step 4 before after dx dy dz sets).1 <->
     t ∈ sets.1 \/ within before dx dy dz t) /\
  (t ∈ (sector_step 4 before after dx dy dz sets).2 <->
     t ∈ sets.2 \/ within after dx dy dz t).
Proof.
  destruct sets as [B A]. unfold sector_step, within. simpl.
  destruct (Z.gtb_spec (dx ^ 2 + dy ^ 2 + dz ^ 2) ((4 + 1) ^ 2)); simpl.
  - split; (split; [by left|intros [?|[? _]]; [done|lia]]).
  - split.
    + destruct before as [c|].
      * rewrite elem_of_union, elem_of_singleton. split.
        -- intros [?| ->]; [by left|right]. split; [lia|eauto].
        -- intros [?|[_ (c' & [= <-] & ->)]]; [by left|by right].
      * split; [by left|]. intros [?|[_ (c' & ? & _)]]; done.
    + destruct after as [c|].
      * rewrite elem_of_union, elem_of_singleton. split.
        -- intros [?| ->]; [by left|right]. split; [lia|eauto].
        -- intros [?|[_ (c' & [= <-] & ->)]]; [by left|by right].
      * split; [by left|]. intros [?|[_ (c' & ? & _)]]; done.
Qed.

Lemma sector_loops_side (side : gset pos * gset pos -> gset pos)
    (centre : option pos) (before after : option pos) :
  (forall dx dy dz sets t,
     t ∈ side (sector_step 4 before after dx dy dz sets) <->
     t ∈ side sets \/ within centre dx dy dz t) ->
  side (∅, ∅) = ∅ ->
  forall xs ys zs s,
    s ∈ side (sector_loops 4 xs ys zs before after) <->
    exists dx, dx ∈ xs /\ exists dy, dy ∈ ys /\ exists dz, dz ∈ zs /\
      within centre dx dy dz s.
Proof.
  intros Hstep Hempty xs ys zs s. unfold sector_loops.
  rewrite (fold_left_collect _ side
    (fun dx t => exists dy, dy ∈ ys /\ exists dz, dz ∈ zs /\
       within centre dx dy dz t)).
  - rewrite Hempty. split; [|by right].
    intros [Hs|?]; [|done]. by apply not_elem_of_empty in Hs.
  - intros sets dx t.
    apply (fold_left_collect _ side
      (fun dy t => exists dz, dz ∈ zs /\ within centre dx dy dz t)).
    intros sets' dy t'.
    apply (fold_left_collect _ side (within centre dx dy)).
    intros sets'' dz t''. apply Hstep.
Qed.

Lemma in_disk_within (centre : option pos) (s : pos) :
  in_disk centre s <->
  exists dx, dx ∈ seqZ (- 4) (4 + 1 - - 4) /\
    exists dy, dy ∈ [0] /\
      exists dz, dz ∈ seqZ (- 4) (4 + 1 - - 4) /\ within centre dx dy dz s.
Proof.
  unfold in_disk, within. split.
  - destruct centre as [c|]; [|done].
    intros (dx & dz & Hdx & Hdz & Hcut & ->).
    exists dx. split; [apply elem_of_seqZ; lia|]. exists 0.
    split; [by apply list_elem_of_singleton|]. exists dz.
    split; [apply elem_of_seqZ; lia|]. split; [lia|]. eauto.
  - intros (dx & Hdx & dy & Hdy & dz & Hdz & Hcut & c & -> & ->).
    apply list_elem_of_singleton in Hdy as ->.
    apply elem_of_seqZ in Hdx. apply elem_of_seqZ in Hdz.
    exists dx, dz. repeat split; try lia.
Qed.

Lemma sector_sets_spec (before after : option pos) (s : pos) :
  (s ∈ (sector_sets before after).1 <-> in_disk before s) /\
  (s ∈ (sector_sets before after).2 <-> in_disk after s).
Proof.
  unfold sector_sets. cbv zeta. rewrite !in_disk_within. split.
  - apply (sector_loops_side fst before); [|done].
    intros dx dy dz sets t. apply sector_step_spec.
  - apply (sector_loops_side snd after); [|done].
    intros dx dy dz sets t. apply sector_step_spec.
Qed.



(** The two moves of the streaming scenario: the first entry into sector
    (0,0,0), and the step from it to sector (1,0,0). *)
Example first_entry :
  size (sectors_to_show None (Some (0, 0, 0))) = 77%nat /\
  size (sectors_to_hide None (Some (0, 0, 0))) = 0%nat.
Proof. split; vm_compute; reflexivity. Qed.

Example step_east :
  sectors_to_show (Some (0, 0, 0)) (Some (1, 0, 0)) =
    list_to_set
      [ (5, 0, 0); (5, 0, 1); (5, 0, -1); (5, 0, 2); (5, 0, -2);
        (5, 0, 3); (5, 0, -3); (4, 0, 4); (4, 0, -4) ] /\
  sectors_to_hide (Some (0, 0, 0)) (Some (1, 0, 0)) =
    list_to_set
      [ (-4, 0, 0); (-4, 0, 1); (-4, 0, -1); (-4, 0, 2); (-4, 0, -2);
        (-4, 0, 3); (-4, 0, -3); (-3, 0, 4); (-3, 0, -4) ].
Proof. split; vm_compute; reflexivity. Qed.

(** ** The march of the ray caster *)

Lemma hits_from_tail (w : gmap pos texture) (previous : option pos)
    (key : pos) (keys : list pos) (i : nat) :
  hits_from w previous (key :: keys) (S i) <->
  hits_from w (Some key) keys i.
Proof.
  unfold hits_from. simpl.
  assert (previous_from (Some key) keys i = (key :: keys) !! i) as ->
    by (by destruct i).
  done.
Qed.

#[global] Arguments normalize : simpl never.
#[global] Arguments advance3 : simpl never.

Lemma sampled_keys_step (position vector : point) (n : nat) :
  sampled_keys position vector (S n) =
    key ← normalize position;
    position' ← advance3 position vector;
    keys ← sampled_keys position' vector n;
    Some (key :: keys).
Proof. reflexivity. Qed.

Lemma hit_test_loop_step (w : gmap pos texture) (n : nat)
    (position vector : point) (previous : option pos) :
  hit_test_loop w (S n) position vector previous =
    key ← normalize position;
    if bool_decide (Some key ≠ previous) && bool_decide (is_Some (w !! key))
    then Some (Some key, previous)
    else position' ← advance3 position vector;
         hit_test_loop w n position' vector (Some key).
Proof.
  cbn [hit_test_loop]. destruct (normalize position) as [key|]; [|done].
  cbn [mbind option_bind].
  destruct (bool_decide (Some key ≠ previous) &&
            bool_decide (is_Some (w !! key))); [done|].
  destruct position as [[x y] z], vector as [[dx dy] dz].
  unfold advance3.
  destruct (advance x dx) as [x'|]; [|done]. cbn [mbind option_bind].
  destruct (advance y dy) as [y'|]; [|done]. cbn [mbind option_bind].
  destruct (advance z dz) as [z'|]; done.
Qed.

Lemma sampled_keys_length (position vector : point) (steps : nat)
    (keys : list pos) :
  sampled_keys position vector steps = Some keys -> length keys = steps.
Proof.
  revert position keys. induction steps as [|n IH]; intros position keys.
  - by intros [= <-].
  - rewrite sampled_keys_step.
    destruct (normalize position) as [key|]; simpl; [|done].
    destruct (advance3 position vector) as [position'|]; simpl; [|done].
    destruct (sampled_keys position' vector n) as [keys'|] eqn:Hk;
      simpl; [|done].
    intros [= <-]. simpl. f_equal. by eapply IH.
Qed.

Lemma hit_test_loop_spec (w : gmap pos texture) (vector : point)
    (steps : nat) :
  forall (position : point) (previous : option pos) (keys : list pos),
    sampled_keys position vector steps = Some keys ->
    (forall i,
       hits_from w previous keys i ->
       (forall j, (j < i)%nat -> ~ hits_from w previous keys j) ->
       hit_test_loop w steps position vector previous =
         Some (keys !! i, previous_from previous keys i)) /\
    ((forall i, ~ hits_from w previous keys i) ->
     hit_test_loop w steps position vector previous = Some (None, None)).
Proof.
  induction steps as [|n IH]; intros position previous keys.
  - intros [= <-]. split; [|done].
    intros i (key & Hkey & _). by rewrite lookup_nil in Hkey.
  - rewrite sampled_keys_step, hit_test_loop_step.
    destruct (normalize position) as [key|]; simpl; [|done].
    destruct (advance3 position vector) as [position'|]; simpl; [|done].
    destruct (sampled_keys position' vector n) as [keys'|] eqn:Hk;
      simpl; [|done].
    intros [= <-]. destruct (IH position' (Some key) keys' Hk) as [IH1 IH2].
    destruct (bool_decide (Some key ≠ previous) &&
              bool_decide (is_Some (w !! key))) eqn:Hcond.
    + apply andb_true_iff in Hcond as [Hne%bool_decide_eq_true
                                          Hin%bool_decide_eq_true].
      assert (hits_from w previous (key :: keys') 0) as Hhit
        by (exists key; done).
      split.
      * intros [|i] _ Hfirst; [done|]. destruct (Hfirst 0%nat); [lia|done].
      * intros Hnone. by destruct (Hnone 0%nat).
    + assert (~ hits_from w previous (key :: keys') 0) as Hmiss.
      { intros (key' & [= <-] & Hin & Hne). simpl in Hne.
        apply andb_false_iff in Hcond as [Hc%bool_decide_eq_false|
                                          Hc%bool_decide_eq_false]; done. }
      split.
      * intros [|i] Hhit Hfirst; [done|].
        assert (previous_from previous (key :: keys') (S i) =
                previous_from (Some key) keys' i) as ->
          by (by destruct i).
        change ((key :: keys') !! S i) with (keys' !! i).
        apply IH1; [by apply (hits_from_tail w previous)|].
        intros j Hj Hhitj. apply (Hfirst (S j)); [lia|].
        by apply hits_from_tail.
      * intros Hnone. apply IH2. intros i Hhit.
        apply (Hnone (S i)). by apply hits_from_tail.
Qed.

(** C6.  [hit_test] samples the origin and then moves by [vector / 8] at
    each step, for [max_distance * 8] samples.  When these samples are
    numbers that normalize (no NaN, no infinity), it returns the first
    sampled position that holds a block and differs from the position of
    the sample before it, paired with that previous position (none for
    the first sample), and [(None, None)] when no sample qualifies.  With
    World = {(0,0,0): STONE} the ray from (0,0,5) along (0,0,-1) returns
    ((0,0,0), (0,0,1)). *)
Theorem hit_test_march :
  (forall (M : Model) (position vector : point) (max_distance : Z)
          (keys : list pos),
     sampled_keys position vector (Z.to_nat (max_distance * 8)) = Some keys ->
     length keys = Z.to_nat (max_distance * 8) /\
     (forall i,
        hits (world M) keys i ->
        (forall j, (j < i)%nat -> ~ hits (world M) keys j) ->
        hit_test M position vector max_distance =
          Some (keys !! i, previous_key keys i)) /\
     ((forall i, ~ hits (world M) keys i) ->
      hit_test M position vector max_distance = Some (None, None))) /\
  (forall (M : Model) (t : texture),
     world M = {[ origin := t ]} ->
     hit_test M ray_origin ray_direction 8 =
       Some (Some origin, Some (0, 0, 1))).
Proof.
  split.
  - intros M position vector max_distance keys Hkeys.
    split; [by eapply sampled_keys_length|].
    apply (hit_test_loop_spec (world M) vector _ position None keys Hkeys).
  - intros [w s r sec q] t Hw. simpl in Hw. subst w.
    vm_compute. reflexivity.
Qed.

Lemma hit_test_march_witness :
  exists keys,
    sampled_keys ray_origin ray_direction (Z.to_nat (8 * 8)) = Some keys /\
    hits (world stone_model) keys 36 /\
    hit_test stone_model ray_origin ray_direction 8 =
      Some (keys !! 36%nat, previous_key keys 36).
Proof.
  eexists. split; [vm_compute; reflexivity|].
  match goal with
  | |- hits ?w ?keys _ /\ _ =>
      assert (hits w keys 36) as Hhit;
      [ exists origin; split; [reflexivity|];
        split; [vm_compute; eauto|vm_compute; congruence]
      | split; [exact Hhit|];
        assert (sampled_keys ray_origin ray_direction (Z.to_nat (8 * 8)) =
                Some keys) as Hkeys by (vm_compute; reflexivity);
        destruct (proj1 hit_test_march stone_model ray_origin ray_direction
                    8 keys Hkeys) as (_ & Hfirst & _);
        apply Hfirst; [exact Hhit|] ]
  end.
  intros j Hj (key & Hkey & [t Ht] & _).
  unfold stone_model in Ht. cbn [world] in Ht.
  apply lookup_singleton_Some in Ht as [<- _].
  do 36 (destruct j as [|j]; [vm_compute in Hkey; congruence|]). lia.
Defined.

(** ** Rounding at half-integers *)

Lemma round_half_even_tie (m : positive) (e k : Z) :
  e < 0 -> Z.pos m = (2 * k + 1) * 2 ^ (- e - 1) ->
  Py.round_half_even m e = nearest_even k.
Proof.
  intros He Hm. unfold Py.round_half_even, nearest_even.
  destruct (Z.leb_spec 0 e) as [?|_]; [lia|].
  set (h := 2 ^ (- e - 1)) in *.
  assert (0 < h) as Hh by (apply Z.pow_pos_nonneg; lia).
  assert (2 ^ (- e) = 2 * h) as ->.
  { unfold h. rewrite <- Z.pow_succ_r by lia. f_equal. lia. }
  assert (Z.pos m / (2 * h) = k) as ->.
  { symmetry. apply (Z.div_unique_pos _ _ k h); lia. }
  assert (Z.pos m mod (2 * h) = h) as ->.
  { symmetry. apply (Z.mod_unique_pos _ _ k h); lia. }
  by rewrite Z.compare_refl.
Qed.

Lemma nearest_even_opp (k : Z) : - nearest_even (- k - 1) = nearest_even k.
Proof.
  unfold nearest_even.
  replace (- k - 1) with (- Z.succ k) by lia.
  rewrite Z.even_opp, Z.even_succ, <- Z.negb_even.
  destruct (Z.even k); simpl; lia.
Qed.

Lemma nearest_even_even (k : Z) : Z.even (nearest_even k) = true.
Proof.
  unfold nearest_even. destruct (Z.even k) eqn:Hk; [done|].
  replace (k + 1) with (Z.succ k) by lia.
  by rewrite Z.even_succ, <- Z.negb_even, Hk.
Qed.

(** C10.  [normalize] rounds each coordinate with Python 3's [round]: a
    [float] that is exactly [k + 1/2] goes to the even one of [k] and
    [k + 1], whatever the sign and whichever of the three coordinates it
    is. *)
Theorem normalize_ties_to_even (f : float) (k : Z) :
  half_integer f k ->
  Py.round (Py.Float f) = Some (nearest_even k) /\
  Z.even (nearest_even k) = true /\
  (nearest_even k = k \/ nearest_even k = k + 1) /\
  (forall a b ra rb,
     Py.round a = Some ra -> Py.round b = Some rb ->
     normalize (Py.Float f, a, b) = Some (nearest_even k, ra, rb) /\
     normalize (a, Py.Float f, b) = Some (ra, nearest_even k, rb) /\
     normalize (a, b, Py.Float f) = Some (ra, rb, nearest_even k)).
Proof.
  intros (s & m & e & Hf & He & Hm).
  assert (Py.round (Py.Float f) = Some (nearest_even k)) as Hround.
  { unfold Py.round. rewrite Hf. f_equal. destruct s; simpl in Hm.
    - rewrite <- nearest_even_opp. f_equal.
      apply round_half_even_tie; [done|]. lia.
    - by apply round_half_even_tie. }
  split; [done|]. split; [apply nearest_even_even|]. split.
  { unfold nearest_even. destruct (Z.even k); [by left|by right]. }
  intros a b ra rb Ha Hb. unfold normalize. by rewrite Hround, Ha, Hb.
Qed.

Lemma normalize_ties_to_even_witness :
  half_integer 2.5 2 /\
  Py.round (Py.Float 2.5) = Some 2 /\
  normalize (Py.Float 0.5, Py.Float 1.5, Py.Float 2.5) = Some (0, 2, 2).
Proof.
  assert (half_integer 2.5 2) as Hhalf.
  { eexists _, _, _. split; [vm_compute; reflexivity|].
    split; [lia|vm_compute; reflexivity]. }
  split; [exact Hhalf|].
  destruct (normalize_ties_to_even 2.5 2 Hhalf) as (Hround & _ & _ & Hpos).
  split; [exact Hround|].
  apply (Hpos (Py.Float 0.5) (Py.Float 1.5) 0 2); vm_compute; reflexivity.
Defined.

(** The tie-breaking shows in what the callers of [normalize] return:
    the sector of a position on a sector boundary, the block a resting ray
    reports, and the cell an entity is taken to stand in (see the
    collision scenario below). *)
Example sectorize_tie :
  sectorize (Py.Float (-0.5), Py.Int 0, Py.Float 0.5) = Some (0, 0, 0).
Proof. vm_compute. reflexivity. Qed.

Example hit_test_tie :
  hit_test stone_model (Py.Int 0, Py.Float 0.5, Py.Int 0)
           (Py.Int 0, Py.Int 0, Py.Int 0) 8 = Some (Some origin, None).
Proof. vm_compute. reflexivity. Qed.

(** ** The collision scenario *)

(** C1 as stated fails.  [collide] takes its reference block from the
    position it is given, the desired one: [normalize (0, 0.5, 0)] is
    [(0, 0, 0)], not the [(0, 1, 0)] of the current position.  The block
    at the origin is then found through the upward face: the corrected
    height is [0.25], below [0.75], and the contact recorded is [bottom];
    [top] stays false. *)
Lemma collide_records_bottom :
  normalize (Py.Int 0, Py.Float 1, Py.Int 0) = Some above /\
  normalize desired = Some origin /\
  exists p W',
    collide desired 2 falling = Some (p, W') /\
    get3 p 1 = Py.Float 0.25 /\
    Py.lt (get3 p 1) (Py.Float 0.75) = true /\
    top (collision_types W') = false /\
    bottom (collision_types W') = true.
Proof.
  split; [vm_compute; reflexivity|]. split; [vm_compute; reflexivity|].
  eexists _, _. split; [vm_compute; reflexivity|].
  repeat split; vm_compute; reflexivity.
Qed.

(** C1.  The outcome of the scenario turns on how the tie at 0.5 is
    rounded.  At the height 0.5 of the claim [round] goes down to the even
    0 and the contact recorded is [bottom], at 0.25.  Just above the tie,
    and at the same tie one block up, where [round] goes up to the even 2,
    the resolver does what the claim says: the entity is put 0.75 above
    the block, [top] is set and the vertical velocity reset to 0. *)
Lemma collide_tie_by_parity :
  (exists p W',
     collide desired 2 falling = Some (p, W') /\
     get3 p 1 = Py.Float 0.25 /\
     top (collision_types W') = false /\
     bottom (collision_types W') = true /\
     dy W' = Py.Int 0) /\
  (exists W',
     collide (Py.Int 0, Py.Float 0.625, Py.Int 0) 2 falling =
       Some ((Py.Int 0, Py.Float 0.75, Py.Int 0), W') /\
     top (collision_types W') = true /\
     bottom (collision_types W') = false /\
     dy W' = Py.Int 0) /\
  (exists W',
     collide (Py.Int 0, Py.Float 0.75, Py.Int 0) 2 falling =
       Some ((Py.Int 0, Py.Float 0.75, Py.Int 0), W') /\
     top (collision_types W') = true /\
     bottom (collision_types W') = false /\
     dy W' = Py.Int 0) /\
  (world (model raised) = {[ above := STONE ]} /\
   exists W',
     collide (Py.Int 0, Py.Float 1.5, Py.Int 0) 2 raised =
       Some ((Py.Int 0, Py.Float 1.75, Py.Int 0), W') /\
     top (collision_types W') = true /\
     bottom (collision_types W') = false /\
     dy W' = Py.Int 0).
Proof.
  split; [|split; [|split; [|split; [reflexivity|]]]].
  - eexists _, _. split; [vm_compute; reflexivity|].
    repeat split; vm_compute; reflexivity.
  - eexists. split; [vm_compute; reflexivity|]. repeat split; reflexivity.
  - eexists. split; [vm_compute; reflexivity|]. repeat split; reflexivity.
  - eexists. split; [vm_compute; reflexivity|]. repeat split; reflexivity.
Qed.

(** * Further properties of the block store *)

#[global] Arguments place : simpl never.

Lemma list_remove_subset (p q : pos) (l l' : list pos) :
  list_remove p l = Some l' -> q ∈ l' -> q ∈ l.
Proof.
  revert l'. induction l as [|y l IH]; intros l'; simpl; [done|].
  case_decide.
  - intros [= <-] Hq. by right.
  - destruct (list_remove p l) as [l''|]; simpl; [|done].
    intros [= <-] Hq. apply elem_of_cons in Hq as [->|Hq]; [by left|].
    right. by apply (IH l'').
Qed.

Lemma occurrences_NoDup (l : list pos) :
  (forall q, (occurrences q l <= 1)%nat) -> NoDup l.
Proof.
  induction l as [|y l IH]; intros Hocc; [constructor|].
  constructor.
  - apply occurrences_zero. specialize (Hocc y).
    rewrite occurrences_cons, decide_True in Hocc by done. lia.
  - apply IH. intros q. specialize (Hocc q).
    rewrite occurrences_cons in Hocc. lia.
Qed.

Section StoreExtras.
Context `{Backend}.

Lemma buckets_own_store (M M' : Model) :
  sectors M' = sectors M -> buckets_own M -> buckets_own M'.
Proof. intros Hs Hown s p. unfold bucket. rewrite Hs. apply Hown. Qed.

Lemma buckets_own_remove (p : pos) (immediate : bool) (M M' : Model) :
  buckets_own M -> remove_block p immediate M = Some M' -> buckets_own M'.
Proof.
  intros Hown Hrun. destruct (world M !! p) as [t|] eqn:Hp.
  2:{ rewrite remove_block_absent in Hrun by done. by simplify_eq. }
  destruct (remove_block_sectors p immediate M M')
    as (l & l' & Hl & Hr & Hs); [eauto|done|].
  intros s q. unfold bucket. rewrite Hs.
  destruct (decide (sector_of p = s)) as [<-|Hne].
  - rewrite lookup_insert_eq. simpl. intros Hq.
    apply (Hown (sector_of p) q). unfold bucket. rewrite Hl. simpl.
    by eapply list_remove_subset.
  - rewrite lookup_insert_ne by done. apply Hown.
Qed.

Lemma buckets_own_place (p : pos) (t : texture) (immediate : bool)
    (M M' : Model) :
  buckets_own M -> place p t immediate M = Some M' -> buckets_own M'.
Proof.
  intros Hown Hrun. apply place_world in Hrun as [_ Hs].
  intros s q. unfold bucket at 1. rewrite Hs.
  destruct (decide (sector_of p = s)) as [<-|Hne].
  - rewrite lookup_insert_eq. simpl. rewrite elem_of_app.
    intros [Hq|Hq]; [by apply Hown|].
    by apply list_elem_of_singleton in Hq as ->.
  - rewrite lookup_insert_ne by done. apply Hown.
Qed.

Lemma buckets_own_step (o : op) (M M' : Model) :
  buckets_own M -> run_op o M = Some M' -> buckets_own M'.
Proof.
  intros Hown. destruct o; simpl; intros Hrun.
  - rewrite add_block_unfold in Hrun.
    destruct (remove_block position immediate M) as [M0|] eqn:Hr;
      simpl in Hrun; [|done].
    eapply buckets_own_place; [|exact Hrun].
    by eapply buckets_own_remove.
  - by eapply buckets_own_remove.
  - apply show_block_Some in Hrun as (t & _ & _ & Hs & _).
    by apply (buckets_own_store M).
  - simplify_eq. destruct (hide_block_fields position immediate M)
      as (_ & Hs & _). by apply (buckets_own_store M).
  - apply show_sector_store in Hrun as [_ ?]. by apply (buckets_own_store M).
  - apply hide_sector_store in Hrun as [_ ?]. by apply (buckets_own_store M).
  - apply change_sectors_store in Hrun as [_ ?].
    by apply (buckets_own_store M).
  - apply process_queue_fields in Hrun as (_ & ? & _).
    by apply (buckets_own_store M).
  - apply drain_fields in Hrun as (_ & ? & _). by apply (buckets_own_store M).
Qed.

Lemma reachable_buckets_own (M : Model) : reachable M -> buckets_own M.
Proof.
  induction 1 as [|o M M' _ IH Hrun].
  - intros s p. unfold bucket. simpl. rewrite lookup_empty. simpl.
    by intros ?%elem_of_nil.
  - by eapply buckets_own_step.
Qed.

Lemma index_exact_of (M : Model) :
  index_sync M -> buckets_own M ->
  index_exact M /\ forall s, NoDup (bucket M s).
Proof.
  intros Hsync Hown. split.
  - intros s p. split.
    + intros Hp. pose proof (Hown s p Hp) as <-. split; [|done].
      specialize (Hsync p). destruct (world M !! p); [eauto|].
      by apply occurrences_zero in Hsync.
    + intros [[t Hp] <-]. specialize (Hsync p). rewrite Hp in Hsync.
      destruct (decide (p ∈ bucket M (sector_of p))) as [|Hn]; [done|].
      apply occurrences_zero in Hn. lia.
  - intros s. apply occurrences_NoDup. intros q.
    destruct (decide (q ∈ bucket M s)) as [Hq|Hq].
    + pose proof (Hown s q Hq) as <-. specialize (Hsync q).
      destruct (world M !! q); lia.
    + apply occurrences_zero in Hq. lia.
Qed.

End StoreExtras.

(** X1.  In every state the operations can reach, the sector index holds
    exactly the positions of World: a position is in a bucket when, and
    only when, it holds a block and the bucket is that of its own sector,
    and no bucket lists a position twice. *)
Theorem reachable_index_exact `{Backend} (M : Model) :
  reachable M -> index_exact M /\ forall s, NoDup (bucket M s).
Proof.
  intros Hreach. apply index_exact_of.
  - by apply reachable_index_sync.
  - by apply reachable_buckets_own.
Qed.

Lemma reachable_index_exact_witness :
  reachable enclosed_model /\
  index_exact enclosed_model /\ forall s, NoDup (bucket enclosed_model s).
Proof.
  assert (reachable enclosed_model) as Hreach.
  { apply (run_ops_reachable
             [ op_add_block origin STONE true;
               op_add_block (0, -1, 0) STONE true;
               op_add_block (-1, 0, 0) STONE true;
               op_add_block (1, 0, 0) STONE true;
               op_add_block (0, 0, 1) STONE true;
               op_add_block (0, 0, -1) STONE true ] empty_model);
      [apply reachable_empty|vm_compute; reflexivity]. }
  split; [exact Hreach|]. exact (reachable_index_exact enclosed_model Hreach).
Defined.

(** X2.  [add_block] and [remove_block] change World at the one position
    they are given: after [add_block p t], in either mode, World is the
    old World with [p] mapped to [t]; after [remove_block p] it is the old
    World without [p].  Neither touches the bucket of another sector. *)
Theorem block_store_frame `{Backend} (p : pos) (t : texture)
    (immediate : bool) (M M' : Model) :
  (add_block p t immediate M = Some M' ->
   world M' = <[p := t]> (world M) /\
   forall s, s ≠ sector_of p -> bucket M' s = bucket M s) /\
  (remove_block p immediate M = Some M' ->
   world M' = delete p (world M) /\
   forall s, s ≠ sector_of p -> bucket M' s = bucket M s).
Proof.
  assert (forall N N', remove_block p immediate N = Some N' ->
            world N' = delete p (world N) /\
            forall s, s ≠ sector_of p -> bucket N' s = bucket N s) as Hrem.
  { intros N N' Hrun. split; [by apply remove_block_world in Hrun as [? _]|].
    intros s Hs. destruct (world N !! p) as [t'|] eqn:Hp.
    2:{ rewrite remove_block_absent in Hrun by done. by simplify_eq. }
    destruct (remove_block_sectors p immediate N N')
      as (l & l' & _ & _ & Hsec); [eauto|done|].
    unfold bucket. rewrite Hsec. by rewrite lookup_insert_ne. }
  split; [|apply Hrem].
  rewrite add_block_unfold.
  destruct (remove_block p immediate M) as [M0|] eqn:Hr; simpl; [|done].
  intros Hplace. destruct (Hrem M M0 Hr) as [Hw0 Hb0].
  apply place_world in Hplace as [Hw Hs]. split.
  - rewrite Hw, Hw0. apply insert_delete_eq.
  - intros s Hne. rewrite <- (Hb0 s Hne). unfold bucket at 1. rewrite Hs.
    by rewrite lookup_insert_ne.
Qed.

Lemma block_store_frame_witness :
  exists M',
    add_block origin BRICK false stone_model = Some M' /\
    world M' = <[origin := BRICK]> (world stone_model) /\
    forall s, s ≠ sector_of origin -> bucket M' s = bucket stone_model s.
Proof.
  eexists. split; [vm_compute; reflexivity|].
  apply (proj1 (block_store_frame origin BRICK false stone_model _)).
  vm_compute. reflexivity.
Defined.

(** * The work queue *)

Section QueueExtras.
Context `{Backend}.

Lemma run_call_rendered (c : call) (M : Model) :
  _shown (run_call c M) = apply_call (_shown M) c.
Proof.
  destruct c as [p t|p]; simpl.
  - unfold _show_block. by destruct (add_indexed p t).
  - by destruct (_hide_block_fields p M) as (_ & _ & _ & _ & ->).
Qed.

Lemma process_queue_spec (ticks : nat) (M : Model) :
  exists M',
    process_queue ticks M = Some M' /\
    world M' = world M /\ shown M' = shown M /\ sectors M' = sectors M /\
    queue M' = drop ticks (queue M) /\
    _shown M' = apply_calls (take ticks (queue M)) (_shown M).
Proof.
  revert M. induction ticks as [|n IH]; intros M.
  - exists M. by rewrite drop_0.
  - simpl. destruct (queue M) as [|c q] eqn:Hq.
    + exists M. by rewrite Hq.
    + unfold _dequeue. rewrite Hq. simpl.
      set (M1 := run_call c (set_queue (fun _ => q) M)).
      destruct (run_call_fields c (set_queue (fun _ => q) M))
        as (Hw1 & Hsec1 & Hs1 & Hq1).
      pose proof (run_call_rendered c (set_queue (fun _ => q) M)) as Hr1.
      destruct (IH M1) as (M' & -> & Hw & Hs & Hsec & Hq' & Hr).
      exists M'. fold M1 in Hw1, Hsec1, Hs1, Hq1, Hr1.
      rewrite Hq1 in Hq', Hr. rewrite Hr1 in Hr. simpl in *.
      repeat split; congruence.
Qed.

Lemma drain_process_queue (n : nat) (M : Model) :
  drain n M = process_queue n M.
Proof.
  revert M. induction n as [|n IH]; intros M; simpl; [done|].
  destruct (queue M); [done|].
  destruct (_dequeue M); simpl; [apply IH|done].
Qed.

Lemma process_queue_empty (ticks : nat) (M : Model) :
  queue M = [] -> process_queue ticks M = Some M.
Proof. intros Hq. destruct ticks; simpl; [done|]. by rewrite Hq. Qed.

Lemma process_queue_add (a b : nat) (M : Model) :
  process_queue (a + b) M = M' ← process_queue a M; process_queue b M'.
Proof.
  revert M. induction a as [|a IH]; intros M; simpl; [done|].
  destruct (queue M) as [|c q] eqn:Hq.
  - simpl. by rewrite process_queue_empty.
  - destruct (_dequeue M) as [M1|]; simpl; [apply IH|done].
Qed.

Lemma process_entire_queue_spec (M : Model) :
  exists M',
    process_entire_queue M = Some M' /\
    queue M' = [] /\
    _shown M' = apply_calls (queue M) (_shown M) /\
    world M' = world M /\ shown M' = shown M /\ sectors M' = sectors M.
Proof.
  unfold process_entire_queue. rewrite drain_process_queue.
  destruct (process_queue_spec (length (queue M)) M)
    as (M' & Hrun & Hw & Hs & Hsec & Hq & Hr).
  exists M'. rewrite drop_all in Hq. rewrite firstn_all in Hr. done.
Qed.

Lemma add_block_total (p : pos) (t : texture) (immediate : bool)
    (M : Model) :
  index_sync M -> is_Some (add_block p t immediate M).
Proof.
  intros Hsync. rewrite add_block_unfold.
  destruct (remove_block_total p immediate M Hsync) as [M0 ->]. simpl.
  apply place_total.
Qed.

End QueueExtras.

(** X3.  The queue is first in, first out, and a budget is only a cut:
    [process_queue] with room for [ticks] entries never raises, runs the
    first [ticks] queued calls in the order they were queued and leaves
    the rest queued in the same order; World, ShownSet and the sector
    index are not touched.  Draining with budget [a] and then with budget
    [b] is draining once with budget [a + b]. *)
Theorem process_queue_fifo `{Backend} (ticks : nat) (M : Model) :
  (exists M',
     process_queue ticks M = Some M' /\
     queue M' = drop ticks (queue M) /\
     _shown M' = apply_calls (take ticks (queue M)) (_shown M) /\
     world M' = world M /\ shown M' = shown M /\ sectors M' = sectors M) /\
  (forall a b, (a + b = ticks)%nat ->
     process_queue ticks M = M' ← process_queue a M; process_queue b M').
Proof.
  split.
  - destruct (process_queue_spec ticks M)
      as (M' & Hrun & Hw & Hs & Hsec & Hq & Hr).
    exists M'. done.
  - intros a b <-. apply process_queue_add.
Qed.

(** X4.  [process_entire_queue] never raises and leaves the queue empty:
    every queued call has been run, in order, and nothing else has
    changed.  A budgeted drain with room for the whole queue does the
    same, and draining again changes nothing. *)
Theorem process_entire_queue_drains `{Backend} (M : Model) :
  exists M',
    process_entire_queue M = Some M' /\
    queue M' = [] /\
    _shown M' = apply_calls (queue M) (_shown M) /\
    world M' = world M /\ shown M' = shown M /\ sectors M' = sectors M /\
    (forall ticks, (length (queue M) <= ticks)%nat ->
       process_queue ticks M = Some M') /\
    process_entire_queue M' = Some M'.
Proof.
  destruct (process_entire_queue_spec M)
    as (M' & Hrun & Hq & Hr & Hw & Hs & Hsec).
  exists M'. repeat split; try done.
  - intros ticks Hticks.
    replace ticks with (length (queue M) + (ticks - length (queue M)))%nat
      by lia.
    rewrite process_queue_add.
    unfold process_entire_queue in Hrun.
    rewrite drain_process_queue in Hrun. rewrite Hrun. simpl.
    by apply process_queue_empty.
  - unfold process_entire_queue. rewrite Hq. reflexivity.
Qed.

Section DeferredExtras.
Context `{Backend}.

Lemma apply_calls_snoc (cs : list call) (c : call)
    (r : gmap pos VertexList) :
  apply_calls (cs ++ [c]) r = apply_call (apply_calls cs r) c.
Proof. unfold apply_calls. by rewrite fold_left_app. Qed.

Lemma remove_block_deferred_fields (p : pos) (M M' : Model) :
  remove_block p false M = Some M' ->
  shown M' = shown M /\ _shown M' = _shown M /\ queue M' = queue M.
Proof.
  intros Hrun. split; [by eapply remove_block_deferred_shown|].
  split; [|by apply remove_block_world in Hrun as [_ ?]].
  destruct (world M !! p) as [t|] eqn:Hp.
  2:{ rewrite remove_block_absent in Hrun by done. by simplify_eq. }
  rewrite remove_block_present in Hrun by eauto.
  destruct (sectors M !! sector_of p) as [l|]; simpl in Hrun; [|done].
  destruct (list_remove p l) as [l'|]; simpl in Hrun; [|done].
  by simplify_eq.
Qed.

Lemma add_block_deferred_fields (p : pos) (t : texture) (M M' : Model) :
  add_block p t false M = Some M' ->
  shown M' = shown M /\ _shown M' = _shown M /\
  queue M' = queue M ++ [call_show_block p t].
Proof.
  rewrite add_block_unfold.
  destruct (remove_block p false M) as [M0|] eqn:Hr; simpl; [|done].
  apply remove_block_deferred_fields in Hr as (Hs & Hr & Hq).
  unfold place. intros [= <-]. unfold placed, _enqueue. simpl.
  by rewrite Hs, Hr, Hq.
Qed.

End DeferredExtras.

(** X5.  A block added in deferred mode never enters ShownSet: the call
    only queues the mesh upload.  Once the queue is drained the position
    has its mesh (when the backend creates it) while ShownSet is what it
    was before the add. *)
Theorem deferred_add_renders `{Backend} (p : pos) (t : texture)
    (M : Model) :
  index_sync M ->
  exists M1 M2,
    add_block p t false M = Some M1 /\
    shown M1 = shown M /\ _shown M1 = _shown M /\
    queue M1 = queue M ++ [call_show_block p t] /\
    process_entire_queue M1 = Some M2 /\
    shown M2 = shown M /\
    _shown M2 !! p =
      (if add_indexed p t then Some (vertex_list p t)
       else apply_calls (queue M) (_shown M) !! p).
Proof.
  intros Hsync.
  destruct (add_block_total p t false M Hsync) as [M1 Hadd].
  destruct (add_block_deferred_fields p t M M1 Hadd) as (Hs & Hr & Hq).
  destruct (process_entire_queue_spec M1)
    as (M2 & Hdrain & _ & Hr2 & _ & Hs2 & _).
  exists M1, M2. repeat split; try done; [congruence|].
  rewrite Hr2, Hq, Hr, apply_calls_snoc. simpl.
  destruct (add_indexed p t); [|done]. by rewrite lookup_insert_eq.
Qed.

Lemma deferred_add_renders_witness :
  exists M1 M2,
    add_block above BRICK false stone_model = Some M1 /\
    shown M1 = shown stone_model /\ _shown M1 = _shown stone_model /\
    queue M1 = queue stone_model ++ [call_show_block above BRICK] /\
    process_entire_queue M1 = Some M2 /\
    shown M2 = shown stone_model /\
    _shown M2 !! above =
      (if add_indexed above BRICK then Some (vertex_list above BRICK)
       else apply_calls (queue stone_model) (_shown stone_model) !! above).
Proof.
  apply (deferred_add_renders above BRICK stone_model).
  apply stone_model_sync.
Defined.

Section RenderingExtras.
Context `{Backend}.

(** What a queued call does to the handles and to the batch depends on
    the handles and the batch only. *)
Lemma run_call_rendering (c : call) (N N' : Model) :
  _shown N = _shown N' -> batch N = batch N' ->
  _shown (run_call c N) = _shown (run_call c N') /\
  batch (run_call c N) = batch (run_call c N').
Proof.
  intros Hr Hb. destruct c as [p t|p]; simpl.
  - unfold _show_block. destruct (add_indexed p t); simpl; [|done].
    by rewrite Hr, Hb.
  - unfold _hide_block. rewrite Hr.
    destruct (_shown N' !! p); simpl; [|done]. by rewrite Hr, Hb.
Qed.

Lemma run_calls_rendering (cs : list call) (N N' : Model) :
  _shown N = _shown N' -> batch N = batch N' ->
  _shown (run_calls cs N) = _shown (run_calls cs N') /\
  batch (run_calls cs N) = batch (run_calls cs N').
Proof.
  revert N N'. induction cs as [|c cs IH]; intros N N' Hr Hb; [done|].
  simpl. apply IH; by apply run_call_rendering.
Qed.

Lemma run_calls_snoc (cs : list call) (c : call) (N : Model) :
  run_calls (cs ++ [c]) N = run_call c (run_calls cs N).
Proof. unfold run_calls. by rewrite fold_left_app. Qed.

Lemma process_queue_rendering (ticks : nat) (M : Model) :
  exists M',
    process_queue ticks M = Some M' /\
    _shown M' = _shown (run_calls (take ticks (queue M)) M) /\
    batch M' = batch (run_calls (take ticks (queue M)) M).
Proof.
  revert M. induction ticks as [|n IH]; intros M.
  - exists M. done.
  - simpl. destruct (queue M) as [|c q] eqn:Hq.
    + exists M. done.
    + unfold _dequeue. rewrite Hq. simpl.
      set (M1 := run_call c (set_queue (fun _ => q) M)).
      destruct (IH M1) as (M' & -> & Hr & Hb). exists M'.
      split; [done|].
      destruct (run_call_fields c (set_queue (fun _ => q) M))
        as (_ & _ & _ & Hq1).
      fold M1 in Hq1. simpl in Hq1. rewrite Hq1 in Hr, Hb.
      destruct (run_call_rendering c (set_queue (fun _ => q) M) M)
        as [Hr1 Hb1]; [done|done|]. fold M1 in Hr1, Hb1.
      destruct (run_calls_rendering (take n q) M1 (run_call c M) Hr1 Hb1)
        as [Hr2 Hb2].
      by rewrite Hr, Hb, Hr2, Hb2.
Qed.

Lemma process_entire_queue_rendering (M : Model) :
  exists M',
    process_entire_queue M = Some M' /\
    _shown M' = _shown (run_calls (queue M) M) /\
    batch M' = batch (run_calls (queue M) M).
Proof.
  unfold process_entire_queue. rewrite drain_process_queue.
  destruct (process_queue_rendering (length (queue M)) M)
    as (M' & Hrun & Hr & Hb).
  exists M'. by rewrite firstn_all in Hr, Hb.
Qed.

End RenderingExtras.

(** X6.  For a position that holds a block, deferred requests take effect
    in the order they were made, whatever was queued before.  Show then
    hide: after the drain the position is out of ShownSet and has no
    handle, and (the backend creating the mesh) the batch is what the
    drain of the earlier queue alone leaves: the new vertex list is
    created and deleted again, so a vertex list the position had before
    stays in the batch.  Hide then show: the position is in ShownSet with
    its World material; the handle it had is deleted from the batch and,
    when the backend creates the mesh, the new vertex list is added and
    becomes the handle. *)
Theorem deferred_requests_in_order `{Backend} (p : pos) (t : texture)
    (M : Model) :
  world M !! p = Some t ->
  exists M0,
    process_entire_queue M = Some M0 /\
    (exists M1 M3,
       show_block p false M = Some M1 /\
       process_entire_queue (hide_block p false M1) = Some M3 /\
       shown M3 !! p = None /\ _shown M3 !! p = None /\
       batch M3 =
         if add_indexed p t then batch M0 else batch (_hide_block p M0)) /\
    (exists M2 M3,
       show_block p false (hide_block p false M) = Some M2 /\
       process_entire_queue M2 = Some M3 /\
       shown M3 !! p = Some t /\
       _shown M3 !! p =
         (if add_indexed p t then Some (vertex_list p t) else None) /\
       batch M3 =
         if add_indexed p t
         then batch (_hide_block p M0) ++ [vertex_list p t]
         else batch (_hide_block p M0)).
Proof.
  intros Hp.
  destruct (process_entire_queue_rendering M) as (M0 & Hdrain0 & Hr0 & Hb0).
  exists M0. split; [done|].
  set (R := run_calls (queue M) M) in *.
  assert (batch (_hide_block p M0) = batch (_hide_block p R)) as Hhide
    by (by apply (run_call_rendering (call_hide_block p) M0 R)).
  split.
  - destruct (show_block_present p false M) as [M1 Hshow]; [eauto|].
    exists M1.
    destruct (process_entire_queue_spec (hide_block p false M1))
      as (M3 & Hdrain & _ & Hr & _ & Hs & _).
    destruct (process_entire_queue_rendering (hide_block p false M1))
      as (M3' & Hdrain' & _ & Hb).
    rewrite Hdrain in Hdrain'. injection Hdrain' as <-.
    exists M3. split; [done|]. split; [done|].
    unfold show_block in Hshow. rewrite Hp in Hshow. simpl in Hshow.
    simplify_eq. unfold hide_block, _enqueue in *. simpl in *.
    rewrite Hs, Hr. split; [apply lookup_delete_eq|].
    split; [rewrite !apply_calls_snoc; simpl; apply lookup_delete_eq|].
    rewrite Hb, !run_calls_snoc.
    match goal with
    | |- batch (run_call _ (run_call _ (run_calls _ ?N))) = _ =>
        destruct (run_calls_rendering (queue M) N M) as [Hr1 Hb1];
          [done|done|];
        destruct (run_call_rendering (call_show_block p t)
                    (run_calls (queue M) N) R Hr1 Hb1) as [Hr2 Hb2];
        destruct (run_call_rendering (call_hide_block p) _ _ Hr2 Hb2)
          as [_ ->]
    end.
    simpl. unfold _show_block. destruct (add_indexed p t); [|done].
    unfold _hide_block. simpl. rewrite lookup_insert_eq. simpl.
    rewrite delete_mesh_snoc. done.
  - assert (world (hide_block p false M) !! p = Some t) as Hp'.
    { by destruct (hide_block_fields p false M) as (-> & _). }
    destruct (show_block_present p false (hide_block p false M))
      as [M2 Hshow]; [eauto|].
    exists M2.
    destruct (process_entire_queue_spec M2)
      as (M3 & Hdrain & _ & Hr & _ & Hs & _).
    destruct (process_entire_queue_rendering M2)
      as (M3' & Hdrain' & _ & Hb).
    rewrite Hdrain in Hdrain'. injection Hdrain' as <-.
    exists M3. split; [done|]. split; [done|].
    unfold show_block in Hshow. rewrite Hp' in Hshow. simpl in Hshow.
    simplify_eq. unfold hide_block, _enqueue in *. simpl in *.
    rewrite Hs, Hr. split; [apply lookup_insert_eq|].
    split.
    { rewrite !apply_calls_snoc. simpl.
      destruct (add_indexed p t).
      + apply lookup_insert_eq.
      + apply lookup_delete_eq. }
    rewrite Hb, !run_calls_snoc.
    match goal with
    | |- batch (run_call _ (run_call _ (run_calls _ ?N))) = _ =>
        destruct (run_calls_rendering (queue M) N M) as [Hr1 Hb1];
          [done|done|];
        destruct (run_call_rendering (call_hide_block p)
                    (run_calls (queue M) N) R Hr1 Hb1) as [Hr2 Hb2];
        destruct (run_call_rendering (call_show_block p t) _ _ Hr2 Hb2)
          as [_ ->]
    end.
    simpl. rewrite Hhide. unfold _show_block.
    by destruct (add_indexed p t).
Qed.

Lemma deferred_requests_in_order_witness :
  world stone_model !! origin = Some STONE /\
  exists M0,
    process_entire_queue stone_model = Some M0 /\
    (exists M1 M3,
       show_block origin false stone_model = Some M1 /\
       process_entire_queue (hide_block origin false M1) = Some M3 /\
       shown M3 !! origin = None /\ _shown M3 !! origin = None /\
       batch M3 =
         if add_indexed origin STONE then batch M0
         else batch (_hide_block origin M0)) /\
    (exists M2 M3,
       show_block origin false (hide_block origin false stone_model) =
         Some M2 /\
       process_entire_queue M2 = Some M3 /\
       shown M3 !! origin = Some STONE /\
       _shown M3 !! origin =
         (if add_indexed origin STONE then Some (vertex_list origin STONE)
          else None) /\
       batch M3 =
         if add_indexed origin STONE
         then batch (_hide_block origin M0) ++ [vertex_list origin STONE]
         else batch (_hide_block origin M0)).
Proof.
  split; [reflexivity|].
  apply (deferred_requests_in_order origin STONE stone_model). reflexivity.
Defined.

(** * Visibility under immediate operations *)

Section VisibilityExtras.
Context `{Backend}.

Lemma exposed_frame (M M' : Model) (k : pos) :
  (forall d, d ∈ FACES -> world M' !! offset k d = world M !! offset k d) ->
  exposed M' k = exposed M k.
Proof.
  intros Hsame. apply Bool.eq_iff_eq_true. rewrite !exposed_true.
  split; intros (d & Hd & Hfree); exists d; split; try done.
  - by rewrite <- Hsame.
  - by rewrite Hsame.
Qed.

(** Exposure depends on the six neighbours only. *)
Lemma exposed_away (p k : pos) (M M' : Model) :
  (forall q, q ≠ p -> world M' !! q = world M !! q) ->
  ~ neighbour p k -> exposed M' k = exposed M k.
Proof.
  intros Hsame Hfar. apply exposed_frame. intros d Hd. apply Hsame.
  intros Heq. apply Hfar. apply neighbour_sym. exists d. by split.
Qed.

Lemma visible_after_Some (M : Model) (k : pos) :
  is_Some (world M !! k) ->
  is_Some (visible_after M k) <-> exposed M k = true.
Proof.
  intros [t Ht]. unfold visible_after. destruct (exposed M k).
  - rewrite Ht. destruct (shown M !! k); split; eauto.
  - split; [by intros [? ?]|done].
Qed.

(** When ShownSet is right everywhere but at the neighbours of [p], the
    one-hop update makes it right everywhere. *)
Lemma check_neighbors_exact (p : pos) (U M' : Model) :
  check_neighbors p U = Some M' ->
  (forall k, ~ neighbour p k ->
     is_Some (shown U !! k) <->
     is_Some (world U !! k) /\ exposed U k = true) ->
  (forall k, is_Some (shown U !! k) -> is_Some (world U !! k)) ->
  shown_exact M'.
Proof.
  intros Hrun Hfar Hsub.
  destruct (check_neighbors_spec p U)
    as (M2 & Hc & Hw & _ & _ & Hn & Ho & _).
  rewrite Hc in Hrun. simplify_eq. intros k.
  rewrite Hw, (exposed_world U M' k Hw).
  destruct (decide (k ∈ offset p <$> FACES)) as [Hin|Hout].
  - apply neighbour_faces in Hin.
    destruct (world U !! k) as [t|] eqn:Hk.
    + rewrite Hn by (rewrite ?Hk; eauto).
      rewrite visible_after_Some by (rewrite Hk; eauto).
      split; [by split; [eauto|]|by intros [_ ?]].
    + rewrite Ho by (rewrite Hk; intros [_ [? ?]]; done).
      split; [|by intros [[? ?] _]].
      intros Hs. apply Hsub in Hs. rewrite Hk in Hs. by destruct Hs.
  - rewrite neighbour_faces in Hout.
    rewrite Ho by (intros [? _]; done). by apply Hfar.
Qed.

Lemma remove_block_exact (p : pos) (M M' : Model) :
  shown_exact M -> remove_block p true M = Some M' -> shown_exact M'.
Proof.
  intros Hexact. destruct (world M !! p) as [t|] eqn:Hp.
  2:{ rewrite remove_block_absent by done. by intros [= <-]. }
  rewrite remove_block_present by eauto.
  destruct (sectors M !! sector_of p) as [l|]; simpl; [|done].
  destruct (list_remove p l) as [l'|]; simpl; [|done].
  intros Hrun. apply (check_neighbors_exact p _ _ Hrun).
  - destruct (unlinked_fields p true l' M) as (Hw & _ & _ & Hs & _).
    intros k Hfar. rewrite Hw, Hs.
    destruct (decide (k = p)) as [->|Hk].
    + rewrite !lookup_delete_eq. split; [by intros [? ?]|].
      by intros [[? ?] _].
    + rewrite !lookup_delete_ne by done.
      rewrite (exposed_away p k M); [apply Hexact| |done].
      intros q Hq. rewrite Hw. by apply lookup_delete_ne.
  - destruct (unlinked_fields p true l' M) as (Hw & _ & _ & Hs & _).
    intros k. rewrite Hw, Hs. destruct (decide (k = p)) as [->|Hk].
    + rewrite lookup_delete_eq. by intros [? ?].
    + rewrite !lookup_delete_ne by done. intros Hs'.
      by apply Hexact in Hs' as [? _].
Qed.

(** The state [place] hands to [check_neighbors], with what it holds for
    the new block itself. *)
Lemma place_immediate_shown (p : pos) (m : texture) (M M' : Model) :
  place p m true M = Some M' ->
  exists Ma,
    check_neighbors p Ma = Some M' /\
    world Ma = <[p := m]> (world M) /\
    (forall k, k ≠ p -> shown Ma !! k = shown M !! k) /\
    (forall k, k ≠ p -> _shown Ma !! k = _shown M !! k) /\
    shown Ma !! p = (if exposed Ma p then Some m else shown M !! p) /\
    (is_Some (_shown Ma !! p) ->
     is_Some (shown Ma !! p) \/ is_Some (_shown M !! p)).
Proof.
  unfold place. destruct (exposed (placed p m M) p) eqn:He.
  - destruct (show_block p true (placed p m M)) as [Ma|] eqn:Hshow;
      simpl; [|done].
    intros Hc. exists Ma.
    apply show_block_Some in Hshow as (t & Ht & Hw & _ & Hs & Hr & _).
    unfold placed in Ht. simpl in Ht. rewrite lookup_insert_eq in Ht.
    simplify_eq. split; [done|]. split; [done|].
    split; [intros k Hk; rewrite Hs; by rewrite lookup_insert_ne|].
    split; [done|]. rewrite (exposed_world _ Ma p Hw), He, Hs.
    rewrite lookup_insert_eq. split; [done|]. eauto.
  - simpl. intros Hc. exists (placed p m M). rewrite He.
    repeat split; try done. intros Hr. by right.
Qed.

Lemma place_exact (p : pos) (m : texture) (M M' : Model) :
  shown_exact M -> world M !! p = None ->
  place p m true M = Some M' -> shown_exact M'.
Proof.
  intros Hexact Hp Hrun.
  destruct (place_immediate_shown p m M M' Hrun)
    as (Ma & Hc & Hw & Hs & _ & Hsp & _).
  assert (shown M !! p = None) as Hnot.
  { destruct (shown M !! p) eqn:Hshown; [|done].
    destruct (proj1 (Hexact p)) as [[? ?] _]; [eauto|congruence]. }
  apply (check_neighbors_exact p _ _ Hc).
  - intros k Hfar. rewrite Hw. destruct (decide (k = p)) as [->|Hk].
    + rewrite Hsp, Hnot, lookup_insert_eq.
      destruct (exposed Ma p); split; eauto;
        try (by intros [? ?]); try (by intros [_ ?]).
    + rewrite Hs, lookup_insert_ne by done.
      rewrite (exposed_away p k M); [apply Hexact| |done].
      intros q Hq. rewrite Hw. by apply lookup_insert_ne.
  - intros k. rewrite Hw. destruct (decide (k = p)) as [->|Hk].
    + rewrite lookup_insert_eq. eauto.
    + rewrite Hs, lookup_insert_ne by done. intros Hs'.
      by apply Hexact in Hs' as [? _].
Qed.

End VisibilityExtras.

Lemma shown_exact_check (M : Model) :
  bool_decide
    (set_Forall
       (fun p => bool_decide (is_Some (shown M !! p)) =
                 bool_decide (is_Some (world M !! p)) && exposed M p)
       (dom (world M) ∪ dom (shown M))) = true ->
  shown_exact M.
Proof.
  intros Hall%bool_decide_eq_true p.
  destruct (decide (p ∈ dom (world M) ∪ dom (shown M))) as [Hin|Hout].
  - specialize (Hall p Hin). simpl in Hall.
    destruct (exposed M p); rewrite ?andb_true_r, ?andb_false_r in Hall.
    + split.
      * intros Hs. split; [|done].
        apply (bool_decide_unpack (is_Some (world M !! p))).
        rewrite <- Hall. by apply bool_decide_pack.
      * intros [Hw _].
        apply (bool_decide_unpack (is_Some (shown M !! p))).
        rewrite Hall. by apply bool_decide_pack.
    + apply bool_decide_eq_false in Hall. split; [done|by intros [_ ?]].
  - apply not_elem_of_union in Hout as [Hw Hs].
    apply not_elem_of_dom in Hw, Hs. rewrite Hw, Hs.
    split; [by intros [? ?]|]. by intros [[? ?] _].
Qed.

(** X7.  One hop is enough.  In a state where ShownSet is exactly the set
    of exposed blocks (and the sector index is in step), an immediate
    [add_block] and an immediate [remove_block] raise nothing and leave
    ShownSet exactly the set of exposed blocks of the new World. *)
Theorem immediate_keeps_shown_exact `{Backend} (p : pos) (t : texture)
    (M : Model) :
  shown_exact M ->
  index_sync M ->
  (exists M', add_block p t true M = Some M' /\ shown_exact M') /\
  (exists M', remove_block p true M = Some M' /\ shown_exact M').
Proof.
  intros Hexact Hsync.
  destruct (remove_block_total p true M Hsync) as [M0 Hrem].
  assert (shown_exact M0) as Hexact0 by (by eapply remove_block_exact).
  split; [|by exists M0].
  destruct (place_total p t true M0) as [M' Hplace].
  exists M'. rewrite add_block_unfold, Hrem. split; [done|].
  apply (place_exact p t M0 M' Hexact0); [|done].
  apply remove_block_world in Hrem as [-> _]. apply lookup_delete_eq.
Qed.

Lemma immediate_keeps_shown_exact_witness :
  (shown_exact enclosed_model /\ index_sync enclosed_model /\
   exists M',
     add_block above STONE true enclosed_model = Some M' /\
     shown enclosed_model !! origin = Some STONE /\
     shown M' !! origin = None /\ shown_exact M') /\
  (shown_exact buried_model /\ index_sync buried_model /\
   exists M',
     remove_block above true buried_model = Some M' /\
     shown buried_model !! origin = None /\
     shown M' !! origin = Some STONE /\ shown_exact M').
Proof.
  assert (shown_exact enclosed_model) as He
    by (apply shown_exact_check; vm_compute; reflexivity).
  assert (shown_exact buried_model) as Hb
    by (apply shown_exact_check; vm_compute; reflexivity).
  assert (index_sync enclosed_model) as Hse.
  { apply (scenario_index_sync
             [ op_add_block origin STONE true;
               op_add_block (0, -1, 0) STONE true;
               op_add_block (-1, 0, 0) STONE true;
               op_add_block (1, 0, 0) STONE true;
               op_add_block (0, 0, 1) STONE true;
               op_add_block (0, 0, -1) STONE true ]).
    vm_compute. reflexivity. }
  assert (add_block above STONE true enclosed_model = Some buried_model)
    as Hadd by (vm_compute; reflexivity).
  assert (index_sync buried_model) as Hsb
    by (by apply (index_sync_add above STONE true enclosed_model)).
  split.
  - split; [exact He|]. split; [exact Hse|].
    destruct (proj1 (immediate_keeps_shown_exact above STONE enclosed_model
                       He Hse)) as (M' & Hrun & HM').
    exists M'. split; [exact Hrun|]. split; [reflexivity|].
    split; [|exact HM'].
    rewrite Hadd in Hrun. injection Hrun as <-. reflexivity.
  - split; [exact Hb|]. split; [exact Hsb|].
    destruct (proj2 (immediate_keeps_shown_exact above STONE buried_model
                       Hb Hsb)) as (M' & Hrun & HM').
    exists M'. split; [exact Hrun|]. split; [reflexivity|].
    split; [|exact HM'].
    assert (exists N, remove_block above true buried_model = Some N /\
                      shown N !! origin = Some STONE) as (N & HN & Hs)
      by (eexists; split; vm_compute; reflexivity).
    rewrite HN in Hrun. injection Hrun as <-. exact Hs.
Defined.

Section RenderedExtras.
Context `{Backend}.

Lemma show_block_rendered (p : pos) (immediate : bool) (M M' : Model) :
  rendered_in_shown M -> show_block p immediate M = Some M' ->
  rendered_in_shown M'.
Proof.
  intros Hinv Hrun. apply show_block_Some in Hrun
    as (t & _ & _ & _ & Hs & Hr & _).
  intros k. rewrite Hs. destruct (decide (k = p)) as [->|Hk].
  - rewrite lookup_insert_eq. eauto.
  - rewrite Hr, lookup_insert_ne by done. apply Hinv.
Qed.

Lemma hide_block_rendered (p : pos) (M : Model) :
  rendered_in_shown M -> rendered_in_shown (hide_block p true M).
Proof.
  intros Hinv k. destruct (hide_block_fields p true M)
    as (_ & _ & -> & _ & Himm & _).
  destruct Himm as [_ ->]; [done|]. destruct (decide (k = p)) as [->|Hk].
  - rewrite lookup_delete_eq. by intros [? ?].
  - rewrite !lookup_delete_ne by done. apply Hinv.
Qed.

Lemma check_neighbors_rendered (p : pos) (M M' : Model) :
  rendered_in_shown M -> check_neighbors p M = Some M' ->
  rendered_in_shown M'.
Proof.
  unfold check_neighbors. apply for_each_inv. intros d N N' _ HN.
  unfold check_neighbor. destruct (world N !! offset p d); [|by intros [= <-]].
  destruct (exposed N (offset p d)), (shown N !! offset p d);
    try (by intros [= <-]).
  - by apply show_block_rendered.
  - intros [= <-]. by apply hide_block_rendered.
Qed.

Lemma remove_block_rendered (p : pos) (M M' : Model) :
  rendered_in_shown M -> remove_block p true M = Some M' ->
  rendered_in_shown M'.
Proof.
  intros Hinv. destruct (world M !! p) as [t|] eqn:Hp.
  2:{ rewrite remove_block_absent by done. by intros [= <-]. }
  rewrite remove_block_present by eauto.
  destruct (sectors M !! sector_of p) as [l|]; simpl; [|done].
  destruct (list_remove p l) as [l'|]; simpl; [|done].
  apply check_neighbors_rendered.
  destruct (unlinked_fields p true l' M) as (_ & _ & _ & Hs & Hr & Hrp).
  intros k. rewrite Hs. destruct (decide (k = p)) as [->|Hk].
  - rewrite Hrp, lookup_delete_eq. destruct (shown M !! p) eqn:Hshown.
    + by intros [? ?].
    + intros Hmesh. apply Hinv in Hmesh. rewrite Hshown in Hmesh.
      by destruct Hmesh.
  - rewrite Hr, lookup_delete_ne by done. apply Hinv.
Qed.

Lemma place_rendered (p : pos) (t : texture) (M M' : Model) :
  rendered_in_shown M -> place p t true M = Some M' ->
  rendered_in_shown M'.
Proof.
  intros Hinv Hrun.
  destruct (place_immediate_shown p t M M' Hrun)
    as (Ma & Hc & _ & Hs & Hr & Hsp & Hrp).
  apply (check_neighbors_rendered p Ma); [|done].
  intros k. destruct (decide (k = p)) as [->|Hk].
  - intros Hmesh. destruct (Hrp Hmesh) as [?|Hold]; [done|].
    rewrite Hsp. destruct (exposed Ma p); [eauto|]. by apply Hinv.
  - rewrite Hs, Hr by done. apply Hinv.
Qed.

End RenderedExtras.

Section BatchExtras.
Context `{Backend}.

Lemma show_block_batch_exact (p : pos) (M M' : Model) :
  batch_exact M -> _shown M !! p = None ->
  show_block p true M = Some M' -> batch_exact M'.
Proof.
  intros Hexact Hp. unfold show_block.
  destruct (world M !! p) as [t|]; simpl; [|done]. intros [= <-] k.
  rewrite meshes_at_show. unfold _show_block.
  destruct (add_indexed p t); simpl; [|apply Hexact].
  destruct (decide (p = k)) as [<-|Hk].
  - rewrite lookup_insert_eq. specialize (Hexact p). rewrite Hp in Hexact.
    unfold meshes_at in *. simpl in *. by rewrite Hexact.
  - rewrite lookup_insert_ne, app_nil_r by done. apply Hexact.
Qed.

Lemma hide_block_batch_exact (p : pos) (M : Model) :
  batch_exact M -> batch_exact (hide_block p true M).
Proof.
  intros Hexact k. unfold hide_block.
  set (N := set_shown (delete p) M).
  assert (batch_exact N) as HN by exact Hexact.
  destruct (_hide_block_fields p N) as (_ & _ & _ & _ & ->).
  destruct (decide (k = p)) as [->|Hk].
  - rewrite lookup_delete_eq. by apply meshes_at_hide_single.
  - rewrite lookup_delete_ne by done. rewrite meshes_at_hide_other; [done|].
    intros v Hv Hpos.
    assert (v ∈ meshes_at p N) as [Hvp _]%list_elem_of_filter.
    { rewrite (HN p), Hv. by left. }
    congruence.
Qed.

Lemma check_neighbors_batch_exact (p : pos) (M M' : Model) :
  rendered_in_shown M /\ batch_exact M ->
  check_neighbors p M = Some M' ->
  rendered_in_shown M' /\ batch_exact M'.
Proof.
  unfold check_neighbors.
  apply (for_each_inv (fun N => rendered_in_shown N /\ batch_exact N)).
  intros d N N' _ [Hr Hb].
  unfold check_neighbor. destruct (world N !! offset p d); [|by intros [= <-]].
  destruct (exposed N (offset p d)),
           (shown N !! offset p d) eqn:Hs; try (by intros [= <-]).
  - intros Hshow. split; [by eapply show_block_rendered|].
    eapply show_block_batch_exact; [done| |done].
    destruct (_shown N !! offset p d) eqn:Hv; [|done].
    destruct (Hr (offset p d)) as [? ?]; [eauto|congruence].
  - intros [= <-]. split; [by apply hide_block_rendered|].
    by apply hide_block_batch_exact.
Qed.

Lemma remove_block_batch_exact (p : pos) (M M' : Model) :
  rendered_in_shown M -> batch_exact M ->
  remove_block p true M = Some M' -> batch_exact M'.
Proof.
  intros Hr Hb. destruct (world M !! p) as [t|] eqn:Hp.
  2:{ rewrite remove_block_absent by done. by intros [= <-]. }
  rewrite remove_block_present by eauto.
  destruct (sectors M !! sector_of p) as [l|]; simpl; [|done].
  destruct (list_remove p l) as [l'|]; simpl; [|done].
  intros Hc. eapply check_neighbors_batch_exact; [|exact Hc].
  unfold unlinked. cbv zeta. simpl.
  set (N := set_sectors <[sector_of p := l']> (set_world (delete p) M)).
  assert (rendered_in_shown N) as HrN by exact Hr.
  assert (batch_exact N) as HbN by exact Hb.
  destruct (shown M !! p); [|done].
  split; [by apply hide_block_rendered|by apply hide_block_batch_exact].
Qed.

Lemma place_batch_exact (p : pos) (t : texture) (M M' : Model) :
  rendered_in_shown M -> batch_exact M -> shown M !! p = None ->
  place p t true M = Some M' -> batch_exact M'.
Proof.
  intros Hr Hb Hp. unfold place. cbv zeta.
  set (N := placed p t M).
  assert (rendered_in_shown N) as HrN by exact Hr.
  assert (batch_exact N) as HbN by exact Hb.
  destruct (exposed N p).
  - destruct (show_block p true N) as [N1|] eqn:Hshow; simpl; [|done].
    intros Hc. eapply check_neighbors_batch_exact; [|exact Hc].
    split; [by eapply show_block_rendered|].
    eapply show_block_batch_exact; [done| |done].
    destruct (_shown N !! p) eqn:Hv; [|done].
    destruct (HrN p) as [? Hs]; [eauto|]. unfold N, placed in Hs.
    simpl in Hs. congruence.
  - simpl. intros Hc. by eapply check_neighbors_batch_exact.
Qed.

Lemma settled_edit (o : op) (M M' : Model) :
  settled M -> immediate_edit o -> run_op o M = Some M' -> settled M'.
Proof.
  intros (Hw & Hr & Hb) Himm.
  destruct o; simpl in Himm; try (exfalso; exact Himm); subst;
    cbn [run_op].
  - intros Hrun.
    split; [by eapply add_block_shown_in_world|].
    revert Hrun. rewrite add_block_unfold.
    destruct (remove_block position true M) as [M0|] eqn:Hrem;
      simpl; [|done].
    intros Hplace.
    assert (rendered_in_shown M0) as Hr0
      by (exact (remove_block_rendered position M M0 Hr Hrem)).
    split; [exact (place_rendered position texture M0 M' Hr0 Hplace)|].
    eapply place_batch_exact; [exact Hr0| | |exact Hplace].
    + exact (remove_block_batch_exact position M M0 Hr Hb Hrem).
    + assert (shown_in_world M0) as Hw0
        by (exact (remove_block_shown_in_world position M M0 Hw Hrem)).
      destruct (shown M0 !! position) eqn:Hs; [|done].
      destruct (Hw0 position) as [? Hin]; [eauto|].
      apply remove_block_world in Hrem as [Hrem _].
      rewrite Hrem, lookup_delete_eq in Hin. done.
  - intros Hrun.
    split; [exact (remove_block_shown_in_world position M M' Hw Hrun)|].
    split; [exact (remove_block_rendered position M M' Hr Hrun)|].
    exact (remove_block_batch_exact position M M' Hr Hb Hrun).
  - intros [= <-].
    split; [by apply hide_block_shown_in_world|].
    split; [by apply hide_block_rendered|by apply hide_block_batch_exact].
Qed.

Lemma settled_empty : settled empty_model.
Proof.
  split; [|split].
  - intros k. simpl. rewrite lookup_empty. by intros [? ?].
  - intros k. simpl. rewrite lookup_empty. by intros [? ?].
  - intros k. unfold meshes_at. simpl. by rewrite lookup_empty.
Qed.

Lemma settled_run_ops (os : list op) (M M' : Model) :
  Forall immediate_edit os -> settled M -> run_ops os M = Some M' ->
  settled M'.
Proof.
  unfold run_ops. intros Hall. revert M.
  induction Hall as [|o os Ho _ IH]; intros M HM; cbn [for_each].
  - by intros [= <-].
  - destruct (run_op o M) as [M1|] eqn:Hstep; cbn [mbind option_bind];
      [|done].
    apply IH. by eapply settled_edit.
Qed.

End BatchExtras.

(** X8.  Immediate edits leak nothing.  Take a state where ShownSet is
    inside World, every handle of [_shown] belongs to a position of
    ShownSet, and the batch holds the handles and no other vertex list.
    After an immediate add, remove or hide the same three facts hold, so
    every vertex list of the batch stands at a position of ShownSet,
    whether or not the backend creates the meshes it is asked for. *)
Theorem immediate_edit_leaks_nothing `{Backend} (o : op) (M M' : Model) :
  settled M ->
  immediate_edit o ->
  run_op o M = Some M' ->
  settled M' /\
  forall v, v ∈ batch M' -> is_Some (shown M' !! vertex_position v).
Proof.
  intros HM Ho Hrun.
  assert (settled M') as HM' by (by eapply settled_edit).
  split; [exact HM'|]. destruct HM' as (_ & Hr & Hb).
  intros v Hv. apply Hr.
  assert (v ∈ meshes_at (vertex_position v) M') as Hin
    by (by apply list_elem_of_filter).
  rewrite (Hb (vertex_position v)) in Hin.
  destruct (_shown M' !! vertex_position v); [eauto|].
  by apply elem_of_nil in Hin.
Qed.

Lemma immediate_edit_leaks_nothing_witness :
  settled enclosed_model /\
  immediate_edit (op_add_block above STONE true) /\
  run_op (op_add_block above STONE true) enclosed_model =
    Some buried_model /\
  meshes_at origin enclosed_model = [vertex_list origin STONE] /\
  meshes_at origin buried_model = [] /\
  settled buried_model /\
  forall v,
    v ∈ batch buried_model ->
    is_Some (shown buried_model !! vertex_position v).
Proof.
  assert (settled enclosed_model) as HM.
  { apply (settled_run_ops
             [ op_add_block origin STONE true;
               op_add_block (0, -1, 0) STONE true;
               op_add_block (-1, 0, 0) STONE true;
               op_add_block (1, 0, 0) STONE true;
               op_add_block (0, 0, 1) STONE true;
               op_add_block (0, 0, -1) STONE true ] empty_model).
    - repeat constructor.
    - apply settled_empty.
    - vm_compute. reflexivity. }
  assert (run_op (op_add_block above STONE true) enclosed_model =
          Some buried_model) as Hrun by (vm_compute; reflexivity).
  split; [exact HM|]. split; [reflexivity|]. split; [exact Hrun|].
  split; [vm_compute; reflexivity|]. split; [vm_compute; reflexivity|].
  exact (immediate_edit_leaks_nothing (op_add_block above STONE true)
           enclosed_model buried_model HM eq_refl Hrun).
Defined.

(** * Showing and hiding sectors *)

Section SectorExtras.
Context `{Backend}.










End SectorExtras.




(** * Moving between sectors *)

Lemma elem_of_sectors_to_show (before after : option pos) (s : pos) :
  s ∈ sectors_to_show before after <->
  in_disk after s /\ ~ in_disk before s.
Proof.
  unfold sectors_to_show.
  destruct (sector_sets_spec before after s) as [HB HA].
  destruct (sector_sets before after) as [B A]. simpl in *.
  rewrite elem_of_difference. by rewrite HB, HA.
Qed.

Lemma elem_of_sectors_to_hide (before after : option pos) (s : pos) :
  s ∈ sectors_to_hide before after <->
  in_disk before s /\ ~ in_disk after s.
Proof.
  unfold sectors_to_hide.
  destruct (sector_sets_spec before after s) as [HB HA].
  destruct (sector_sets before after) as [B A]. simpl in *.
  rewrite elem_of_difference. by rewrite HB, HA.
Qed.

Lemma sectors_to_show_same (a : option pos) : sectors_to_show a a = ∅.
Proof.
  apply set_eq. intros s. rewrite elem_of_sectors_to_show.
  split; [tauto|]. intros Hs. destruct (not_elem_of_empty s Hs).
Qed.

Lemma sectors_to_hide_same (a : option pos) : sectors_to_hide a a = ∅.
Proof.
  apply set_eq. intros s. rewrite elem_of_sectors_to_hide.
  split; [tauto|]. intros Hs. destruct (not_elem_of_empty s Hs).
Qed.

(** X11.  Changing from a sector to itself does nothing at all.  No
    sector is both shown and hidden by one change, and going back hides
    exactly the sectors that going forth asked to show. *)
Theorem change_sectors_there_and_back `{Backend} (a b : option pos)
    (M : Model) :
  change_sectors a a M = Some M /\
  sectors_to_show a b ## sectors_to_hide a b /\
  sectors_to_hide b a = sectors_to_show a b.
Proof.
  split; [|split].
  - unfold change_sectors.
    rewrite sectors_to_show_same, sectors_to_hide_same, elements_empty.
    reflexivity.
  - apply elem_of_disjoint. intros s.
    rewrite elem_of_sectors_to_show, elem_of_sectors_to_hide. tauto.
  - apply set_eq. intros s.
    rewrite elem_of_sectors_to_show, elem_of_sectors_to_hide. tauto.
Qed.

(** * The ray caster and the collision resolver *)

Lemma hit_test_loop_sound (w : gmap pos texture) (vector : point)
    (steps : nat) :
  forall (position : point) (previous r1 r2 : option pos),
    (forall q, previous = Some q -> w !! q = None) ->
    hit_test_loop w steps position vector previous = Some (r1, r2) ->
    (r1 = None /\ r2 = None) \/
    (exists key,
       r1 = Some key /\ is_Some (w !! key) /\ Some key ≠ r2 /\
       (forall q, r2 = Some q -> w !! q = None) /\
       (r2 = None -> previous = None /\ normalize position = Some key)).
Proof.
  induction steps as [|n IH]; intros position previous r1 r2 Hfree.
  - intros [= <- <-]. by left.
  - rewrite hit_test_loop_step.
    destruct (normalize position) as [key|] eqn:Hkey; simpl; [|done].
    destruct (bool_decide (Some key ≠ previous) &&
              bool_decide (is_Some (w !! key))) eqn:Hcond.
    + apply andb_true_iff in Hcond as [Hne%bool_decide_eq_true
                                          Hin%bool_decide_eq_true].
      intros [= <- <-]. right. exists key. repeat split; done.
    + destruct (advance3 position vector) as [position'|]; simpl; [|done].
      intros Hrun.
      assert (forall q, Some key = Some q -> w !! q = None) as Hfree'.
      { intros q [= <-].
        apply andb_false_iff in Hcond as [Hc%bool_decide_eq_false|
                                          Hc%bool_decide_eq_false].
        - apply Hfree. destruct (decide (Some key = previous)); [done|].
          by destruct Hc.
        - destruct (w !! key) eqn:Hw; [|done]. destruct Hc. eauto. }
      destruct (IH position' (Some key) r1 r2 Hfree' Hrun)
        as [?|(k & -> & Hin & Hne & Hq & Hnone)]; [by left|].
      right. exists k. do 4 (split; [done|]).
      intros Hr2. by destruct (Hnone Hr2).
Qed.

(** X12.  What [hit_test] returns can be used as it is: either
    [(None, None)], or a block together with a previous position that
    holds no block and differs from it, the placement target.  The
    previous position is missing only when the very first sample, the one
    of the origin, is inside a block. *)
Theorem hit_test_sound (M : Model) (position vector : point)
    (max_distance : Z) (block previous : option pos) :
  hit_test M position vector max_distance = Some (block, previous) ->
  (block = None /\ previous = None) \/
  (exists key,
     block = Some key /\ is_Some (world M !! key) /\
     match previous with
     | Some q => world M !! q = None /\ q ≠ key
     | None => normalize position = Some key
     end).
Proof.
  unfold hit_test. intros Hrun.
  destruct (hit_test_loop_sound (world M) vector
              (Z.to_nat (max_distance * 8)) position None
              block previous) as [?|(key & -> & Hin & Hne & Hq & Hnone)];
    [done|exact Hrun|by left|].
  right. exists key. split; [done|]. split; [done|].
  destruct previous as [q|].
  - split; [by apply Hq|]. intros ->. done.
  - by destruct Hnone.
Qed.

Lemma hit_test_sound_witness :
  hit_test stone_model ray_origin ray_direction 8 =
    Some (Some origin, Some (0, 0, 1)) /\
  ((Some origin = None /\ Some (0, 0, 1) = @None pos) \/
   (exists key,
      Some origin = Some key /\ is_Some (world stone_model !! key) /\
      world stone_model !! (0, 0, 1) = None /\ (0, 0, 1) ≠ key)).
Proof.
  assert (hit_test stone_model ray_origin ray_direction 8 =
          Some (Some origin, Some (0, 0, 1))) as Hrun
    by (vm_compute; reflexivity).
  split; [exact Hrun|].
  exact (hit_test_sound stone_model ray_origin ray_direction 8
           (Some origin) (Some (0, 0, 1)) Hrun).
Defined.

(** X13.  The degenerate rays.  With a range of zero or less nothing is
    sampled, so the answer is [(None, None)] whatever the origin and the
    direction, NaN included.  With a positive range and an origin inside a
    block, that block is returned at once, with no previous position. *)
Theorem hit_test_degenerate (M : Model) (position vector : point)
    (max_distance : Z) :
  (max_distance <= 0 ->
   hit_test M position vector max_distance = Some (None, None)) /\
  (forall key,
     0 < max_distance -> normalize position = Some key ->
     is_Some (world M !! key) ->
     hit_test M position vector max_distance = Some (Some key, None)).
Proof.
  unfold hit_test. split.
  - intros Hd. replace (Z.to_nat (max_distance * 8)) with 0%nat by lia.
    reflexivity.
  - intros key Hd Hkey Hin.
    destruct (Z.to_nat (max_distance * 8)) as [|n] eqn:Hn; [lia|].
    rewrite hit_test_loop_step, Hkey. cbn [mbind option_bind].
    rewrite (bool_decide_eq_true_2 (Some key ≠ None)) by done.
    by rewrite (bool_decide_eq_true_2 (is_Some (world M !! key))).
Qed.

Lemma hit_test_degenerate_witness :
  hit_test stone_model (Py.Float nan, Py.Int 0, Py.Int 0) ray_direction 0 =
    Some (None, None) /\
  hit_test stone_model (Py.Float 0.25, Py.Float (-0.5), Py.Int 0)
           ray_direction 8 = Some (Some origin, None).
Proof.
  split.
  - apply (proj1 (hit_test_degenerate stone_model _ ray_direction 0)). lia.
  - apply (proj2 (hit_test_degenerate stone_model _ ray_direction 8));
      [lia|vm_compute; reflexivity|vm_compute; eauto].
Defined.

Lemma push_back_vertical_only (W0 : Window) (face : pos) (i : nat)
    (d : Py.num) (st st' : point * Window) :
  vertical_only W0 (snd st) -> push_back face i d st = Some st' ->
  vertical_only W0 (snd st').
Proof.
  destruct st as [p W]. unfold push_back.
  destruct (Py.sub d pad) as [e|]; simpl; [|done].
  destruct (Py.mul e (Py.Int (get3 face i))) as [e'|]; simpl; [|done].
  destruct (Py.sub (get3 p i) e') as [v|]; simpl; [|done].
  intros (Hm & Hr & Hl & Hdy) [= <-]. simpl.
  destruct (decide (face = (0, -1, 0))) as [->|Hdown];
    destruct (decide _) as [Hup|Hup]; simplify_eq; simpl;
    repeat split; try done.
  by rewrite orb_true_r.
Qed.

Lemma collide_column_vertical_only (W0 : Window) (np face : pos) (i : nat)
    (d : Py.num) (dys : list Z) (st st' : point * Window) :
  vertical_only W0 (snd st) ->
  collide_column np face i d dys st = Some st' ->
  vertical_only W0 (snd st').
Proof.
  intros Hinv. induction dys as [|y dys IH]; simpl.
  - by intros [= <-].
  - destruct (world (model (snd st)) !! _); [|exact IH].
    by apply push_back_vertical_only.
Qed.

Lemma collide_axis_vertical_only (W0 : Window) (np : pos) (height : Z)
    (face : pos) (i : nat) (st st' : point * Window) :
  vertical_only W0 (snd st) ->
  collide_axis np height face i st = Some st' ->
  vertical_only W0 (snd st').
Proof.
  intros Hinv. unfold collide_axis. case_decide; [by intros [= <-]|].
  destruct (Py.sub _ _) as [e|]; simpl; [|done].
  destruct (Py.mul _ _) as [d|]; simpl; [|done].
  destruct (Py.lt d pad); [by intros [= <-]|].
  by apply collide_column_vertical_only.
Qed.

(** X14.  [collide] reports vertical contacts only.  Whenever it returns,
    the flags [left] and [right] are false, whatever blocks stand beside
    the entity; the world model is untouched; and the vertical velocity is
    reset to 0 exactly when [top] or [bottom] is set, and is otherwise
    what it was. *)
Theorem collide_vertical_only (position p : point) (height : Z)
    (W W' : Window) :
  collide position height W = Some (p, W') ->
  model W' = model W /\
  right (collision_types W') = false /\
  left (collision_types W') = false /\
  if top (collision_types W') || bottom (collision_types W')
  then dy W' = Py.Int 0 else dy W' = dy W.
Proof.
  unfold collide.
  destruct (normalize position) as [np|]; cbn [mbind option_bind]; [|done].
  intros Hrun.
  change (vertical_only W (snd (p, W'))).
  revert Hrun.
  apply (for_each_inv (fun st => vertical_only W (snd st))).
  - intros face st st' _ Hst.
    apply (for_each_inv (fun st => vertical_only W (snd st))); [|done].
    intros i s s' _. apply collide_axis_vertical_only.
  - by repeat split.
Qed.

Lemma collide_vertical_only_witness :
  collide desired 2 falling =
    Some ((Py.Int 0, Py.Float 0.25, Py.Int 0),
          mkWindow (model falling) (mkContacts false true false false)
                   (Py.Int 0)) /\
  model (mkWindow (model falling) (mkContacts false true false false)
                  (Py.Int 0)) = model falling /\
  false = false /\ false = false /\ Py.Int 0 = Py.Int 0.
Proof.
  assert (collide desired 2 falling =
          Some ((Py.Int 0, Py.Float 0.25, Py.Int 0),
                mkWindow (model falling)
                         (mkContacts false true false false) (Py.Int 0)))
    as Hrun by (vm_compute; reflexivity).
  split; [exact Hrun|].
  exact (collide_vertical_only desired _ 2 falling _ Hrun).
Defined.

Lemma for_each_fixed {A S : Type} (body : A -> S -> option S)
    (l : list A) (s : S) :
  (forall x, x ∈ l -> body x s = Some s) -> for_each body l s = Some s.
Proof.
  induction l as [|x l IH]; intros Hl; [done|]. cbn [for_each].
  rewrite Hl by (by left). cbn [mbind option_bind].
  apply IH. intros y Hy. apply Hl. by right.
Qed.

Lemma collide_axis_resting (np : pos) (height : Z) (face : pos) (i : nat)
    (W : Window) :
  collide_axis np height face i (point_of np, W) = Some (point_of np, W).
Proof.
  unfold collide_axis. case_decide as Hzero; [done|].
  assert (get3 (point_of np) i = Py.Int (get3 np i)) as Hget
    by (destruct np as [[x y] z], i as [|[|i]]; reflexivity).
  cbn [fst]. rewrite Hget. cbn [Py.sub Py.arith mbind option_bind Py.mul].
  rewrite Z.sub_diag, Z.mul_0_l. reflexivity.
Qed.

(** X15.  A position made of integers is never corrected: whatever the
    world, the height and the earlier contacts, [collide] returns it
    unchanged, with every contact flag cleared and the vertical velocity
    untouched. *)
Theorem collide_integer_position (q : pos) (height : Z) (W : Window) :
  collide (point_of q) height W =
    Some (point_of q,
          mkWindow (model W) (mkContacts false false false false) (dy W)).
Proof.
  unfold collide.
  assert (normalize (point_of q) = Some q) as ->
    by (destruct q as [[x y] z]; reflexivity).
  cbn [mbind option_bind].
  apply for_each_fixed. intros face _.
  apply for_each_fixed. intros i _.
  apply collide_axis_resting.
Qed.

(** * World generation *)

Lemma for_each_total {A S : Type} (P : S -> Prop) (body : A -> S -> option S)
    (l : list A) :
  (forall x s, x ∈ l -> P s -> exists s', body x s = Some s' /\ P s') ->
  forall s, P s -> exists s', for_each body l s = Some s' /\ P s'.
Proof.
  induction l as [|x l IH]; intros Hstep s Hs; cbn [for_each].
  - eauto.
  - destruct (Hstep x s) as (s1 & -> & Hs1); [by left|done|].
    cbn [mbind option_bind].
    apply IH; [|done]. intros y t Hy. apply Hstep. by right.
Qed.

Section GenerationLoops.
Context `{Backend}.
Variable height : Z -> Z -> Z.
Variable draw : nat -> Z -> Z -> Z.

(** An invariant of the model that implies a sector index in step with
    World and that a deferred [add_block] of an allowed material keeps. *)
Variable Inv : Model -> Prop.
Variable allowed : texture -> Prop.
Hypothesis Inv_sync : forall M, Inv M -> index_sync M.
Hypothesis Inv_add :
  forall p t M M',
    allowed t -> Inv M -> add_block p t false M = Some M' -> Inv M'.

Lemma add_deferred_keeps (p : pos) (t : texture) (st : Model * nat) :
  allowed t -> Inv st.1 ->
  exists st', add_deferred p t st = Some st' /\ Inv st'.1.
Proof.
  intros Ht Hst. unfold add_deferred.
  destruct (add_block_total p t false st.1) as [M' Hadd]; [by apply Inv_sync|].
  rewrite Hadd. cbn [mbind option_bind]. eexists. split; [done|]. simpl.
  by eapply Inv_add.
Qed.

Lemma adds_keep {A : Type} (f : A -> pos) (t : texture) (l : list A)
    (st : Model * nat) :
  allowed t -> Inv st.1 ->
  exists st',
    for_each (fun a => add_deferred (f a) t) l st = Some st' /\ Inv st'.1.
Proof.
  intros Ht. apply (for_each_total (fun st => Inv st.1)).
  intros a s _. by apply add_deferred_keeps.
Qed.

Lemma plant_tree_keeps (x z h : Z) (st : Model * nat) :
  allowed WOOD -> allowed LEAF -> Inv st.1 ->
  exists st', plant_tree draw x z h st = Some st' /\ Inv st'.1.
Proof.
  intros Hwood Hleaf Hst. unfold plant_tree, randrange.
  set (treeHeight := draw st.2 3 5).
  destruct (adds_keep (fun y => (x, y, z)) WOOD
              (seqZ (h + 1) (h + treeHeight - (h + 1))) (st.1, S st.2))
    as (st1 & Hrun & Hst1); [done|done|].
  rewrite Hrun. cbn [mbind option_bind].
  apply (for_each_total (fun st => Inv st.1)); [|done].
  intros lz s _ Hs.
  apply (for_each_total (fun st => Inv st.1)); [|done].
  intros lx s' _ Hs'.
  by apply (adds_keep (fun ly => (lx, h + treeHeight + ly, lz)) LEAF).
Qed.

(** The part of a land column above and below its surface block. *)
Lemma column_rest_keeps (x z h : Z) (st : Model * nat) :
  allowed STONE -> allowed WOOD -> allowed LEAF -> Inv st.1 ->
  exists st',
    (st ← for_each (fun y => add_deferred (x, y, z) STONE)
                   (range_down (h - 1) 0) st;
     if 6 <? h then
       let '(r, st) := randrange draw 0 1000 st in
       if 990 <? r then plant_tree draw x z h st else Some st
     else Some st) = Some st' /\ Inv st'.1.
Proof.
  intros Hstone Hwood Hleaf Hst.
  destruct (adds_keep (fun y => (x, y, z)) STONE (range_down (h - 1) 0) st)
    as (st1 & -> & Hst1); [done|done|].
  cbn [mbind option_bind]. destruct (6 <? h); [|eauto].
  unfold randrange. destruct (990 <? draw st1.2 0 1000).
  - by apply plant_tree_keeps.
  - eauto.
Qed.

Lemma generate_column_keeps (x z : Z) (st : Model * nat) :
  (forall t, allowed t) -> Inv st.1 ->
  exists st', generate_column height draw x z st = Some st' /\ Inv st'.1.
Proof.
  intros Hall Hst. unfold generate_column. cbv zeta.
  destruct (height x z <? 4).
  - destruct (add_deferred_keeps (x, height x z, z) SAND st)
      as (st1 & -> & Hst1); [done|done|].
    cbn [mbind option_bind].
    by apply (adds_keep (fun y => (x, y, z)) WATER).
  - assert (exists st1,
        (if height x z <? 6
         then add_deferred (x, height x z, z) SAND st else Some st)
        = Some st1 /\ Inv st1.1) as (st1 & -> & Hst1).
    { destruct (height x z <? 6); [|eauto]. by apply add_deferred_keeps. }
    cbn [mbind option_bind].
    destruct (add_deferred_keeps (x, height x z, z) GRASS st1)
      as (st2 & -> & Hst2); [done|done|].
    cbn [mbind option_bind]. by apply column_rest_keeps.
Qed.

Lemma columns_keep (st : Model * nat) :
  (forall x z st,
     Inv st.1 ->
     exists st', generate_column height draw x z st = Some st' /\
                 Inv st'.1) ->
  Inv st.1 ->
  exists st', _initialize height draw st = Some st' /\ Inv st'.1.
Proof.
  intros Hcol Hst. unfold _initialize. cbv zeta.
  apply (for_each_total (fun st => Inv st.1)); [|done].
  intros x s _ Hs.
  apply (for_each_total (fun st => Inv st.1)); [|done].
  intros z s' _ Hs'. by apply Hcol.
Qed.

End GenerationLoops.

Lemma add_block_world `{Backend} (p : pos) (t : texture) (immediate : bool)
    (M M' : Model) :
  add_block p t immediate M = Some M' -> world M' = <[p := t]> (world M).
Proof.
  rewrite add_block_unfold.
  destruct (remove_block p immediate M) as [M0|] eqn:Hr; simpl; [|done].
  intros Hplace. apply place_world in Hplace as [-> _].
  apply remove_block_world in Hr as [-> _]. apply insert_delete_eq.
Qed.

(** ** Start-up rendering *)

(** What the generation loop keeps up: the sector index is in step,
    ShownSet is empty and the queue holds the upload of every block. *)
Lemma generation_queue_add (p : pos) (t : texture) (M M' : Model) :
  index_sync M /\ shown M = ∅ /\ queue_renders_world M ->
  add_block p t false M = Some M' ->
  index_sync M' /\ shown M' = ∅ /\ queue_renders_world M'.
Proof.
  intros (Hsync & Hshown & Hq) Hadd. split; [by eapply index_sync_add|].
  pose proof (add_block_world _ _ _ _ _ Hadd) as Hw.
  apply add_block_deferred_fields in Hadd as (Hs & Hr & Hqueue).
  split; [by rewrite Hs|].
  intros k. rewrite Hqueue, Hr, Hw, apply_calls_snoc. simpl.
  destruct (decide (k = p)) as [->|Hk].
  - by rewrite !lookup_insert_eq.
  - rewrite !lookup_insert_ne by done. apply Hq.
Qed.

(** X16.  Start-up, for any terrain heights and any random draws, with a
    backend that creates every mesh: world generation followed by the
    drain of the queue ends with an empty queue and an empty ShownSet,
    and every block of World has a mesh built from its material, whether
    it is exposed or buried. *)
Theorem generation_renders_every_block (height : Z -> Z -> Z)
    (draw : nat -> Z -> Z -> Z) :
  exists st M,
    _initialize height draw (empty_model, 0%nat) = Some st /\
    process_entire_queue st.1 = Some M /\
    world M = world st.1 /\
    queue M = [] /\
    shown M = ∅ /\
    forall k, _shown M !! k = vertex_list k <$> world M !! k.
Proof.
  destruct (columns_keep height draw
              (fun M => index_sync M /\ shown M = ∅ /\
                        queue_renders_world M)
              (empty_model, 0%nat))
    as (st & Hrun & Hsync & Hshown & Hq).
  - intros x z s Hs.
    apply (generate_column_keeps height draw
             (fun M => index_sync M /\ shown M = ∅ /\
                       queue_renders_world M)
             (fun _ => True)); try done.
    + by intros M [? _].
    + intros p t M M' _. apply generation_queue_add.
  - split; [apply index_sync_empty|]. split; [done|].
    intros k. simpl. by rewrite !lookup_empty.
  - destruct (process_entire_queue_spec st.1)
      as (M & Hdrain & Hqueue & Hr & Hw & Hs & _).
    exists st, M. split; [done|]. split; [done|]. split; [done|].
    split; [done|]. split; [by rewrite Hs|].
    intros k. rewrite Hr, Hw. apply Hq.
Qed.

(** ** Sand *)

Lemma not_sand_add `{Backend} (q p : pos) (t : texture) (M M' : Model) :
  t <> SAND ->
  (forall k, world M !! k = Some SAND -> k = q) ->
  add_block p t false M = Some M' ->
  (forall k, world M' !! k = Some SAND -> k = q) /\
  (p = q -> no_sand M').
Proof.
  intros Ht Hq Hadd. apply add_block_world in Hadd.
  split.
  - intros k. rewrite Hadd. destruct (decide (k = p)) as [->|Hk].
    + rewrite lookup_insert_eq. congruence.
    + rewrite lookup_insert_ne by done. apply Hq.
  - intros Hpq k. subst q. rewrite Hadd.
    destruct (decide (k = p)) as [->|Hk].
    + rewrite lookup_insert_eq. congruence.
    + rewrite lookup_insert_ne by done. intros Hsand.
      by apply Hq in Hsand.
Qed.

Lemma sand_add `{Backend} (q : pos) (M M' : Model) :
  no_sand M -> add_block q SAND false M = Some M' ->
  forall k, world M' !! k = Some SAND -> k = q.
Proof.
  intros Hno Hadd k. apply add_block_world in Hadd. rewrite Hadd.
  destruct (decide (k = q)) as [->|Hk]; [done|].
  rewrite lookup_insert_ne by done. intros Hsand. by apply Hno in Hsand.
Qed.

Lemma no_sand_add `{Backend} (p : pos) (t : texture) (M M' : Model) :
  t <> SAND -> index_sync M /\ no_sand M ->
  add_block p t false M = Some M' -> index_sync M' /\ no_sand M'.
Proof.
  intros Ht [Hsync Hno] Hadd. split; [by eapply index_sync_add|].
  eapply (not_sand_add p p); [done| |done|done].
  intros k Hk. by apply Hno in Hk.
Qed.

Ltac other_material :=
  let Heq := fresh in
  intros Heq; apply (f_equal (map Prim2SF)) in Heq;
  vm_compute in Heq; discriminate Heq.

Lemma GRASS_not_SAND : GRASS <> SAND.
Proof. other_material. Qed.

Lemma WATER_not_SAND : WATER <> SAND.
Proof. other_material. Qed.

Lemma STONE_not_SAND : STONE <> SAND.
Proof. other_material. Qed.

Lemma WOOD_not_SAND : WOOD <> SAND.
Proof. other_material. Qed.

Lemma LEAF_not_SAND : LEAF <> SAND.
Proof. other_material. Qed.

(** The surface block of a column: the sand, where it is placed, is
    replaced by the block [t] put on the same position next. *)
Lemma beach_covered `{Backend} (q : pos) (t : texture) (sand : bool)
    (st : Model * nat) :
  t <> SAND -> index_sync st.1 /\ no_sand st.1 ->
  exists st',
    (st ← (if sand then add_deferred q SAND st else Some st);
     add_deferred q t st) = Some st' /\
    index_sync st'.1 /\ no_sand st'.1.
Proof.
  intros Ht [Hsync Hno].
  assert (exists st1,
      (if sand then add_deferred q SAND st else Some st) = Some st1 /\
      index_sync st1.1 /\
      forall k, world st1.1 !! k = Some SAND -> k = q)
    as (st1 & -> & Hsync1 & Hq).
  { destruct sand.
    - unfold add_deferred.
      destruct (add_block_total q SAND false st.1 Hsync) as [M1 Hadd].
      rewrite Hadd. cbn [mbind option_bind]. eexists. split; [done|].
      simpl. split; [by eapply index_sync_add|by eapply sand_add].
    - exists st. split; [done|]. split; [done|].
      intros k Hk. by apply Hno in Hk. }
  cbn [mbind option_bind]. unfold add_deferred.
  destruct (add_block_total q t false st1.1 Hsync1) as [M2 Hadd].
  rewrite Hadd. cbn [mbind option_bind]. eexists. split; [done|]. simpl.
  split; [by eapply index_sync_add|].
  by eapply (not_sand_add q q).
Qed.

Lemma generate_column_no_sand `{Backend} (height : Z -> Z -> Z)
    (draw : nat -> Z -> Z -> Z) (x z : Z) (st : Model * nat) :
  index_sync st.1 /\ no_sand st.1 ->
  exists st',
    generate_column height draw x z st = Some st' /\
    index_sync st'.1 /\ no_sand st'.1.
Proof.
  intros Hst. unfold generate_column. cbv zeta.
  set (h := height x z).
  destruct (h <? 4) eqn:Hlow.
  - apply Z.ltb_lt in Hlow.
    replace (seqZ h (4 - h)) with (h :: seqZ (Z.succ h) (Z.pred (4 - h)))
      by (symmetry; apply seqZ_cons; lia).
    cbn [for_each].
    destruct (beach_covered (x, h, z) WATER true st WATER_not_SAND Hst)
      as (st1 & Hrun & Hst1).
    cbn [mbind option_bind] in Hrun.
    destruct (add_deferred (x, h, z) SAND st) as [st0|];
      cbn [mbind option_bind] in *; [|done].
    rewrite Hrun. cbn [mbind option_bind].
    exact (adds_keep (fun M => index_sync M /\ no_sand M)
             (fun t => t <> SAND) (fun M HM => proj1 HM) no_sand_add
             (fun y => (x, y, z)) WATER _ st1 WATER_not_SAND Hst1).
  - destruct (beach_covered (x, h, z) GRASS (h <? 6) st GRASS_not_SAND Hst)
      as (st1 & Hrun & Hst1).
    destruct (if h <? 6 then add_deferred (x, h, z) SAND st else Some st)
      as [st0|]; cbn [mbind option_bind] in *; [|done].
    rewrite Hrun. cbn [mbind option_bind].
    exact (column_rest_keeps draw (fun M => index_sync M /\ no_sand M)
             (fun t => t <> SAND) (fun M HM => proj1 HM) no_sand_add
             x z h st1 STONE_not_SAND WOOD_not_SAND LEAF_not_SAND Hst1).
Qed.

(** X17.  World generation never leaves a block of sand, whatever the
    terrain heights and the random draws: each sand block is put on the
    surface position of its column, and the next call of the same column
    puts water (below level 4) or grass (levels 4 and 5) on that very
    position. *)
Theorem generation_leaves_no_sand `{Backend} (height : Z -> Z -> Z)
    (draw : nat -> Z -> Z -> Z) :
  exists st,
    _initialize height draw (empty_model, 0%nat) = Some st /\
    forall p, world st.1 !! p <> Some SAND.
Proof.
  destruct (columns_keep height draw
              (fun M => index_sync M /\ no_sand M) (empty_model, 0%nat))
    as (st & Hrun & _ & Hno).
  - intros x z s. apply generate_column_no_sand.
  - split; [apply index_sync_empty|]. intros p. simpl.
    by rewrite lookup_empty.
  - exists st. split; [done|]. apply Hno.
Qed.

(** * The input handlers *)

Import Input.

Lemma hit_test_previous_free (M : Model) (position vector : point)
    (max_distance : Z) (hit : option pos) (q : pos) :
  hit_test M position vector max_distance = Some (hit, Some q) ->
  world M !! q = None.
Proof.
  unfold hit_test. cbv zeta. intros Hrun.
  apply hit_test_loop_sound in Hrun as [[_ [=]]|(key & _ & _ & _ & Hq & _)];
    [by apply Hq|done].
Qed.

Lemma texture_eq_STONE (t : texture) :
  negb (texture_eq t STONE) = true -> t <> STONE.
Proof. intros Hne ->. vm_compute in Hne. discriminate Hne. Qed.

(** X18.  A click changes World at one position at most: it puts the
    block in hand on a position that held none, or takes away a block
    that is not stone, or changes nothing.  No block is ever replaced, and
    every stone block is still there after the click, whatever the button,
    the modifiers and the direction of sight. *)
Theorem click_changes_one_block `{Backend}
    (get_sight_vector : Py.num * Py.num -> point) (button modifiers : Z)
    (c c' : Controls) (M M' : Model) :
  on_mouse_press get_sight_vector button modifiers c M = Some (c', M') ->
  (exists p,
     (forall k, k ≠ p -> world M' !! k = world M !! k) /\
     (world M' !! p = world M !! p \/
      (world M !! p = None /\ world M' !! p = Some (block c)) \/
      (exists t, world M !! p = Some t /\ t <> STONE /\
                 button = mouse.LEFT /\ world M' !! p = None))) /\
  (forall k, world M !! k = Some STONE -> world M' !! k = Some STONE).
Proof.
  intros Hrun.
  assert (exists p,
     (forall k, k ≠ p -> world M' !! k = world M !! k) /\
     (world M' !! p = world M !! p \/
      (world M !! p = None /\ world M' !! p = Some (block c)) \/
      (exists t, world M !! p = Some t /\ t <> STONE /\
                 button = mouse.LEFT /\ world M' !! p = None)))
    as (p & Hframe & Hp).
  { assert (forall N : Model, world N = world M ->
       exists p,
         (forall k, k ≠ p -> world N !! k = world M !! k) /\
         (world N !! p = world M !! p \/
          (world M !! p = None /\ world N !! p = Some (block c)) \/
          (exists t, world M !! p = Some t /\ t <> STONE /\
                     button = mouse.LEFT /\ world N !! p = None)))
      as Hsame.
    { intros N HN. exists origin. rewrite HN. split; [done|by left]. }
    revert Hrun. unfold on_mouse_press.
    destruct (exclusive c); [|intros [= _ <-]; by apply Hsame].
    destruct (hit_test M (position c) (get_sight_vector (rotation c)) 8)
      as [[hit previous]|] eqn:Hhit; cbn [mbind option_bind]; [|done].
    destruct ((button =? mouse.RIGHT) ||
              (button =? mouse.LEFT) &&
              negb (Z.land modifiers key.MOD_CTRL =? 0)).
    - destruct previous as [q|]; [|intros [= _ <-]; by apply Hsame].
      destruct (add_block q (block c) true M) as [N|] eqn:Hadd;
        cbn [mbind option_bind]; [|done].
      intros [= _ <-]. apply add_block_world in Hadd.
      apply hit_test_previous_free in Hhit.
      exists q. rewrite Hadd. split.
      + intros k Hk. by rewrite lookup_insert_ne.
      + right. left. by rewrite lookup_insert_eq.
    - destruct (button =? mouse.LEFT) eqn:Hleft;
        [|intros [= _ <-]; by apply Hsame].
      destruct hit as [key|]; [|intros [= _ <-]; by apply Hsame].
      destruct (world M !! key) as [t|] eqn:Hkey;
        cbn [mbind option_bind]; [|done].
      destruct (negb (texture_eq t STONE)) eqn:Hne;
        [|intros [= _ <-]; by apply Hsame].
      destruct (remove_block key true M) as [N|] eqn:Hrem;
        cbn [mbind option_bind]; [|done].
      intros [= _ <-]. apply remove_block_world in Hrem as [Hrem _].
      exists key. rewrite Hrem. split.
      + intros k Hk. by rewrite lookup_delete_ne.
      + right. right. exists t. split; [done|].
        split; [by apply texture_eq_STONE|].
        split; [by apply Z.eqb_eq|apply lookup_delete_eq]. }
  split; [by exists p|].
  intros k Hk. destruct (decide (k = p)) as [->|Hne].
  - destruct Hp as [Hp|[[Hp _]|(t & Hp & Ht & _)]]; congruence.
  - by rewrite Hframe.
Qed.

Lemma click_changes_one_block_witness :
  on_mouse_press (fun _ => ray_direction) mouse.LEFT 0 player stone_model =
    Some (player, stone_model) /\
  world stone_model !! origin = Some STONE.
Proof.
  assert (on_mouse_press (fun _ => ray_direction) mouse.LEFT 0 player
            stone_model = Some (player, stone_model)) as Hrun
    by (vm_compute; reflexivity).
  split; [exact Hrun|].
  exact (proj2 (click_changes_one_block (fun _ => ray_direction)
                  mouse.LEFT 0 player player stone_model stone_model Hrun)
               origin eq_refl).
Defined.

(** ** The camera *)

Lemma float_lt_int_not_nan (f : float) (z : Z) :
  Py.float_lt_int f z = true -> Py.Float f <> Py.Float nan.
Proof. intros Hlt [= ->]. vm_compute in Hlt. discriminate Hlt. Qed.

Lemma clamp_between (v : Py.num) :
  between (-90) 90 (py_max (Py.Int (-90)) (py_min (Py.Int 90) v)).
Proof.
  unfold between, py_min.
  destruct (Py.lt v (Py.Int 90)) eqn:Hhi.
  2:{ unfold py_max. simpl. done. }
  unfold py_max. destruct (Py.lt (Py.Int (-90)) v) eqn:Hlo.
  2:{ simpl. done. }
  destruct v as [z|f]; simpl in *.
  - split; [lia|]. split; [lia|done].
  - split; [|split; [|by eapply float_lt_int_not_nan]].
    + revert Hhi Hlo. unfold Py.float_lt_int, Py.int_lt_float.
      destruct (Prim2SF f) as [s|s| |s m e]; try done.
      * destruct s; done.
      * destruct (0 <=? e); lia.
    + revert Hhi Hlo. unfold Py.float_lt_int, Py.int_lt_float.
      destruct (Prim2SF f) as [s|s| |s m e]; try done.
      * destruct s; done.
      * destruct (0 <=? e); lia.
Qed.

(** X19.  The pitch is clamped.  Whenever [on_mouse_motion] returns with
    the mouse captured, the new pitch is a number between -90 and 90,
    never a NaN, whatever the old rotation and the mouse movement (a NaN
    or an overshoot is replaced by a bound); without the capture nothing
    changes. *)
Theorem on_mouse_motion_clamps (dx dy : Py.num) (c c' : Controls) :
  on_mouse_motion dx dy c = Some c' ->
  if exclusive c then between (-90) 90 (rotation c').2 else c' = c.
Proof.
  unfold on_mouse_motion. destruct (exclusive c); [|by intros [= <-]].
  destruct (rotation c) as [xrot yrot].
  destruct (Py.mul dx _) as [ax|]; cbn [mbind option_bind]; [|done].
  destruct (Py.add xrot ax) as [xrot'|]; cbn [mbind option_bind]; [|done].
  destruct (Py.mul dy _) as [ay|]; cbn [mbind option_bind]; [|done].
  destruct (Py.add yrot ay) as [yrot'|]; cbn [mbind option_bind]; [|done].
  intros [= <-]. cbn [rotation set_rotation snd]. apply clamp_between.
Qed.

Lemma on_mouse_motion_clamps_witness :
  on_mouse_motion (Py.Int 0) (Py.Int 1000) player =
    Some (set_rotation (Py.Float 0, Py.Int 90) player) /\
  between (-90) 90 (Py.Int 90).
Proof.
  assert (on_mouse_motion (Py.Int 0) (Py.Int 1000) player =
          Some (set_rotation (Py.Float 0, Py.Int 90) player)) as Hrun
    by (vm_compute; reflexivity).
  split; [exact Hrun|].
  exact (on_mouse_motion_clamps (Py.Int 0) (Py.Int 1000) player _ Hrun).
Defined.

(** ** The keyboard *)

Lemma steady_fields (c c' : Controls) :
  crouch c' = crouch c -> sprinting c' = sprinting c ->
  block c' = block c -> steady c -> steady c'.
Proof. unfold steady. by intros -> -> ->. Qed.

Lemma number_key_selects (symbol modifiers : Z) (c : Controls) :
  symbol ∈ num_keys ->
  exists b,
    b ∈ inventory /\ on_key_press symbol modifiers c = Some (set_block b c).
Proof.
  unfold num_keys. rewrite !elem_of_cons, elem_of_nil.
  intros Hkey.
  repeat (destruct Hkey as [->|Hkey];
          [eexists; split; [|reflexivity]; unfold inventory;
           rewrite !elem_of_cons; tauto|]).
  done.
Qed.

(** X20.  The key handlers keep the controls steady: the player is never
    both crouching and sprinting, and the block in hand is always one of
    the inventory.  Every number key selects a block of the inventory
    (the index wraps around, so no key is out of range). *)
Theorem key_handlers_keep_steady (symbol modifiers : Z) (c : Controls) :
  steady c ->
  (forall c', on_key_press symbol modifiers c = Some c' -> steady c') /\
  (forall c', on_key_release symbol modifiers c = Some c' -> steady c') /\
  (symbol ∈ num_keys ->
   exists b,
     b ∈ inventory /\
     on_key_press symbol modifiers c = Some (set_block b c)).
Proof.
  intros Hc. split; [|split; [|apply number_key_selects]].
  - intros c'. unfold on_key_press.
    repeat (destruct (symbol =? _);
            [try (intros [= <-]; by apply (steady_fields c))|]).
    + destruct (Py.sub _ _); cbn [mbind option_bind]; [|done].
      intros [= <-]. by apply (steady_fields c).
    + destruct Hc as [_ Hb]. cbn [sprinting set_crouch].
      destruct (sprinting c) eqn:Hs.
      * destruct (Py.sub _ _); cbn [mbind option_bind]; [|done].
        intros [= <-]. split; [apply andb_false_r|done].
      * intros [= <-]. split; [|done]. simpl. rewrite Hs. done.
    + destruct Hc as [Hcs Hb]. destruct (crouch c) eqn:Hcr; simpl.
      * intros [= <-]. split; [|done]. by rewrite Hcr.
      * destruct (sprinting c); simpl.
        -- intros [= <-]. split; [|done]. simpl. by rewrite Hcr.
        -- destruct (Py.add _ _); cbn [mbind option_bind]; [|done].
           intros [= <-]. split; [|done]. simpl. by rewrite Hcr.
    + destruct (bool_decide (symbol ∈ num_keys)); [|by intros [= <-]].
      change (num_keys !! 0%nat) with (Some key._1).
      cbn [mbind option_bind]. cbv zeta.
      destruct (inventory !! _) as [b|] eqn:Hb;
        cbn [mbind option_bind]; [|done].
      intros [= <-]. split; [apply Hc|].
      by eapply list_elem_of_lookup_2.
  - intros c'. unfold on_key_release.
    repeat (destruct (symbol =? _);
            [try (intros [= <-]; by apply (steady_fields c))|]).
    + intros [= <-]. split; [done|apply Hc].
    + destruct (Py.add _ _); cbn [mbind option_bind]; [|done].
      intros [= <-]. by apply (steady_fields c).
    + by intros [= <-].
Qed.

Lemma key_handlers_keep_steady_witness :
  steady player /\ steady (set_crouch true player).
Proof.
  assert (steady player) as Hc.
  { split; [reflexivity|]. unfold inventory. rewrite !elem_of_cons. tauto. }
  split; [exact Hc|].
  exact (proj1 (key_handlers_keep_steady key.LSHIFT 0 player Hc)
               (set_crouch true player) eq_refl).
Defined.

Lemma press_movement (symbol modifiers : Z) (c : Controls) :
  symbol ∈ movement_keys ->
  on_key_press symbol modifiers c =
    Some (set_strafe ((strafe c).1 + (strafe_step symbol).1,
                      (strafe c).2 + (strafe_step symbol).2) c).
Proof.
  unfold movement_keys. rewrite !elem_of_cons, elem_of_nil.
  intros [->|[->|[->|[->|[]]]]]; unfold on_key_press, strafe_step; simpl;
    do 2 f_equal; f_equal; lia.
Qed.

Lemma release_movement (symbol modifiers : Z) (c : Controls) :
  symbol ∈ movement_keys ->
  on_key_release symbol modifiers c =
    Some (set_strafe ((strafe c).1 - (strafe_step symbol).1,
                      (strafe c).2 - (strafe_step symbol).2) c).
Proof.
  unfold movement_keys. rewrite !elem_of_cons, elem_of_nil.
  intros [->|[->|[->|[->|[]]]]]; unfold on_key_release, strafe_step; simpl;
    do 2 f_equal; f_equal; lia.
Qed.

Lemma set_strafe_same (c : Controls) (v : Z * Z) :
  v.1 = (strafe c).1 -> v.2 = (strafe c).2 -> set_strafe v c = c.
Proof.
  destruct c as [? ? ? ? ? ? [a b] ? ? ?], v as [x y]. simpl.
  by intros -> ->.
Qed.

Lemma press_all_movement (symbols : list Z) :
  Forall (fun symbol => symbol ∈ movement_keys) symbols ->
  forall c,
    press_all symbols c =
      Some (set_strafe ((strafe c).1 + (strafe_total symbols).1,
                        (strafe c).2 + (strafe_total symbols).2) c).
Proof.
  unfold press_all.
  induction 1 as [|symbol symbols Hkey _ IH]; intros c; cbn [for_each].
  - simpl. f_equal. symmetry. apply set_strafe_same; simpl; lia.
  - rewrite (press_movement symbol 0 c Hkey). cbn [mbind option_bind].
    rewrite IH. unfold set_strafe. simpl. do 2 f_equal. f_equal; lia.
Qed.

Lemma release_all_movement (symbols : list Z) :
  Forall (fun symbol => symbol ∈ movement_keys) symbols ->
  forall c,
    release_all symbols c =
      Some (set_strafe ((strafe c).1 - (strafe_total symbols).1,
                        (strafe c).2 - (strafe_total symbols).2) c).
Proof.
  unfold release_all.
  induction 1 as [|symbol symbols Hkey _ IH]; intros c; cbn [for_each].
  - simpl. f_equal. symmetry. apply set_strafe_same; simpl; lia.
  - rewrite (release_movement symbol 0 c Hkey). cbn [mbind option_bind].
    rewrite IH. unfold set_strafe. simpl. do 2 f_equal. f_equal; lia.
Qed.

Lemma strafe_total_perm (l k : list Z) :
  l ≡ₚ k -> strafe_total l = strafe_total k.
Proof.
  unfold strafe_total.
  induction 1 as [|x l k _ IH|x y l|l k m _ IH1 _ IH2]; simpl.
  - done.
  - by rewrite IH.
  - f_equal; lia.
  - congruence.
Qed.

(** X21.  Movement keys undo themselves.  After any run of presses of
    W, S, A and D, releasing the same keys in any order brings the
    controls back to exactly what they were before the first press: no
    residue is left in [strafe], and nothing else was touched. *)
Theorem movement_keys_release (pressed released : list Z) (c : Controls) :
  Forall (fun symbol => symbol ∈ movement_keys) pressed ->
  released ≡ₚ pressed ->
  exists c1,
    press_all pressed c = Some c1 /\ release_all released c1 = Some c.
Proof.
  intros Hkeys Hperm. eexists. split; [by apply press_all_movement|].
  rewrite release_all_movement.
  2:{ by rewrite Hperm. }
  rewrite (strafe_total_perm _ _ Hperm). f_equal.
  destruct c as [? ? ? ? ? ? [a b] ? ? ?]. unfold set_strafe. simpl.
  do 2 f_equal; lia.
Qed.

Lemma movement_keys_release_witness :
  Forall (fun symbol => symbol ∈ movement_keys) [key.W; key.D] /\
  [key.D; key.W] ≡ₚ [key.W; key.D] /\
  exists c1,
    press_all [key.W; key.D] player = Some c1 /\
    release_all [key.D; key.W] c1 = Some player.
Proof.
  assert (Forall (fun symbol => symbol ∈ movement_keys) [key.W; key.D])
    as Hkeys.
  { repeat constructor. }
  assert ([key.D; key.W] ≡ₚ [key.W; key.D]) as Hperm by apply perm_swap.
  split; [exact Hkeys|]. split; [exact Hperm|].
  exact (movement_keys_release [key.W; key.D] [key.D; key.W] player
           Hkeys Hperm).
Defined.
